(** * TTRPG dice roller: a shallow embedding of [scripts/dice_roller.py]

    The development follows the source file top to bottom: the safety
    limits, the [DieRoll] and [DiceTrace] records, the exception classes,
    [CSPRNG.roll_die], the [Tokenizer], the recursive-descent [DiceParser],
    the [DiceEvaluator] and the entry point [roll_dice].

    Modelling conventions.
    - Python integers are [Z]; list lengths, token indices and character
      offsets are [nat].
    - A Python [str] is a Rocq [string]; its characters are read as the
      code points U+0000 to U+00FF.
    - Exceptions are values of [exn]; code that may raise lives in the
      state-and-error monad [M].
    - The operating system's entropy ([secrets.token_bytes],
      [secrets.randbelow]) is an explicit [Entropy] oracle, read through a
      cursor that is part of the state.
    - True division produces IEEE binary64 values, modelled by the
      standard library's [spec_float].
    - Limits of the host interpreter (recursion limit, the digit limit of
      integer/string conversion) are outside the model. *)

From Stdlib Require Import ZArith List String Ascii Bool Lia Arith.
From Stdlib Require Import Strings.Byte.
From Stdlib Require Import DecimalString SpecFloat Permutation.
Import ListNotations.

Local Open Scope string_scope.
Local Open Scope list_scope.
Local Open Scope Z_scope.

(** ** Safety limits *)

Definition VERSION : string := "dice-1.0.0".
Definition MAX_DICE : Z := 1000.
Definition MAX_SIDES : Z := 1000000000.
Definition MAX_EXPLOSIONS : nat := 100.
Definition MAX_REROLLS : nat := Z.to_nat 10000.
Definition MAX_RECURSION : nat := 32.
(** The literal [10000] of the rejection loop in [roll_die]. *)
Definition MAX_ATTEMPTS : nat := Z.to_nat 10000.

(** ** Data model *)

Inductive ResultType := SUM | SUCCESS_COUNT.

Definition ResultType_value (t : ResultType) : string :=
  match t with SUM => "sum" | SUCCESS_COUNT => "success_count" end.

(** [DieRoll]: [explodes] is a list of one-field dictionaries
    [{'value': n}], kept here as the list of the [n]. *)
Record DieRoll := mkDieRoll {
  value : Z;
  rerolls : list Z;
  explodes : list Z;
  success : option bool
}.

(** [DieRoll(value=v)] after [__post_init__]. *)
Definition new_DieRoll (v : Z) : DieRoll := mkDieRoll v [] [] None.

Record DiceTrace := mkDiceTrace {
  term : string;
  rolls : list DieRoll;
  keptValues : option (list Z);
  sum : option Z;
  threshold : option string;
  successes : option Z
}.

(** The values a dictionary of the result holds: integers, booleans,
    strings, lists and dictionaries (a list of keys with their values, in
    the order of insertion). *)
#[warnings="-register-all"]
Inductive json :=
| JInt (n : Z)
| JBool (b : bool)
| JStr (s : string)
| JList (l : list json)
| JDict (d : list (string * json)).

(** [DieRoll.to_dict] *)
Definition DieRoll_to_dict (r : DieRoll) : json :=
  JDict ([("value", JInt (value r))]
         ++ match rerolls r with
            | [] => []
            | l => [("rerolls", JList (map JInt l))]
            end
         ++ match explodes r with
            | [] => []
            | l => [("explodes",
                     JList (map (fun n => JDict [("value", JInt n)]) l))]
            end
         ++ match success r with
            | None => []
            | Some b => [("success", JBool b)]
            end).

(** [DiceTrace.to_dict] *)
Definition DiceTrace_to_dict (t : DiceTrace) : json :=
  JDict ([("term", JStr (term t));
          ("rolls", JList (map DieRoll_to_dict (rolls t)))]
         ++ match keptValues t with
            | None => []
            | Some l => [("keptValues", JList (map JInt l))]
            end
         ++ match sum t with
            | None => []
            | Some n => [("sum", JInt n)]
            end
         ++ match threshold t with
            | None => []
            | Some s => [("threshold", JStr s)]
            end
         ++ match successes t with
            | None => []
            | Some n => [("successes", JInt n)]
            end).

(** ** Exceptions *)

Inductive exn :=
| ParseError (message : string) (position : nat) (input_str : string)
| SemanticError (message : string)
| LimitError (message : string)
| DiceError (message : string)
    (** the base class, raised as such by the evaluator *)
| PyException (class_name : string) (message : string)
    (** an exception of the host language: [ValueError], [OverflowError] *).

(** ** The state-and-error monad *)

Inductive outcome (A : Type) :=
| Ok (a : A)
| Raise (e : exn).
Arguments Ok {A} a.
Arguments Raise {A} e.

Definition M (S A : Type) : Type := S -> outcome (A * S).

Definition ret {S A} (a : A) : M S A := fun s => Ok (a, s).

Definition bind {S A B} (m : M S A) (k : A -> M S B) : M S B :=
  fun s => match m s with
           | Ok (a, s') => k a s'
           | Raise e => Raise e
           end.

Definition raise {S A} (e : exn) : M S A := fun _ => Raise e.
Definition get {S} : M S S := fun s => Ok (s, s).
Definition put {S} (s : S) : M S unit := fun _ => Ok (tt, s).

Declare Scope monad_scope.
Delimit Scope monad_scope with monad.
Notation "x <- c ;; k" := (bind c (fun x => k))
  (at level 100, c at next level, right associativity) : monad_scope.
Notation "' p <- c ;; k" := (bind c (fun x => let p := x in k))
  (at level 100, p pattern, c at next level, right associativity) : monad_scope.
Notation "c ;;; k" := (bind c (fun _ => k))
  (at level 100, right associativity) : monad_scope.

(** ** Small pieces of the host language *)

(** [str(n)] for an integer. *)
Definition str (n : Z) : string := NilZero.string_of_int (Z.to_int n).

(** [n.bit_length()]. *)
Definition bit_length (n : Z) : Z :=
  if n =? 0 then 0 else Z.log2 (Z.abs n) + 1.

(** [int.from_bytes(bs, byteorder='big')]. *)
Definition from_bytes (bs : list byte) : Z :=
  fold_left (fun acc b => acc * 256 + Z.of_N (Byte.to_N b)) bs 0.

(** [sum(l)] over integers. *)
Definition zsum (l : list Z) : Z := fold_left Z.add l 0.

(** ** The entropy source

    [os_byte i] is the [i]-th byte the operating system hands out;
    [below i n] is what the [i]-th call of [secrets.randbelow] returns when
    asked for a number below [n]. *)
Record Entropy := mkEntropy {
  os_byte : nat -> byte;
  below : nat -> Z -> Z
}.

(** What the library promises of [secrets.randbelow]. *)
Definition randbelow_in_range (E : Entropy) : Prop :=
  forall i n, 0 < n -> 0 <= below E i n < n.

Record rng_state := mkRng {
  bytes_drawn : nat;
  below_calls : nat
}.

Definition token_bytes (E : Entropy) (n : nat) : M rng_state (list byte) :=
  fun r => Ok (map (os_byte E) (seq (bytes_drawn r) n),
               mkRng (bytes_drawn r + n) (below_calls r)).

Definition randbelow (E : Entropy) (n : Z) : M rng_state Z :=
  fun r => Ok (below E (below_calls r) n,
               mkRng (bytes_drawn r) (S (below_calls r))).

(** ** [CSPRNG.roll_die] *)

Definition bytes_needed (sides : Z) : Z := (bit_length sides + 7) / 8.
Definition max_value (sides : Z) : Z := Z.shiftl 1 (bytes_needed sides * 8).
Definition bound (sides : Z) : Z := (max_value sides / sides) * sides.

Open Scope monad_scope.

(** The [while attempts < 10000] loop; [remaining] is [10000 - attempts]. *)
Fixpoint rejection_loop (E : Entropy) (sides : Z) (remaining : nat)
  : M rng_state Z :=
  match remaining with
  | O => v <- randbelow E sides ;; ret (v + 1)
  | S remaining' =>
      random_bytes <- token_bytes E (Z.to_nat (bytes_needed sides)) ;;
      let value := from_bytes random_bytes in
      if value <? bound sides then ret (value mod sides + 1)
      else rejection_loop E sides remaining'
  end.

Definition roll_die (E : Entropy) (sides : Z) : M rng_state Z :=
  if sides <? 1 then
    raise (PyException "ValueError" "Die must have at least 1 side")
  else if sides >? MAX_SIDES then
    raise (LimitError
             ("Die cannot have more than " ++ str MAX_SIDES ++ " sides")%string)
  else if sides =? 1 then ret 1
  else rejection_loop E sides MAX_ATTEMPTS.

(** ** Characters and strings of the host language *)

Definition code (c : ascii) : N := N_of_ascii c.

(** The regular expression's [\d] on the modelled code points. *)
Definition is_digit (c : ascii) : bool :=
  ((48 <=? code c) && (code c <=? 57))%N.

(** [str.isspace] for one character, which is also the expression's [\s]:
    tab to carriage return, the four separators U+001C to U+001F, space,
    U+0085 and U+00A0. *)
Definition is_space (c : ascii) : bool :=
  (((9 <=? code c) && (code c <=? 13)) || ((28 <=? code c) && (code c <=? 32))
   || (code c =? 133) || (code c =? 160))%N.

(** [str.lower] for one character. *)
Definition lower_char (c : ascii) : ascii :=
  if (((65 <=? code c) && (code c <=? 90))
      || ((192 <=? code c) && (code c <=? 222) && negb (code c =? 215)))%N
  then ascii_of_N (code c + 32) else c.

Definition chars (s : string) : list ascii := list_ascii_of_string s.
Definition of_chars (l : list ascii) : string := string_of_list_ascii l.

Definition lower (s : string) : string := of_chars (map lower_char (chars s)).

(** [s.isdigit()]: non-empty, and every character a digit.  Besides the
    ten decimal digits the superscripts U+00B2, U+00B3 and U+00B9 count. *)
Definition isdigit_char (c : ascii) : bool :=
  (is_digit c || (code c =? 178) || (code c =? 179) || (code c =? 185))%N.

Definition isdigit (s : string) : bool :=
  match chars s with
  | [] => false
  | l => forallb isdigit_char l
  end.

(** [s.startswith(p)]. *)
Definition startswith (p s : string) : bool := String.prefix p s.

(** [s[1:]]. *)
Definition tail_str (s : string) : string :=
  match s with EmptyString => EmptyString | String _ s' => s' end.

(** [c in s] for a one-character [c]. *)
Definition contains_char (c : ascii) (s : string) : bool :=
  existsb (Ascii.eqb c) (chars s).

(** [s.strip()]. *)
Fixpoint lstrip (l : list ascii) : list ascii :=
  match l with
  | c :: l' => if is_space c then lstrip l' else l
  | [] => []
  end.

Definition strip (s : string) : string :=
  of_chars (rev (lstrip (rev (lstrip (chars s))))).

(** [int(s)] on the strings the parser hands it: a run of decimal digits
    converts, anything else is a [ValueError].  So is a run of more than
    [MAX_STR_DIGITS] digits, leading zeros included: the interpreter's
    default limit on the conversion of a [str] to an [int]
    ([sys.get_int_max_str_digits()]). *)
Definition MAX_STR_DIGITS : Z := 4300.

Definition digit_value (c : ascii) : Z := Z.of_N (code c) - 48.

Definition int_of_digits (l : list ascii) : Z :=
  fold_left (fun acc c => acc * 10 + digit_value c) l 0.

Definition py_int (s : string) : option Z :=
  match chars s with
  | [] => None
  | l => if forallb is_digit l
            && (Z.of_nat (List.length l) <=? MAX_STR_DIGITS)
         then Some (int_of_digits l) else None
  end.

Definition int_ {S} (s : string) : M S Z :=
  match py_int s with
  | Some n => ret n
  | None =>
      raise (PyException "ValueError"
               (if forallb is_digit (chars s) && negb (String.eqb s "")
                then "Exceeds the limit (" ++ str MAX_STR_DIGITS
                     ++ " digits) for integer string conversion: value has "
                     ++ str (Z.of_nat (String.length s))
                     ++ " digits; use sys.set_int_max_str_digits() "
                     ++ "to increase the limit"
                else "invalid literal for int() with base 10: '"
                     ++ s ++ "'")%string)
  end.

(** ** [Tokenizer] *)

Record Token := mkToken {
  tok_text : string;
  pos : nat
}.

(** Length of the longest prefix whose characters satisfy [p]: a greedy
    [p+] or [p*]. *)
Fixpoint span_len (p : ascii -> bool) (s : list ascii) : nat :=
  match s with
  | c :: s' => if p c then S (span_len p s') else O
  | [] => O
  end.

(** A literal, matched ignoring case ([re.IGNORECASE]); the literal is
    given in lower case. *)
Fixpoint lit (p s : list ascii) : option nat :=
  match p, s with
  | [], _ => Some O
  | a :: p', c :: s' =>
      if Ascii.eqb (lower_char c) a then option_map S (lit p' s') else None
  | _ :: _, [] => None
  end.

(** Ordered alternation: the first alternative that matches wins. *)
Fixpoint first_of (alts : list (list ascii -> option nat)) (s : list ascii)
  : option nat :=
  match alts with
  | [] => None
  | a :: alts' => match a s with Some n => Some n | None => first_of alts' s end
  end.

Definition lits (ps : list string) : list (list ascii -> option nat) :=
  map (fun p => lit (chars p)) ps.

(** [(\d+)] *)
Definition alt_number (s : list ascii) : option nat :=
  match span_len is_digit s with O => None | n => Some n end.

(** [d\d+] *)
Definition alt_d_digits (s : list ascii) : option nat :=
  match lit (chars "d") s with
  | Some _ => match span_len is_digit (tl s) with O => None | n => Some (S n) end
  | None => None
  end.

(** [(d[%F]|d\d+|d00)] *)
Definition alt_dice (s : list ascii) : option nat :=
  first_of (lits ["d%"; "df"] ++ [alt_d_digits] ++ lits ["d00"]) s.

(** [(kh|kl|dh|dl)] *)
Definition alt_keep (s : list ascii) : option nat :=
  first_of (lits ["kh"; "kl"; "dh"; "dl"]) s.

(** [(ro?|!{1,2}p?)]: the quantifiers are greedy. *)
Definition alt_reroll_explode (s : list ascii) : option nat :=
  first_of (lits ["ro"; "r"; "!!p"; "!!"; "!p"; "!"]) s.

(** [(>=|<=|=|>|<)] *)
Definition alt_comparator (s : list ascii) : option nat :=
  first_of (lits [">="; "<="; "="; ">"; "<"]) s.

(** [(sa|sd)] *)
Definition alt_sort (s : list ascii) : option nat :=
  first_of (lits ["sa"; "sd"]) s.

(** [([+\-*/()])] *)
Definition alt_operator (s : list ascii) : option nat :=
  first_of (lits ["+"; "-"; "*"; "/"; "("; ")"]) s.

(** The comment group: [#] and every character up to the end of the line. *)
Definition alt_comment (s : list ascii) : option nat :=
  match lit (chars "#") s with
  | Some _ => Some (S (span_len (fun c => negb (code c =? 10)%N) (tl s)))
  | None => None
  end.

(** [(\s+)] *)
Definition alt_space (s : list ascii) : option nat :=
  match span_len is_space s with O => None | n => Some n end.

(** The groups of an alternation in order, numbered from [g]: the number
    of the first group that matches and the length of its match. *)
Fixpoint first_group (g : nat) (alts : list (list ascii -> option nat))
  (s : list ascii) : option (nat * nat) :=
  match alts with
  | [] => None
  | a :: alts' =>
      match a s with
      | Some n => Some (g, n)
      | None => first_group (S g) alts' s
      end
  end.

(** [TOKEN_PATTERN] tried at the head of [s]. *)
Definition TOKEN_PATTERN (s : list ascii) : option (nat * nat) :=
  first_group 1 [alt_number; alt_dice; alt_keep; alt_reroll_explode;
                 alt_comparator; alt_sort; alt_operator; alt_comment;
                 alt_space] s.

(** [TOKEN_PATTERN.finditer] with the loop body of [_tokenize]: [at_pos] is
    the offset of the head of [s]; [inside] counts the characters of the
    current match still to be passed.  Where nothing matches the scan moves
    on by one character. *)
Fixpoint finditer (s : list ascii) (at_pos inside : nat) : list Token :=
  match s with
  | [] => []
  | _ :: s' =>
      match inside with
      | S inside' => finditer s' (S at_pos) inside'
      | O =>
          match TOKEN_PATTERN s with
          | None => finditer s' (S at_pos) O
          | Some (group, len) =>
              let rest := finditer s' (S at_pos) (Nat.pred len) in
              if (group =? 9)%nat || (group =? 8)%nat then rest
              else mkToken (of_chars (firstn len s)) at_pos :: rest
          end
      end
  end.

Definition _tokenize (text : string) : list Token := finditer (chars text) O O.

Record Tokenizer := mkTokenizer {
  text : string;
  tokens : list Token;
  position : nat
}.

(** [Tokenizer.__init__] *)
Definition new_Tokenizer (t : string) : Tokenizer :=
  let stripped := strip t in
  mkTokenizer stripped (_tokenize stripped) O.

Definition slen (s : string) : nat := String.length s.

(** ** Abstract syntax *)

Inductive cmp := OpEq | OpGt | OpGe | OpLt | OpLe.

Definition cmp_of_string (s : string) : option cmp :=
  if String.eqb s ">=" then Some OpGe
  else if String.eqb s "<=" then Some OpLe
  else if String.eqb s "=" then Some OpEq
  else if String.eqb s ">" then Some OpGt
  else if String.eqb s "<" then Some OpLt
  else None.

Definition string_of_cmp (o : cmp) : string :=
  match o with
  | OpEq => "=" | OpGt => ">" | OpGe => ">=" | OpLt => "<" | OpLe => "<="
  end.

(** A condition's value: a number, or the placeholder ['max'] that the
    explosion default carries until the evaluator resolves it. *)
Inductive threshold_value := Max | Num (n : Z).

Record Condition := mkCondition {
  cond_op : cmp;
  cond_value : threshold_value
}.

Record RerollSpec := mkReroll {
  once : bool;
  reroll_condition : Condition
}.

Record ExplodeSpec := mkExplode {
  penetrating : bool;
  compound : bool;
  explode_condition : Condition
}.

Inductive keep_type := kh | kl | dh | dl.

Definition keep_type_of_string (s : string) : option keep_type :=
  if String.eqb s "kh" then Some kh
  else if String.eqb s "kl" then Some kl
  else if String.eqb s "dh" then Some dh
  else if String.eqb s "dl" then Some dl
  else None.

Definition string_of_keep_type (k : keep_type) : string :=
  match k with kh => "kh" | kl => "kl" | dh => "dh" | dl => "dl" end.

Record KeepSpec := mkKeep {
  keep_mode : keep_type;
  keep_count : Z
}.

Inductive sort_type := sa | sd.

Record Modifiers := mkModifiers {
  reroll : option RerollSpec;
  explode : option ExplodeSpec;
  keep : option KeepSpec;
  sort : option sort_type;
  comparator : option Condition
}.

Definition no_modifiers : Modifiers := mkModifiers None None None None None.

(** ['d'], ['d%'], ['dF'] *)
Inductive die_type := Standard | Percentile | Fate.

Inductive binop := Add | Sub | Mul | Div.
Inductive unop := Neg.

Inductive ast :=
| Number (n : Z)
| BinaryOp (op : binop) (left right : ast)
| UnaryOp (op : unop) (operand : ast)
| Dice (count sides : Z) (kind : die_type) (modifiers : Modifiers).

(** ** [DiceParser] *)

Record DiceParser := mkParser {
  tokenizer : Tokenizer;
  recursion_depth : nat
}.

Definition new_DiceParser (t : string) : DiceParser :=
  mkParser (new_Tokenizer t) O.

Definition P := M DiceParser.

Definition set_position (n : nat) : P unit :=
  fun p => Ok (tt, mkParser (mkTokenizer (text (tokenizer p))
                                         (tokens (tokenizer p)) n)
                            (recursion_depth p)).

Definition set_depth (d : nat) : P unit :=
  fun p => Ok (tt, mkParser (tokenizer p) d).

(** [Tokenizer.peek] *)
Definition peek (offset : nat) : P (option string) :=
  p <- get ;;
  ret (option_map tok_text
         (nth_error (tokens (tokenizer p)) (position (tokenizer p) + offset))).

(** [Tokenizer.at_end] *)
Definition at_end : P bool :=
  p <- get ;;
  ret (List.length (tokens (tokenizer p)) <=? position (tokenizer p))%nat.

(** [len(self.tokenizer.text)] *)
Definition text_len : P nat := p <- get ;; ret (slen (text (tokenizer p))).

Definition the_text : P string := p <- get ;; ret (text (tokenizer p)).

(** [self.tokenizer.tokens[i]['pos']] *)
Definition token_pos (i : nat) : P nat :=
  p <- get ;;
  match nth_error (tokens (tokenizer p)) i with
  | Some t => ret (pos t)
  | None => raise (PyException "IndexError" "list index out of range")
  end.

Definition parse_error {A} (msg : string) (where_ : nat) : P A :=
  t <- the_text ;; raise (ParseError msg where_ t).

(** [Tokenizer.consume] *)
Definition consume (expected : option string) : P string :=
  p <- get ;;
  match nth_error (tokens (tokenizer p)) (position (tokenizer p)) with
  | None =>
      n <- text_len ;;
      match expected with
      | Some e =>
          if String.eqb e EmptyString then parse_error "Unexpected end of input" n
          else parse_error ("Expected '" ++ e ++ "' but reached end of input")%string n
      | None => parse_error "Unexpected end of input" n
      end
  | Some token =>
      set_position (S (position (tokenizer p))) ;;;
      match expected with
      | Some e =>
          if negb (String.eqb e EmptyString)
             && negb (String.eqb (lower (tok_text token)) (lower e))
          then parse_error ("Expected '" ++ e ++ "' but got '"
                            ++ tok_text token ++ "'")%string (pos token)
          else ret (tok_text token)
      | None => ret (tok_text token)
      end
  end.

(** The position for "expected a number" errors:
    [tokens[position]['pos'] if not at_end() else len(text)]. *)
Definition here_or_end : P nat :=
  e <- at_end ;;
  if e then text_len
  else p <- get ;; token_pos (position (tokenizer p)).

(** [self.tokenizer.at_end() or not self.tokenizer.peek().isdigit()] *)
Definition no_number_next : P bool :=
  e <- at_end ;;
  if e then ret true
  else t <- peek 0 ;;
       ret (negb (match t with Some s => isdigit s | None => false end)).

(** [DiceParser.parse_condition] *)
Definition parse_condition (default_op : cmp) (default_value : threshold_value)
  : P Condition :=
  token <- peek 0 ;;
  match token with
  | Some t =>
      match cmp_of_string t with
      | Some _ =>
          op <- consume None ;;
          bad <- no_number_next ;;
          if bad then
            w <- here_or_end ;;
            parse_error ("Expected number after operator '" ++ op ++ "'")%string w
          else
            s <- consume None ;;
            v <- int_ s ;;
            ret (mkCondition
                   (match cmp_of_string op with Some o => o | None => OpEq end)
                   (Num v))
      | None =>
          if isdigit t then
            s <- consume None ;;
            v <- int_ s ;;
            ret (mkCondition OpEq (Num v))
          else ret (mkCondition default_op default_value)
      end
  | None => ret (mkCondition default_op default_value)
  end.

Definition is_in (s : string) (l : list string) : bool :=
  existsb (String.eqb s) l.

(** The [while] loop of [parse_dice_modifiers]; every round that does not
    leave the loop consumes a token, so [n], the number of tokens left when
    the loop starts, bounds the rounds. *)
Fixpoint modifiers_loop (n : nat) (mods : Modifiers) : P Modifiers :=
  e <- at_end ;;
  if e then ret mods else
  token <- peek 0 ;;
  match token with
  | None => ret mods
  | Some token =>
    if String.eqb token EmptyString then ret mods else
    let token_lower := lower token in
    match n with
    | O => raise (PyException "RecursionError"
                               "maximum recursion depth exceeded")
    | S n' =>
      if is_in token_lower ["r"; "ro"] then
        consume None ;;;
        let once := String.eqb token_lower "ro" in
        condition <- parse_condition OpEq (Num 1) ;;
        modifiers_loop n'
          (mkModifiers (Some (mkReroll once condition)) (explode mods)
                       (keep mods) (sort mods) (comparator mods))
      else if is_in token_lower ["!"; "!!"; "!p"] then
        explode_token <- consume None ;;
        let penetrating := contains_char "p" (lower explode_token) in
        let compound := (slen explode_token =? 2)%nat
                        && String.eqb explode_token "!!" in
        condition <- parse_condition OpGe Max ;;
        modifiers_loop n'
          (mkModifiers (reroll mods)
                       (Some (mkExplode penetrating compound condition))
                       (keep mods) (sort mods) (comparator mods))
      else
      match keep_type_of_string token_lower with
      | Some mod_type =>
        consume None ;;;
        bad <- no_number_next ;;
        if bad then
          w <- here_or_end ;;
          parse_error ("Expected number after '"
                       ++ string_of_keep_type mod_type ++ "'")%string w
        else
          s <- consume None ;;
          number <- int_ s ;;
          modifiers_loop n'
            (mkModifiers (reroll mods) (explode mods)
                         (Some (mkKeep mod_type number))
                         (sort mods) (comparator mods))
      | None =>
      if is_in token_lower ["sa"; "sd"] then
        consume None ;;;
        let sort_type := if String.eqb token_lower "sa" then sa else sd in
        modifiers_loop n'
          (mkModifiers (reroll mods) (explode mods) (keep mods)
                       (Some sort_type) (comparator mods))
      else
      match cmp_of_string token_lower with
      | Some _ =>
        op <- consume None ;;
        bad <- no_number_next ;;
        if bad then
          w <- here_or_end ;;
          parse_error ("Expected number after comparator '" ++ op ++ "'")%string w
        else
          s <- consume None ;;
          v <- int_ s ;;
          ret (mkModifiers (reroll mods) (explode mods) (keep mods) (sort mods)
                 (Some (mkCondition
                          (match cmp_of_string op with Some o => o | None => OpEq end)
                          (Num v))))
      | None => ret mods
      end
      end
    end
  end.

Definition tokens_left (p : DiceParser) : nat :=
  (List.length (tokens (tokenizer p)) - position (tokenizer p))%nat.

(** [DiceParser.parse_dice_modifiers] *)
Definition parse_dice_modifiers : P Modifiers :=
  p <- get ;; modifiers_loop (tokens_left p) no_modifiers.

(** [DiceParser.parse_dice] *)
Definition parse_dice : P ast :=
  count_token <- peek 0 ;;
  count <- (match count_token with
            | Some t => if isdigit t then s <- consume None ;; int_ s else ret 1
            | None => ret 1
            end) ;;
  die_token <- consume None ;;
  p <- get ;;
  if negb (startswith "d" (lower die_token)) then
    w <- token_pos (position (tokenizer p) - 1) ;;
    parse_error ("Expected dice notation, got '" ++ die_token ++ "'")%string w
  else
  let sides_str := lower (tail_str die_token) in
  '(sides, kind) <-
    (if String.eqb sides_str "%" || String.eqb sides_str "00" then
       ret (100, Percentile)
     else if String.eqb sides_str "f" || String.eqb sides_str "f.2" then
       ret (3, Fate)
     else match py_int sides_str with
          | Some n => ret (n, Standard)
          | None =>
              w <- token_pos (position (tokenizer p) - 1) ;;
              parse_error ("Invalid dice sides '" ++ sides_str ++ "'")%string w
          end) ;;
  if count >? MAX_DICE then
    raise (LimitError ("Cannot roll more than " ++ str MAX_DICE
                       ++ " dice per term")%string)
  else if sides >? MAX_SIDES then
    raise (LimitError ("Die cannot have more than " ++ str MAX_SIDES
                       ++ " sides")%string)
  else if count <? 1 then raise (SemanticError "Must roll at least 1 die")
  else if sides <? 1 then raise (SemanticError "Die must have at least 1 side")
  else
    modifiers <- parse_dice_modifiers ;;
    ret (Dice count sides kind modifiers).

(** [DiceParser.parse_primary] *)
Definition parse_primary : P ast :=
  token <- peek 0 ;;
  match token with
  | None => n <- text_len ;; parse_error "Unexpected end of expression" n
  | Some token =>
    if String.eqb token EmptyString then
      n <- text_len ;; parse_error "Unexpected end of expression" n
    else
    next <- peek 1 ;;
    if startswith "d" (lower token)
       || (isdigit token
           && match next with
              | Some t => negb (String.eqb t EmptyString) && startswith "d" (lower t)
              | None => false
              end)
    then parse_dice
    else if isdigit token
            || (startswith "-" token && isdigit (tail_str token)) then
      s <- consume None ;;
      num <- int_ s ;;
      ret (Number num)
    else
      p <- get ;;
      w <- token_pos (position (tokenizer p)) ;;
      parse_error ("Unexpected token '" ++ token ++ "'")%string w
  end.

(** Out of [fuel]: the host would answer a runaway recursion with a
    [RecursionError]. *)
Definition recursion_error {A} : P A :=
  raise (PyException "RecursionError" "maximum recursion depth exceeded").

(** [op in ['*', '/']] and [op in ['+', '-']], with the operator found. *)
Definition mul_op (op : option string) : option binop :=
  match op with
  | Some o => if String.eqb o "*" then Some Mul
              else if String.eqb o "/" then Some Div
              else None
  | None => None
  end.

Definition add_op (op : option string) : option binop :=
  match op with
  | Some o => if String.eqb o "+" then Some Add
              else if String.eqb o "-" then Some Sub
              else None
  | None => None
  end.

(** The [while] loop of [parse_term], over the factor parser [factor]. *)
Fixpoint term_loop (factor : P ast) (n : nat) (left : ast) : P ast :=
  e <- at_end ;;
  if e then ret left else
  op <- peek 0 ;;
  match mul_op op with
  | None => ret left
  | Some o =>
      match n with
      | O => recursion_error
      | S n' =>
          consume None ;;;
          right <- factor ;;
          term_loop factor n' (BinaryOp o left right)
      end
  end.

(** [DiceParser.parse_term] *)
Definition parse_term (factor : P ast) : P ast :=
  left <- factor ;;
  p <- get ;;
  term_loop factor (tokens_left p) left.

(** The [while] loop of [parse_expression]. *)
Fixpoint expression_loop (factor : P ast) (n : nat) (left : ast) : P ast :=
  e <- at_end ;;
  if e then ret left else
  op <- peek 0 ;;
  match add_op op with
  | None => ret left
  | Some o =>
      match n with
      | O => recursion_error
      | S n' =>
          consume None ;;;
          right <- parse_term factor ;;
          expression_loop factor n' (BinaryOp o left right)
      end
  end.

(** [DiceParser.parse_expression], over the factor parser. *)
Definition parse_expression_with (factor : P ast) : P ast :=
  left <- parse_term factor ;;
  p <- get ;;
  expression_loop factor (tokens_left p) left.

(** [token == s] for the token that [peek] returned. *)
Definition token_is (token : option string) (s : string) : bool :=
  match token with Some t => String.eqb t s | None => false end.

(** [DiceParser.parse_factor].  The three mutually recursive methods are
    tied through [fuel]: each nested call happens after a token has been
    consumed, so the number of tokens bounds the nesting.  The interpreter
    bounds it too: every [-] of a run of minus signs and every open
    parenthesis is a nested call, and a nesting of about a thousand
    interpreter frames ends in a [RecursionError], at a depth that depends
    on the caller's own.  That limit is not part of this model, which
    follows the recursion to its end; statements that depend on it are
    made for [modest] expressions. *)
Fixpoint parse_factor (fuel : nat) : P ast :=
  token <- peek 0 ;;
  if token_is token "-" then
    consume None ;;;
    operand <- (match fuel with
                | O => recursion_error
                | S fuel' => parse_factor fuel'
                end) ;;
    ret (UnaryOp Neg operand)
  else if token_is token "(" then
    p <- get ;;
    set_depth (S (recursion_depth p)) ;;;
    if (MAX_RECURSION <? S (recursion_depth p))%nat then
      raise (LimitError ("Exceeded maximum recursion depth of "
                         ++ str (Z.of_nat MAX_RECURSION))%string)
    else
      consume (Some "(") ;;;
      expr <- (match fuel with
               | O => recursion_error
               | S fuel' => parse_expression_with (parse_factor fuel')
               end) ;;
      consume (Some ")") ;;;
      p' <- get ;;
      set_depth (recursion_depth p' - 1) ;;;
      ret expr
  else parse_primary.

Definition parse_expression : P ast :=
  p <- get ;;
  parse_expression_with (parse_factor (List.length (tokens (tokenizer p)))).

(** [DiceParser.parse] *)
Definition parse : P ast :=
  e <- at_end ;;
  if e then parse_error "Empty expression" O
  else
    result <- parse_expression ;;
    e' <- at_end ;;
    if negb e' then
      token <- peek 0 ;;
      p <- get ;;
      w <- token_pos (position (tokenizer p)) ;;
      parse_error ("Unexpected token '"
                   ++ match token with Some t => t | None => "None" end
                   ++ "' after expression")%string w
    else ret result.

(** ** Numbers of the evaluator: Python's [int] and [float] *)

Inductive num :=
| PyInt (z : Z)
| PyFloat (f : spec_float).

Definition prec : Z := 53.
Definition emax : Z := 1024.

(** [float(z)]: rounded to nearest even, [OverflowError] when out of range. *)
Definition float_of_int {S} (z : Z) : M S spec_float :=
  match binary_normalize prec emax z 0 false with
  | S754_infinity _ =>
      raise (PyException "OverflowError" "int too large to convert to float")
  | f => ret f
  end.

Definition to_float {S} (a : num) : M S spec_float :=
  match a with
  | PyInt z => float_of_int z
  | PyFloat f => ret f
  end.

(** [a + b], [a - b], [a * b]: exact on two integers, binary64 otherwise. *)
Definition arith {S} (zop : Z -> Z -> Z)
  (fop : spec_float -> spec_float -> spec_float) (a b : num) : M S num :=
  match a, b with
  | PyInt x, PyInt y => ret (PyInt (zop x y))
  | _, _ => x <- to_float a ;; y <- to_float b ;; ret (PyFloat (fop x y))
  end.

(** An integer as an exact (unrounded) binary number. *)
Definition exact (z : Z) : spec_float :=
  match z with
  | Z0 => S754_zero false
  | Zpos m => S754_finite false m 0
  | Zneg m => S754_finite true m 0
  end.

(** [a / b] for a non-zero [b]: the quotient of two integers is rounded
    once, and is an [OverflowError] when too large. *)
Definition true_divide {S} (a b : num) : M S num :=
  match a, b with
  | PyInt x, PyInt y =>
      match SFdiv prec emax (exact x) (exact y) with
      | S754_infinity _ =>
          raise (PyException "OverflowError"
                   "integer division result too large for a float")
      | f => ret (PyFloat f)
      end
  | _, _ =>
      x <- to_float a ;; y <- to_float b ;;
      ret (PyFloat (SFdiv prec emax x y))
  end.

(** [a == 0] *)
Definition is_zero (a : num) : bool :=
  match a with
  | PyInt z => z =? 0
  | PyFloat f => SFeqb f (S754_zero false)
  end.

(** [-a] *)
Definition negate (a : num) : num :=
  match a with
  | PyInt z => PyInt (- z)
  | PyFloat f => PyFloat (SFopp f)
  end.

(** [int(result) if result == int(result) else result] *)
Definition coerce_final {S} (result : num) : M S num :=
  match result with
  | PyInt z => ret (PyInt z)
  | PyFloat f =>
      match f with
      | S754_nan =>
          raise (PyException "ValueError" "cannot convert float NaN to integer")
      | S754_infinity _ =>
          raise (PyException "OverflowError"
                   "cannot convert float infinity to integer")
      | S754_zero _ => ret (PyInt 0)
      | S754_finite s m e =>
          let magnitude := Z.pos m in
          if 0 <=? e then
            ret (PyInt (cond_Zopp s (Z.shiftl magnitude e)))
          else if magnitude mod (Z.shiftl 1 (- e)) =? 0 then
            ret (PyInt (cond_Zopp s (Z.shiftr magnitude (- e))))
          else ret (PyFloat f)
      end
  end.

(** ** [DiceEvaluator] *)

Record DiceEvaluator := mkEvaluator {
  rng : rng_state;
  traces : list DiceTrace
}.

Definition Ev := M DiceEvaluator.

(** A computation of the random source, run on the evaluator's [rng]. *)
Definition with_rng {A} (m : M rng_state A) : Ev A :=
  fun s => match m (rng s) with
           | Ok (a, r) => Ok (a, mkEvaluator r (traces s))
           | Raise e => Raise e
           end.

Definition append_trace (t : DiceTrace) : Ev unit :=
  fun s => Ok (tt, mkEvaluator (rng s) (traces s ++ [t])).

(** [DiceEvaluator._check_condition].  The placeholder ['max'] is resolved
    before any explosion condition is checked and no other condition
    carries it; against it no comparison holds. *)
Definition _check_condition (v : Z) (condition : Condition) : bool :=
  match cond_value condition with
  | Num threshold =>
      match cond_op condition with
      | OpEq => v =? threshold
      | OpGt => v >? threshold
      | OpGe => v >=? threshold
      | OpLt => v <? threshold
      | OpLe => v <=? threshold
      end
  | Max => false
  end.

Definition string_of_threshold (t : threshold_value) : string :=
  match t with Max => "max" | Num n => str n end.

(** [DiceEvaluator._format_condition] *)
Definition _format_condition (condition : Condition) : string :=
  match cond_op condition, cond_value condition with
  | OpEq, Num n => str n
  | o, v => (string_of_cmp o ++ string_of_threshold v)%string
  end.

(** One fresh die:
    [self.rng.roll_die(3) - 2 if die_type == 'dF' else self.rng.roll_die(sides)]. *)
Definition fresh_value (E : Entropy) (sides : Z) (kind : die_type) : Ev Z :=
  match kind with
  | Fate => v <- with_rng (roll_die E 3) ;; ret (v - 2)
  | _ => with_rng (roll_die E sides)
  end.

(** The [for _ in range(count)] loop of [_eval_dice]. *)
Fixpoint roll_all (E : Entropy) (sides : Z) (kind : die_type) (n : nat)
  : Ev (list DieRoll) :=
  match n with
  | O => ret []
  | S n' =>
      v <- fresh_value E sides kind ;;
      rest <- roll_all E sides kind n' ;;
      ret (new_DieRoll v :: rest)
  end.

(** [for roll in rolls], with a body that may raise. *)
Fixpoint for_each {A B} (body : A -> Ev B) (l : list A) : Ev (list B) :=
  match l with
  | [] => ret []
  | a :: l' => b <- body a ;; bs <- for_each body l' ;; ret (b :: bs)
  end.

(** The [while] loop of [_apply_rerolls] for one die; [remaining] is
    [MAX_REROLLS - reroll_count].  Returns the die and what remains. *)
Fixpoint reroll_loop (E : Entropy) (sides : Z) (kind : die_type)
  (spec : RerollSpec) (remaining : nat) (roll : DieRoll)
  : Ev (DieRoll * nat) :=
  if _check_condition (value roll) (reroll_condition spec) then
    match remaining with
    | O => ret (roll, O)
    | S remaining' =>
        let old_value := value roll in
        v <- fresh_value E sides kind ;;
        let roll' := mkDieRoll v (rerolls roll ++ [old_value])
                               (explodes roll) (success roll) in
        if once spec then ret (roll', remaining')
        else reroll_loop E sides kind spec remaining' roll'
    end
  else ret (roll, remaining).

Definition reroll_one (E : Entropy) (sides : Z) (kind : die_type)
  (spec : RerollSpec) (roll : DieRoll) : Ev DieRoll :=
  '(roll', remaining) <- reroll_loop E sides kind spec MAX_REROLLS roll ;;
  match remaining with
  | O => raise (LimitError ("Exceeded maximum rerolls of "
                            ++ str (Z.of_nat MAX_REROLLS))%string)
  | S _ => ret roll'
  end.

(** [DiceEvaluator._apply_rerolls]; the dice are updated in place in the
    source and returned here. *)
Definition _apply_rerolls (E : Entropy) (rolls : list DieRoll) (sides : Z)
  (kind : die_type) (reroll_spec : RerollSpec) : Ev (list DieRoll) :=
  for_each (reroll_one E sides kind reroll_spec) rolls.

(** The resolution of ['max'] at the head of [_apply_explosions]. *)
Definition resolve_max (sides : Z) (kind : die_type) (c : Condition)
  : Condition :=
  match cond_value c with
  | Max => mkCondition (cond_op c)
             (Num (match kind with Fate => 1 | _ => sides end))
  | Num _ => c
  end.

(** The [while] loop of [_apply_explosions] for one die; [remaining] is
    [MAX_EXPLOSIONS - explosion_count]. *)
Fixpoint explode_loop (E : Entropy) (sides : Z) (kind : die_type)
  (is_penetrating : bool) (condition : Condition) (remaining : nat)
  (roll : DieRoll) (current_value : Z) : Ev (DieRoll * nat) :=
  if _check_condition current_value condition then
    match remaining with
    | O => ret (roll, O)
    | S remaining' =>
        v <- fresh_value E sides kind ;;
        let new_value := if is_penetrating && (v >? 0) then v - 1 else v in
        let roll' := mkDieRoll (value roll) (rerolls roll)
                               (explodes roll ++ [new_value]) (success roll) in
        explode_loop E sides kind is_penetrating condition remaining'
                     roll' new_value
    end
  else ret (roll, remaining).

Definition explode_one (E : Entropy) (sides : Z) (kind : die_type)
  (is_penetrating : bool) (condition : Condition) (roll : DieRoll)
  : Ev DieRoll :=
  '(roll', remaining) <-
     explode_loop E sides kind is_penetrating condition MAX_EXPLOSIONS
                  roll (value roll) ;;
  match remaining with
  | O => raise (LimitError ("Exceeded maximum explosions of "
                            ++ str (Z.of_nat MAX_EXPLOSIONS))%string)
  | S _ => ret roll'
  end.

(** [DiceEvaluator._apply_explosions]; reads [condition] and
    [penetrating] of the specification, and nothing else of it. *)
Definition _apply_explosions (E : Entropy) (rolls : list DieRoll) (sides : Z)
  (kind : die_type) (explode_spec : ExplodeSpec) : Ev (list DieRoll) :=
  let condition := resolve_max sides kind (explode_condition explode_spec) in
  for_each (explode_one E sides kind (penetrating explode_spec) condition) rolls.

(** A stable insertion sort: [x] goes before the first [y] with
    [before x y]. *)
Fixpoint insert_by {A} (before : A -> A -> bool) (x : A) (l : list A) : list A :=
  match l with
  | [] => [x]
  | y :: l' => if before x y then x :: l else y :: insert_by before x l'
  end.

Definition sort_by {A} (before : A -> A -> bool) (l : list A) : list A :=
  fold_right (insert_by before) [] l.

(** [sorted(l, reverse=True)] *)
Definition sorted_desc (l : list Z) : list Z := sort_by Z.geb l.

(** Python's slices [l[:i]] and [l[i:]]: a negative index counts from the
    end, and every index is clipped to the list. *)
Definition slice_index {A} (l : list A) (i : Z) : nat :=
  let n := Z.of_nat (List.length l) in
  Z.to_nat (if i <? 0 then Z.max (i + n) 0 else Z.min i n).

Definition slice_to {A} (i : Z) (l : list A) : list A :=
  firstn (slice_index l i) l.

Definition slice_from {A} (i : Z) (l : list A) : list A :=
  skipn (slice_index l i) l.

(** A die's total: its value plus its explosions. *)
Definition die_total (roll : DieRoll) : Z := value roll + zsum (explodes roll).

(** [DiceEvaluator._apply_keep_drop] *)
Definition _apply_keep_drop (rolls : list DieRoll) (keep_spec : KeepSpec)
  : Ev (list Z) :=
  let count := keep_count keep_spec in
  let all_values := map die_total rolls in
  if count >? Z.of_nat (List.length all_values) then
    raise (SemanticError ("Cannot keep/drop " ++ str count ++ " from "
                          ++ str (Z.of_nat (List.length all_values))
                          ++ " dice")%string)
  else
    let sorted_values := sorted_desc all_values in
    ret (match keep_mode keep_spec with
         | kh => slice_to count sorted_values
         | kl => slice_from (- count) sorted_values
         | dh => slice_from count sorted_values
         | dl => slice_to (- count) sorted_values
         end).

(** The marking loop of [_count_successes]. *)
Fixpoint mark_successes (comparator : Condition) (limit : option nat)
  (i : nat) (rolls : list DieRoll) : list DieRoll :=
  match rolls with
  | [] => []
  | roll :: rolls' =>
      (if match limit with None => true | Some n => (i <? n)%nat end
       then mkDieRoll (value roll) (rerolls roll) (explodes roll)
                      (Some (_check_condition (value roll) comparator))
       else roll)
      :: mark_successes comparator limit (S i) rolls'
  end.

(** [DiceEvaluator._count_successes]: the marked dice and the count. *)
Definition _count_successes (rolls : list DieRoll) (comparator : Condition)
  (kept_values : option (list Z)) : list DieRoll * Z :=
  let values := match kept_values with
                | Some kept => kept
                | None => map value rolls
                end in
  (mark_successes comparator
     (match kept_values with
      | None => None
      | Some _ => Some (List.length values)
      end) O rolls,
   Z.of_nat (List.length
               (filter (fun v => _check_condition v comparator) values))).

(** The term string of the trace, up to the comparator. *)
Definition term_prefix (count sides : Z) (kind : die_type)
  (modifiers : Modifiers) (resolved : option Condition) : string :=
  (str count ++ "d"
   ++ match kind with
      | Standard => str sides
      | Percentile => "%"
      | Fate => "F"
      end
   ++ match reroll modifiers with
      | Some v => "r" ++ (if once v then "o" else EmptyString)
                  ++ _format_condition (reroll_condition v)
      | None => EmptyString
      end
   ++ match explode modifiers, resolved with
      | Some v, Some c =>
          "!" ++ (if compound v then "!" else EmptyString)
          ++ (if penetrating v then "p" else EmptyString)
          ++ match cond_value c with
             | Max => EmptyString
             | Num _ => _format_condition c
             end
      | _, _ => EmptyString
      end
   ++ match keep modifiers with
      | Some v => string_of_keep_type (keep_mode v) ++ str (keep_count v)
      | None => EmptyString
      end)%string.

(** Steps 1 to 3 of [_eval_dice]: roll, reroll, explode. *)
Definition dice_pool (E : Entropy) (count sides : Z) (kind : die_type)
  (modifiers : Modifiers) : Ev (list DieRoll) :=
  rolls <- roll_all E sides kind (Z.to_nat count) ;;
  rolls <- match reroll modifiers with
           | Some spec => _apply_rerolls E rolls sides kind spec
           | None => ret rolls
           end ;;
  match explode modifiers with
  | Some spec => _apply_explosions E rolls sides kind spec
  | None => ret rolls
  end.

(** [rolls.sort(key=lambda r: r.value)] and its reverse. *)
Definition display_sort (order : option sort_type) (rolls : list DieRoll)
  : list DieRoll :=
  match order with
  | None => rolls
  | Some sa => sort_by (fun a b => value a <=? value b) rolls
  | Some sd => sort_by (fun a b => value a >=? value b) rolls
  end.

(** The rest of [_eval_dice]: keep/drop, display sort, and the success
    count or the sum, with the trace. *)
Definition score_pool (count sides : Z) (kind : die_type)
  (modifiers : Modifiers) (rolls : list DieRoll) : Ev Z :=
  kept_values <- match keep modifiers with
                 | Some spec => kept <- _apply_keep_drop rolls spec ;;
                                ret (Some kept)
                 | None => ret None
                 end ;;
  let rolls := display_sort (sort modifiers) rolls in
  let term_str :=
    term_prefix count sides kind modifiers
      (option_map (fun v => resolve_max sides kind (explode_condition v))
                  (explode modifiers)) in
  match comparator modifiers with
  | Some comp =>
      let shown := (string_of_cmp (cond_op comp)
                    ++ string_of_threshold (cond_value comp))%string in
      let '(rolls, n) := _count_successes rolls comp kept_values in
      append_trace (mkDiceTrace (term_str ++ shown) rolls None None
                                (Some shown) (Some n)) ;;;
      ret n
  | None =>
      match kept_values with
      | Some kept =>
          let result := zsum kept in
          append_trace (mkDiceTrace term_str rolls (Some kept) (Some result)
                                    None None) ;;;
          ret result
      | None =>
          let values :=
            map value rolls
            ++ match kind with
               | Fate => flat_map explodes rolls
               | _ => []
               end in
          let result := zsum values in
          append_trace (mkDiceTrace term_str rolls None (Some result)
                                    None None) ;;;
          ret result
      end
  end.

(** [DiceEvaluator._eval_dice] *)
Definition _eval_dice (E : Entropy) (count sides : Z) (kind : die_type)
  (modifiers : Modifiers) : Ev Z :=
  rolls <- dice_pool E count sides kind modifiers ;;
  score_pool count sides kind modifiers rolls.

(** [DiceEvaluator._eval_node].  The recursion follows the tree; the
    interpreter's recursion limit, which cuts the evaluation of a tree
    about a thousand levels high with a [RecursionError], is not part of
    this model, and statements that depend on it are made for [shallow]
    trees. *)
Fixpoint _eval_node (E : Entropy) (node : ast) : Ev num :=
  match node with
  | Number n => ret (PyInt n)
  | BinaryOp op lhs rhs =>
      left_val <- _eval_node E lhs ;;
      right_val <- _eval_node E rhs ;;
      match op with
      | Add => arith Z.add (SFadd prec emax) left_val right_val
      | Sub => arith Z.sub (SFsub prec emax) left_val right_val
      | Mul => arith Z.mul (SFmul prec emax) left_val right_val
      | Div =>
          if is_zero right_val then raise (DiceError "Division by zero")
          else true_divide left_val right_val
      end
  | UnaryOp Neg operand =>
      operand_val <- _eval_node E operand ;;
      ret (negate operand_val)
  | Dice count sides kind modifiers =>
      n <- _eval_dice E count sides kind modifiers ;;
      ret (PyInt n)
  end.

(** [DiceEvaluator.evaluate], from a fresh evaluator: the entropy is read
    from the cursor [r] onwards. *)
Definition evaluate (E : Entropy) (r : rng_state) (node : ast)
  : outcome (num * list DiceTrace) :=
  match _eval_node E node (mkEvaluator r []) with
  | Ok (result, s) => Ok (result, traces s)
  | Raise e => Raise e
  end.

(** ** The entry point *)

Inductive RollResult :=
| Success (final : num) (type : ResultType) (trace : list DiceTrace)
| Failure (type : string) (message : string) (position : option nat)
          (input : string).

Definition has_successes (t : DiceTrace) : bool :=
  match successes t with Some _ => true | None => false end.

(** The three [except] clauses of [roll_dice]. *)
Definition handle (expression : string) (e : exn) : RollResult :=
  match e with
  | ParseError message position input_str =>
      Failure "ParseError" message (Some position) input_str
  | SemanticError message => Failure "SemanticError" message None expression
  | LimitError message => Failure "LimitError" message None expression
  | DiceError message => Failure "DiceError" message None expression
  | PyException _ message =>
      Failure "RuntimeError" ("Unexpected error: " ++ message)%string
              None expression
  end.

(** [roll_dice]; the constant [rng], [limits] and [version] entries of the
    success dictionary are left out. *)
Definition roll_dice (E : Entropy) (r : rng_state) (expression : string)
  : RollResult :=
  match parse (new_DiceParser expression) with
  | Raise e => handle expression e
  | Ok (tree, _) =>
      match evaluate E r tree with
      | Raise e => handle expression e
      | Ok (result, traces) =>
          let result_type :=
            if existsb has_successes traces then SUCCESS_COUNT else SUM in
          match coerce_final result tt with
          | Raise e => handle expression e
          | Ok (final, _) => Success final result_type traces
          end
      end
  end.

(** ** Entropy for worked examples *)

(** The bytes of [l], then zeros; every fallback draw is [0]. *)
Definition tape (l : list byte) : Entropy :=
  mkEntropy (fun i => nth i l x00) (fun _ _ => 0).

Definition fresh : rng_state := mkRng O O.

(** ** Vocabulary of the statements *)

(** The value of the first block of bytes that [roll_die] draws at [r]. *)
Definition first_draw (E : Entropy) (sides : Z) (r : rng_state) : Z :=
  from_bytes (map (os_byte E)
                  (seq (bytes_drawn r) (Z.to_nat (bytes_needed sides)))).

(** The draws below the bound, and those of them that give face [k]. *)
Definition accepted_draws (sides : Z) : list Z :=
  map Z.of_nat (seq 0 (Z.to_nat (bound sides))).

Definition preimages (sides k : Z) : list Z :=
  filter (fun v => v mod sides + 1 =? k) (accepted_draws sides).

(** The domain of a die. *)
Definition in_domain (sides : Z) (kind : die_type) (v : Z) : Prop :=
  match kind with
  | Fate => -1 <= v <= 1
  | _ => 1 <= v <= sides
  end.

(** How many members of [l] meet [condition]. *)
Definition count_meeting (condition : Condition) (l : list Z) : Z :=
  Z.of_nat (List.length (filter (fun v => _check_condition v condition) l)).

(** A die as [_eval_dice] leaves it: its value is in the domain; its
    reroll history holds the values that met the reroll condition and were
    replaced, at most one of them under reroll-once; and under a standard
    reroll the value no longer meets the condition. *)
Definition settled (sides : Z) (kind : die_type) (modifiers : Modifiers)
  (d : DieRoll) : Prop :=
  in_domain sides kind (value d)
  /\ match reroll modifiers with
     | None => rerolls d = []
     | Some spec =>
         Forall (fun h => in_domain sides kind h
                          /\ _check_condition h (reroll_condition spec) = true)
                (rerolls d)
         /\ (once spec = true -> (List.length (rerolls d) <= 1)%nat)
         /\ (once spec = false ->
             _check_condition (value d) (reroll_condition spec) = false)
     end.

(** The exception of the reroll ceiling. *)
Definition reroll_ceiling : exn :=
  LimitError "Exceeded maximum rerolls of 10000".

(** A computation that leaves the evaluator's traces alone. *)
Definition keeps_traces {A} (m : Ev A) : Prop :=
  forall s a s', m s = Ok (a, s') -> traces s' = traces s.

(** The evaluation of [node] from the state [s] reaches a division whose
    right operand is zero: both operands of some division are evaluated,
    in the order of [_eval_node], and the right one is zero. *)
Inductive divides_by_zero (E : Entropy) : ast -> DiceEvaluator -> Prop :=
| dz_here : forall lhs rhs s left_val s1 right_val s2,
    _eval_node E lhs s = Ok (left_val, s1) ->
    _eval_node E rhs s1 = Ok (right_val, s2) ->
    is_zero right_val = true ->
    divides_by_zero E (BinaryOp Div lhs rhs) s
| dz_left : forall op lhs rhs s,
    divides_by_zero E lhs s ->
    divides_by_zero E (BinaryOp op lhs rhs) s
| dz_right : forall op lhs rhs s left_val s1,
    _eval_node E lhs s = Ok (left_val, s1) ->
    divides_by_zero E rhs s1 ->
    divides_by_zero E (BinaryOp op lhs rhs) s
| dz_operand : forall op operand s,
    divides_by_zero E operand s ->
    divides_by_zero E (UnaryOp op operand) s.

(** The four error types of the specification's taxonomy. *)
Definition taxonomy : list string :=
  ["ParseError"; "SemanticError"; "LimitError"; "RuntimeError"].

(** The exception that stands for running out of [fuel] in the parser;
    [parse_is_located_and_terminates] shows that [parse] never raises it. *)
Definition exhausted : exn :=
  PyException "RecursionError" "maximum recursion depth exceeded".

(** The parser state [p] still works on the text and tokens of [T]. *)
Definition same_input (T : Tokenizer) (p : DiceParser) : Prop :=
  text (tokenizer p) = text T /\ tokens (tokenizer p) = tokens T.

(** A [ParseError] that carries the text of [T] and a position inside it
    (its length included, for errors at the end of the input). *)
Definition located (T : Tokenizer) (e : exn) : Prop :=
  match e with
  | ParseError _ n i => i = text T /\ (n <= slen (text T))%nat
  | _ => True
  end.

(** The outcome of a parser step taken from [p]: on success the input is
    the same and the cursor has not moved back; an error is located and
    is not [exhausted]. *)
Definition good {A} (T : Tokenizer) (p : DiceParser)
  (r : outcome (A * DiceParser)) : Prop :=
  match r with
  | Ok (_, p') =>
      same_input T p' /\ (position (tokenizer p) <= position (tokenizer p'))%nat
  | Raise e => located T e /\ e <> exhausted
  end.

(** The characters that occur in some lexeme: digits, white space, and the
    letters and signs of the token pattern. *)
Definition lexeme_char (c : ascii) : bool :=
  is_digit c || is_space c
  || existsb (Ascii.eqb (lower_char c)) (chars "d%f0khlro!p>=<sa+-*/()#").

(** A factor parser that does well on every state with at most [f]
    tokens left. *)
Definition fine (T : Tokenizer) (f : nat) (factor : P ast) : Prop :=
  forall p, same_input T p -> (tokens_left p <= f)%nat -> good T p (factor p).

(** A computation that raises only exceptions that meet [Q]. *)
Definition raises_only {S A} (Q : exn -> Prop) (m : M S A) : Prop :=
  forall s e, m s = Raise e -> Q e.

(** Any exception but a [ParseError]. *)
Definition not_parse_error (e : exn) : Prop :=
  match e with ParseError _ _ _ => False | _ => True end.

(** The exception of the explosion ceiling. *)
Definition explosion_ceiling : exn :=
  LimitError "Exceeded maximum explosions of 100".

(** The dice that [roll_die] accepts: FATE dice, which are rolled with
    three sides, and the others with 1 to [MAX_SIDES] sides. *)
Definition rollable (sides : Z) (kind : die_type) : Prop :=
  kind = Fate \/ 1 <= sides <= MAX_SIDES.

(** The exception of [_apply_keep_drop] on a pool of [count] dice. *)
Definition keep_too_many (count : Z) (spec : KeepSpec) : exn :=
  SemanticError ("Cannot keep/drop " ++ str (keep_count spec) ++ " from "
                 ++ str (Z.of_nat (Z.to_nat count)) ++ " dice")%string.

(** The three ways a dice term fails: the reroll ceiling, under a standard
    reroll; the explosion ceiling, under an explosion; and a keep/drop
    count above the number of dice. *)
Definition dice_failure (count : Z) (modifiers : Modifiers) (e : exn) : Prop :=
  (e = reroll_ceiling
   /\ exists spec, reroll modifiers = Some spec /\ once spec = false)
  \/ (e = explosion_ceiling /\ explode modifiers <> None)
  \/ (exists spec, keep modifiers = Some spec
                   /\ Z.of_nat (Z.to_nat count) < keep_count spec
                   /\ e = keep_too_many count spec).

(** A condition on a number that is not negative. *)
Definition natural_condition (c : Condition) : Prop :=
  exists n, cond_value c = Num n /\ 0 <= n.

(** The modifiers that the parser builds: conditions on natural numbers,
    ['max'] for an explosion only, and a keep/drop count that is not
    negative. *)
Definition well_formed_modifiers (m : Modifiers) : Prop :=
  match reroll m with
  | Some v => natural_condition (reroll_condition v)
  | None => True
  end
  /\ match explode m with
     | Some v => cond_value (explode_condition v) = Max
                 \/ natural_condition (explode_condition v)
     | None => True
     end
  /\ match keep m with Some v => 0 <= keep_count v | None => True end
  /\ match comparator m with Some c => natural_condition c | None => True end.

(** The trees that the parser builds; [division] holds when the tree may
    contain a division. *)
Fixpoint well_formed (division : Prop) (node : ast) : Prop :=
  match node with
  | Number n => 0 <= n
  | BinaryOp op lhs rhs =>
      (op = Div -> division)
      /\ well_formed division lhs /\ well_formed division rhs
  | UnaryOp _ operand => well_formed division operand
  | Dice count sides kind modifiers =>
      1 <= count <= MAX_DICE /\ 1 <= sides <= MAX_SIDES
      /\ match kind with
         | Standard => True
         | Percentile => sides = 100
         | Fate => sides = 3
         end
      /\ well_formed_modifiers modifiers
  end.

(** The ways the evaluation of a tree fails: a dice term fails, a division
    by zero, or a number too large for a float. *)
Definition evaluation_failure (e : exn) : Prop :=
  (exists count modifiers, dice_failure count modifiers e)
  \/ e = DiceError "Division by zero"
  \/ exists message, e = PyException "OverflowError" message.

(** The shape of a token: a run of decimal digits, or a text that does not
    start with a digit and is exactly ["-"] when it starts with a minus. *)
Definition lexeme (s : string) : bool :=
  match chars s with
  | [] => false
  | c :: rest =>
      forallb is_digit (c :: rest)
      || (negb (isdigit_char c)
          && (negb (Ascii.eqb c "-")
              || match rest with [] => true | _ => false end))
  end.

(** The exceptions of the parser. *)
Definition expected_error (e : exn) : Prop :=
  match e with
  | ParseError _ _ _ | SemanticError _ | LimitError _ => True
  | _ => False
  end.

(** The outcome of a parser step: on success the input is the same and
    the result meets [Q]; an error is one of the parser's, or [exhausted]. *)
Definition tidy {A} (T : Tokenizer) (Q : A -> Prop)
  (r : outcome (A * DiceParser)) : Prop :=
  match r with
  | Ok (a, p') => same_input T p' /\ Q a
  | Raise e => expected_error e \/ e = exhausted
  end.

(** Some token of [T] is the division sign. *)
Definition divides (T : Tokenizer) : Prop :=
  In "/"%string (map tok_text (tokens T)).

(** A factor parser that returns well-formed trees. *)
Definition sound (T : Tokenizer) (factor : P ast) : Prop :=
  forall p, same_input T p -> tidy T (well_formed (divides T)) (factor p).

(** The conditions that [parse_condition] returns. *)
Definition condition_or (default_value : threshold_value) (c : Condition)
  : Prop :=
  cond_value c = default_value \/ natural_condition c.

(** The number of dice terms of a tree. *)
Fixpoint dice_terms (node : ast) : nat :=
  match node with
  | Number _ => O
  | BinaryOp _ lhs rhs => (dice_terms lhs + dice_terms rhs)%nat
  | UnaryOp _ operand => dice_terms operand
  | Dice _ _ _ _ => 1%nat
  end.

(** A tree without division. *)
Fixpoint division_free (node : ast) : bool :=
  match node with
  | Number _ => true
  | BinaryOp op lhs rhs =>
      match op with Div => false | _ => true end
      && division_free lhs && division_free rhs
  | UnaryOp _ operand => division_free operand
  | Dice _ _ _ _ => true
  end.

(** The number that a trace records for its term: the success count, or
    else the sum. *)
Definition recorded (t : DiceTrace) : Z :=
  match successes t, sum t with
  | Some n, _ => n
  | None, Some n => n
  | None, None => 0
  end.

(** The integer arithmetic of a tree without division, with the numbers
    of its dice terms read from [numbers] from left to right; returns the
    value and the numbers not used. *)
Fixpoint replay (node : ast) (numbers : list Z) : Z * list Z :=
  match node with
  | Number n => (n, numbers)
  | BinaryOp op lhs rhs =>
      let '(a, rest) := replay lhs numbers in
      let '(b, rest') := replay rhs rest in
      (match op with
       | Add => a + b
       | Sub => a - b
       | Mul => a * b
       | Div => 0
       end, rest')
  | UnaryOp Neg operand =>
      let '(a, rest) := replay operand numbers in (- a, rest)
  | Dice _ _ _ _ =>
      match numbers with
      | n :: rest => (n, rest)
      | [] => (0, [])
      end
  end.

(** The tokens [toks] are slices of [text], each of them not empty, that
    follow one another from the offset [from] on without overlap. *)
Fixpoint slices_in_order (text : list ascii) (from : nat) (toks : list Token)
  : Prop :=
  match toks with
  | [] => True
  | t :: rest =>
      (from <= pos t)%nat
      /\ (1 <= slen (tok_text t))%nat
      /\ firstn (slen (tok_text t)) (skipn (pos t) text) = chars (tok_text t)
      /\ (pos t + slen (tok_text t) <= List.length text)%nat
      /\ slices_in_order text (pos t + slen (tok_text t)) rest
  end.

(** No white space at the head. *)
Definition clean_head (l : list ascii) : Prop :=
  match l with
  | [] => True
  | c :: _ => is_space c = false
  end.

(** Every member of the list is related by [le] to those behind it. *)
Fixpoint ordered {A} (le : A -> A -> Prop) (l : list A) : Prop :=
  match l with
  | [] => True
  | x :: rest => Forall (le x) rest /\ ordered le rest
  end.

(** The order that a sort modifier asks for. *)
Definition in_display_order (order : option sort_type) (rolls : list DieRoll)
  : Prop :=
  match order with
  | None => True
  | Some sa => ordered (fun a b => value a <= value b) rolls
  | Some sd => ordered (fun a b => value a >= value b) rolls
  end.

(** Every face of the die meets the condition. *)
Definition unavoidable (sides : Z) (kind : die_type) (c : Condition) : Prop :=
  forall v, in_domain sides kind v -> _check_condition v c = true.

(** The cursor after [j] blocks of bytes have been drawn at [r] for a die
    of [sides] sides, and the value of the block that [roll_die] draws
    there: [nth_draw E sides r 0] is the first block, [nth_draw E sides r 1]
    the one drawn after a first rejection, and so on. *)
Definition after_draws (sides : Z) (r : rng_state) (j : nat) : rng_state :=
  mkRng (bytes_drawn r + j * Z.to_nat (bytes_needed sides)) (below_calls r).

Definition nth_draw (E : Entropy) (sides : Z) (r : rng_state) (j : nat) : Z :=
  first_draw E sides (after_draws sides r j).

(** One replacement of a die's value, as the body of the [while] loop of
    [_apply_rerolls] does it: the new value is [v] and the old one goes to
    the end of the reroll history. *)
Definition replaced_by (v : Z) (d : DieRoll) : DieRoll :=
  mkDieRoll v (rerolls d ++ [value d]) (explodes d) (success d).

(** [replaced E sides kind c n d s d' s']: from the die [d] in the state
    [s], [n] replacements in a row lead to the die [d'] in the state [s'];
    each of them is made on a value that meets the condition [c], with a
    fresh die drawn from the generator. *)
Inductive replaced (E : Entropy) (sides : Z) (kind : die_type) (c : Condition)
  : nat -> DieRoll -> DiceEvaluator -> DieRoll -> DiceEvaluator -> Prop :=
| replaced_none : forall d s, replaced E sides kind c O d s d s
| replaced_again : forall n d s v s1 d' s',
    _check_condition (value d) c = true ->
    fresh_value E sides kind s = Ok (v, s1) ->
    replaced E sides kind c n (replaced_by v d) s1 d' s' ->
    replaced E sides kind c (S n) d s d' s'.

(** The inputs that stay clear of the interpreter's limits.  The parser
    and the evaluator nest one interpreter frame per level of the tree, and
    three per open parenthesis, so that a tree of height [h] and an
    expression of [n] characters need about [h] and [n + 3 * MAX_RECURSION]
    frames of the thousand that the interpreter allows by default; and no
    token of such an expression has more than [MAX_STR_DIGITS] digits. *)
Definition MODEST : nat := 256.

Fixpoint height (node : ast) : nat :=
  match node with
  | Number _ => 1
  | BinaryOp _ lhs rhs => S (Nat.max (height lhs) (height rhs))
  | UnaryOp _ operand => S (height operand)
  | Dice _ _ _ _ => 1
  end.

Definition shallow (tree : ast) : Prop := (height tree <= MODEST)%nat.

Definition modest (expression : string) : Prop :=
  (slen expression <= MODEST)%nat.

(** The token lists [l1] and [l2] agree on their first [k] tokens. *)
Definition agree (k : nat) (l1 l2 : list Token) : Prop :=
  forall j, (j < k)%nat -> nth_error l1 j = nth_error l2 j.

(** The parser state [p] with the token list [toks] in place of its own:
    the same text, cursor and nesting depth. *)
Definition on_tokens (toks : list Token) (p : DiceParser) : DiceParser :=
  mkParser (mkTokenizer (text (tokenizer p)) toks (position (tokenizer p)))
           (recursion_depth p).

(** The offset that an error at the token of index [i] reports:
    [tokens[i]['pos']], or [len(text)] when the tokens have run out. *)
Definition offset_of (T : Tokenizer) (i : nat) : nat :=
  match nth_error (tokens T) i with
  | Some t => pos t
  | None => slen (text T)
  end.

(** The outcome [r] of a parser step on the tokens of [T] is decided by
    the tokens up to some index that is at least [b], and [r'] gives the
    outcome of the same step on any other token list.  A success that
    leaves the cursor at [c] is the same on every token list that agrees
    with that of [T] up to the index [c]; a [ParseError] reports the
    offset of a token of index [i] (or the end of the text), and is the
    same on every token list that agrees with that of [T] up to the
    index [i]. *)
Definition echoes {A} (T : Tokenizer) (b : nat)
  (r : outcome (A * DiceParser))
  (r' : list Token -> outcome (A * DiceParser)) : Prop :=
  match r with
  | Ok (a, q) =>
      same_input T q /\ (b <= position (tokenizer q))%nat
      /\ forall toks, agree (S (position (tokenizer q))) (tokens T) toks ->
           r' toks = Ok (a, on_tokens toks q)
  | Raise (ParseError msg n txt) =>
      exists i, (b <= i)%nat /\ n = offset_of T i
        /\ forall toks, agree (S i) (tokens T) toks ->
             r' toks = Raise (ParseError msg n txt)
  | Raise _ => True
  end.

(** The parser at the start of the text of [T], on the token list [toks]. *)
Definition parser_on (T : Tokenizer) (toks : list Token) : DiceParser :=
  mkParser (mkTokenizer (text T) toks O) O.

(** The token of index [i] is the one that settles the error [e] of the
    parse of [T]: the parser raises [e] on every token list that agrees
    with that of [T] up to this token, whatever follows it, and it does
    not on some token list that has the same tokens before this one.
    When [i] is the number of tokens the error is raised for want of a
    token. *)
Definition offending (T : Tokenizer) (i : nat) (e : exn) : Prop :=
  (forall toks, agree (S i) (tokens T) toks ->
                parse (parser_on T toks) = Raise e)
  /\ (exists toks, agree i (tokens T) toks
                   /\ parse (parser_on T toks) <> Raise e).

(** A token that no step of the parser accepts. *)
Definition junk (where_ : nat) : Token := mkToken "@" where_.

(** The outcome [r] of a parser step on the tokens of [T], which hold a
    [junk] token at the index [L]: the cursor has not passed that token,
    and a [ParseError] reports the offset of a token up to it. *)
Definition stopped {A} (T : Tokenizer) (L : nat)
  (r : outcome (A * DiceParser)) : Prop :=
  match r with
  | Ok (_, q) => same_input T q /\ (position (tokenizer q) <= L)%nat
  | Raise (ParseError _ n _) => exists i, (i <= L)%nat /\ n = offset_of T i
  | Raise _ => True
  end.

(** ** Lemmas on the monad *)

Lemma bind_ok {S A B} (m : M S A) (k : A -> M S B) s b s' :
  bind m k s = Ok (b, s') ->
  exists a s1, m s = Ok (a, s1) /\ k a s1 = Ok (b, s').
Proof.
  unfold bind. destruct (m s) as [[a s1]|e]; [eauto | discriminate].
Qed.

Lemma bind_step {S A B} (m : M S A) (k : A -> M S B) s a s1 :
  m s = Ok (a, s1) -> bind m k s = k a s1.
Proof. unfold bind. intros ->. reflexivity. Qed.

Lemma bind_assoc {S A B C} (m : M S A) (f : A -> M S B) (g : B -> M S C) s :
  bind (bind m f) g s = bind m (fun a => bind (f a) g) s.
Proof. unfold bind. destruct (m s) as [[a s1]|e]; reflexivity. Qed.

Lemma bind_raise {S A B} (m : M S A) (k : A -> M S B) s e :
  m s = Raise e -> bind m k s = Raise e.
Proof. unfold bind. intros ->. reflexivity. Qed.

(** ** The rejection sampler *)

Lemma bit_length_spec n :
  0 < n -> 2 ^ (bit_length n - 1) <= n < 2 ^ bit_length n.
Proof.
  intros Hn. unfold bit_length.
  destruct (Z.eqb_spec n 0) as [->|_]; [lia|].
  rewrite Z.abs_eq by lia.
  replace (Z.log2 n + 1 - 1) with (Z.log2 n) by lia.
  replace (Z.log2 n + 1) with (Z.succ (Z.log2 n)) by lia.
  apply Z.log2_spec; assumption.
Qed.

Lemma bit_length_pos n : 0 < n -> 0 < bit_length n.
Proof.
  intros Hn. unfold bit_length.
  destruct (Z.eqb_spec n 0); [lia|].
  pose proof (Z.log2_nonneg (Z.abs n)). lia.
Qed.

Lemma bytes_needed_spec sides :
  0 < sides ->
  8 * (bytes_needed sides - 1) < bit_length sides <= 8 * bytes_needed sides.
Proof.
  intros Hs. unfold bytes_needed.
  pose proof (Z.div_mod (bit_length sides + 7) 8 ltac:(lia)).
  pose proof (Z.mod_pos_bound (bit_length sides + 7) 8 ltac:(lia)).
  lia.
Qed.

Lemma bytes_needed_pos sides : 0 < sides -> 0 < bytes_needed sides.
Proof.
  intros Hs. pose proof (bytes_needed_spec sides Hs).
  pose proof (bit_length_pos sides Hs). lia.
Qed.

Lemma max_value_pow sides :
  0 < sides -> max_value sides = 256 ^ bytes_needed sides.
Proof.
  intros Hs. unfold max_value.
  pose proof (bytes_needed_pos sides Hs).
  rewrite Z.shiftl_1_l.
  replace (bytes_needed sides * 8) with (8 * bytes_needed sides) by lia.
  rewrite Z.pow_mul_r by lia. reflexivity.
Qed.

Lemma sides_below_max_value sides :
  0 < sides -> sides < max_value sides.
Proof.
  intros Hs. unfold max_value. rewrite Z.shiftl_1_l.
  pose proof (bit_length_spec sides Hs) as [_ Hlt].
  pose proof (bytes_needed_spec sides Hs) as [_ Hle].
  pose proof (bit_length_pos sides Hs).
  assert (2 ^ bit_length sides <= 2 ^ (bytes_needed sides * 8))
    by (apply Z.pow_le_mono_r; lia).
  lia.
Qed.

Lemma bound_range sides :
  0 < sides -> sides <= bound sides <= max_value sides.
Proof.
  intros Hs. unfold bound.
  pose proof (sides_below_max_value sides Hs) as Hlt.
  assert (1 <= max_value sides / sides)
    by (apply Z.div_le_lower_bound; lia).
  split; [nia|].
  rewrite Z.mul_comm. apply Z.mul_div_le. assumption.
Qed.

Lemma from_bytes_acc bs acc :
  fold_left (fun a b => a * 256 + Z.of_N (Byte.to_N b)) bs acc
  = acc * 256 ^ Z.of_nat (List.length bs) + from_bytes bs.
Proof.
  unfold from_bytes. revert acc.
  induction bs as [|b bs IH]; intros acc.
  - simpl. lia.
  - cbn [fold_left List.length]. rewrite IH. rewrite (IH (0 * 256 + _)).
    rewrite Nat2Z.inj_succ, Z.pow_succ_r by lia. ring.
Qed.

Lemma byte_range b : 0 <= Z.of_N (Byte.to_N b) < 256.
Proof. destruct b; vm_compute; split; congruence. Qed.

Lemma from_bytes_range bs :
  0 <= from_bytes bs < 256 ^ Z.of_nat (List.length bs).
Proof.
  induction bs as [|b bs IH].
  - vm_compute. split; congruence.
  - unfold from_bytes. cbn [fold_left List.length].
    rewrite from_bytes_acc.
    rewrite Nat2Z.inj_succ, Z.pow_succ_r by lia.
    pose proof (byte_range b).
    assert (0 < 256 ^ Z.of_nat (List.length bs)) by (apply Z.pow_pos_nonneg; lia).
    nia.
Qed.

Lemma first_draw_range E sides r :
  0 < sides -> 0 <= first_draw E sides r < max_value sides.
Proof.
  intros Hs. unfold first_draw.
  pose proof (from_bytes_range
                (map (os_byte E)
                     (seq (bytes_drawn r) (Z.to_nat (bytes_needed sides))))) as H.
  rewrite length_map, length_seq in H.
  pose proof (bytes_needed_pos sides Hs).
  rewrite Z2Nat.id in H by lia.
  rewrite max_value_pow by assumption. exact H.
Qed.

Lemma accepted_face_range sides v :
  0 < sides -> 1 <= v mod sides + 1 <= sides.
Proof.
  intros Hs. pose proof (Z.mod_pos_bound v sides Hs). lia.
Qed.

(** One round of the loop. *)
Lemma rejection_loop_step E sides n r :
  rejection_loop E sides (S n) r
  = if first_draw E sides r <? bound sides
    then Ok (first_draw E sides r mod sides + 1,
             mkRng (bytes_drawn r + Z.to_nat (bytes_needed sides))
                   (below_calls r))
    else rejection_loop E sides n
           (mkRng (bytes_drawn r + Z.to_nat (bytes_needed sides))
                  (below_calls r)).
Proof.
  cbn [rejection_loop]. unfold bind, token_bytes, first_draw.
  destruct (_ <? bound sides); reflexivity.
Qed.

Lemma after_draws_S sides r j :
  after_draws sides
    (mkRng (bytes_drawn r + Z.to_nat (bytes_needed sides)) (below_calls r)) j
  = after_draws sides r (S j).
Proof. unfold after_draws. cbn [bytes_drawn below_calls]. f_equal. lia. Qed.

Lemma nth_draw_0 E sides r : nth_draw E sides r 0 = first_draw E sides r.
Proof.
  unfold nth_draw, after_draws, first_draw. cbn [bytes_drawn].
  rewrite Nat.add_0_r. reflexivity.
Qed.

(** The loop returns the first block below the bound, having drawn the
    blocks up to it and no more. *)
Lemma rejection_loop_accepts E sides : forall k n r,
  (k < n)%nat ->
  (forall j, (j < k)%nat -> bound sides <= nth_draw E sides r j) ->
  nth_draw E sides r k < bound sides ->
  rejection_loop E sides n r
  = Ok (nth_draw E sides r k mod sides + 1, after_draws sides r (S k)).
Proof.
  induction k as [|k IH]; intros n r Hn Hrej Hacc;
    (destruct n as [|n]; [lia|]); rewrite rejection_loop_step.
  - rewrite nth_draw_0 in Hacc.
    destruct (Z.ltb_spec (first_draw E sides r) (bound sides)); [|lia].
    rewrite nth_draw_0. unfold after_draws. do 3 f_equal. lia.
  - pose proof (Hrej O ltac:(lia)) as H0. rewrite nth_draw_0 in H0.
    destruct (Z.ltb_spec (first_draw E sides r) (bound sides)); [lia|].
    rewrite (IH n); [| lia | |].
    + unfold nth_draw. rewrite !after_draws_S. reflexivity.
    + intros j Hj. unfold nth_draw. rewrite after_draws_S.
      apply (Hrej (S j)). lia.
    + unfold nth_draw. rewrite after_draws_S. exact Hacc.
Qed.

(** When every block is rejected the loop asks [secrets.randbelow]. *)
Lemma rejection_loop_falls_back E sides : forall n r,
  (forall j, (j < n)%nat -> bound sides <= nth_draw E sides r j) ->
  rejection_loop E sides n r
  = Ok (below E (below_calls r) sides + 1,
        mkRng (bytes_drawn r + n * Z.to_nat (bytes_needed sides))
              (S (below_calls r))).
Proof.
  induction n as [|n IH]; intros r Hrej.
  - cbn [rejection_loop]. unfold bind, randbelow, ret.
    do 3 f_equal. cbn. lia.
  - rewrite rejection_loop_step.
    pose proof (Hrej O ltac:(lia)) as H0. rewrite nth_draw_0 in H0.
    destruct (Z.ltb_spec (first_draw E sides r) (bound sides)); [lia|].
    rewrite IH.
    + cbn [bytes_drawn below_calls]. do 3 f_equal. lia.
    + intros j Hj. unfold nth_draw. rewrite after_draws_S.
      apply (Hrej (S j)). lia.
Qed.

(** The loop always returns, and what it returns is a face of the die. *)
Lemma rejection_loop_total E sides n r :
  0 < sides -> randbelow_in_range E ->
  exists v r', rejection_loop E sides n r = Ok (v, r') /\ 1 <= v <= sides.
Proof.
  intros Hs HE. revert r. induction n as [|n IH]; intros r.
  - cbn [rejection_loop]. unfold bind, randbelow, ret.
    eexists _, _. split; [reflexivity|].
    pose proof (HE (below_calls r) sides Hs). lia.
  - rewrite rejection_loop_step.
    destruct (first_draw E sides r <? bound sides).
    + eexists _, _. split; [reflexivity|].
      apply accepted_face_range; assumption.
    + apply IH.
Qed.

Lemma roll_die_total E sides r :
  1 <= sides <= MAX_SIDES -> randbelow_in_range E ->
  exists v r', roll_die E sides r = Ok (v, r') /\ 1 <= v <= sides.
Proof.
  intros [Hlo Hhi] HE. unfold roll_die.
  destruct (Z.ltb_spec sides 1); [lia|].
  destruct (Z.gtb_spec sides MAX_SIDES); [lia|].
  destruct (Z.eqb_spec sides 1) as [->|Hne].
  - exists 1, r. split; [reflexivity | lia].
  - apply rejection_loop_total; [lia | assumption].
Qed.

Lemma roll_die_range E sides r v r' :
  randbelow_in_range E ->
  roll_die E sides r = Ok (v, r') -> 1 <= v <= sides.
Proof.
  intros HE H. unfold roll_die in H.
  destruct (Z.ltb_spec sides 1); [discriminate|].
  destruct (Z.gtb_spec sides MAX_SIDES); [discriminate|].
  destruct (roll_die_total E sides r ltac:(lia) HE) as (v0 & r0 & Hr & Hv).
  unfold roll_die in Hr.
  destruct (Z.ltb_spec sides 1); [lia|].
  destruct (Z.gtb_spec sides MAX_SIDES); [lia|].
  rewrite H in Hr. injection Hr as <- <-. assumption.
Qed.

(** Counting the accepted draws of one face. *)

Lemma filter_length_app {A} (f : A -> bool) l1 l2 :
  List.length (filter f (l1 ++ l2))
  = (List.length (filter f l1) + List.length (filter f l2))%nat.
Proof. rewrite filter_app, length_app. reflexivity. Qed.

(** In a run of at most [sides] consecutive numbers that starts at offset
    [j] of a block, the residue [t] occurs once if it lies in the run. *)
Lemma residue_in_run (s q : nat) (t : Z) : forall (n j : nat),
  (0 < s)%nat -> (j + n <= s)%nat -> 0 <= t < Z.of_nat s ->
  List.length (filter (fun v => v mod Z.of_nat s =? t)
                      (map Z.of_nat (seq (q * s + j) n)))
  = if (Z.of_nat j <=? t) && (t <? Z.of_nat (j + n)) then 1%nat else 0%nat.
Proof.
  induction n as [|n IH]; intros j Hs Hj Ht.
  - cbn [seq map filter List.length].
    destruct (Z.leb_spec (Z.of_nat j) t), (Z.ltb_spec t (Z.of_nat (j + 0)));
      cbn; try reflexivity; lia.
  - cbn [seq map filter].
    assert (Hmod : Z.of_nat (q * s + j) mod Z.of_nat s = Z.of_nat j).
    { rewrite Nat2Z.inj_add, Nat2Z.inj_mul.
      rewrite Z.add_comm, Z.mod_add by lia.
      apply Z.mod_small. lia. }
    rewrite Hmod.
    replace (S (q * s + j)) with (q * s + S j)%nat by lia.
    destruct (Z.eqb_spec (Z.of_nat j) t) as [Heq|Hne].
    + cbn [List.length]. rewrite IH by lia.
      destruct (Z.leb_spec (Z.of_nat (S j)) t); [lia|].
      destruct (Z.leb_spec (Z.of_nat j) t); [|lia].
      destruct (Z.ltb_spec t (Z.of_nat (j + S n))); [|lia].
      reflexivity.
    + rewrite IH by lia.
      destruct (Z.leb_spec (Z.of_nat (S j)) t), (Z.leb_spec (Z.of_nat j) t),
        (Z.ltb_spec t (Z.of_nat (S j + n))), (Z.ltb_spec t (Z.of_nat (j + S n)));
        cbn; try reflexivity; lia.
Qed.

Lemma residue_count (s : nat) (t : Z) (q : nat) :
  (0 < s)%nat -> 0 <= t < Z.of_nat s ->
  List.length (filter (fun v => v mod Z.of_nat s =? t)
                      (map Z.of_nat (seq 0 (q * s))))
  = q.
Proof.
  intros Hs Ht. induction q as [|q IH].
  - reflexivity.
  - replace (S q * s)%nat with (q * s + s)%nat by lia.
    rewrite seq_app, map_app, filter_length_app, IH.
    replace (0 + q * s)%nat with (q * s + 0)%nat by lia.
    rewrite residue_in_run by lia.
    destruct (Z.leb_spec (Z.of_nat 0) t), (Z.ltb_spec t (Z.of_nat (0 + s)));
      cbn; lia.
Qed.

Lemma preimages_count sides k :
  0 < sides -> 1 <= k <= sides ->
  Z.of_nat (List.length (preimages sides k)) = bound sides / sides.
Proof.
  intros Hs Hk. unfold preimages, accepted_draws.
  assert (Hq : 0 <= max_value sides / sides).
  { apply Z.div_pos; [|lia].
    pose proof (sides_below_max_value sides Hs). lia. }
  assert (Hb : Z.to_nat (bound sides)
               = (Z.to_nat (max_value sides / sides) * Z.to_nat sides)%nat).
  { unfold bound. rewrite Z2Nat.inj_mul by lia. reflexivity. }
  rewrite Hb.
  rewrite (filter_ext _ (fun v => v mod Z.of_nat (Z.to_nat sides) =? k - 1)).
  - rewrite residue_count by lia.
    unfold bound. rewrite Z.div_mul by lia. lia.
  - intros v. rewrite Z2Nat.id by lia.
    destruct (Z.eqb_spec (v mod sides + 1) k), (Z.eqb_spec (v mod sides) (k - 1));
      try reflexivity; lia.
Qed.

(** C1: for a die of 2 to [MAX_SIDES] sides, [roll_die] works on
    [b = ceil(bit_length(sides) / 8)] bytes, [max = 256^b] and
    [bound = floor(max / sides) * sides].  Every block of [b] bytes it
    draws has a value in [[0, max)]; the first block [v] below the bound,
    whether it is the first one drawn or comes after up to
    [MAX_ATTEMPTS - 1] rejected ones, is accepted: [roll_die] returns
    [v mod sides + 1] and has drawn the blocks up to that one and no more.
    Only when all [MAX_ATTEMPTS] blocks are rejected does it return
    [secrets.randbelow(sides) + 1] instead.  [v mod sides + 1] lies in
    [[1, sides]], and every face in [[1, sides]] is the image of exactly
    [bound / sides] of the draws in [[0, bound)], so the accepted outcomes
    are equally likely. *)
Theorem roll_die_rejection_sampling_unbiased :
  forall sides, 2 <= sides <= MAX_SIDES ->
    8 * (bytes_needed sides - 1) < bit_length sides <= 8 * bytes_needed sides
    /\ max_value sides = 256 ^ bytes_needed sides
    /\ bound sides = max_value sides / sides * sides
    /\ 0 < bound sides <= max_value sides
    /\ (forall E r,
          0 <= first_draw E sides r < max_value sides
          /\ (first_draw E sides r < bound sides ->
              roll_die E sides r
              = Ok (first_draw E sides r mod sides + 1,
                    mkRng (bytes_drawn r + Z.to_nat (bytes_needed sides))
                          (below_calls r))))
    /\ (forall E r k,
          0 <= nth_draw E sides r k < max_value sides
          /\ ((k < MAX_ATTEMPTS)%nat ->
              (forall j, (j < k)%nat -> bound sides <= nth_draw E sides r j) ->
              nth_draw E sides r k < bound sides ->
              roll_die E sides r
              = Ok (nth_draw E sides r k mod sides + 1,
                    after_draws sides r (S k))))
    /\ (forall E r,
          (forall j, (j < MAX_ATTEMPTS)%nat ->
             bound sides <= nth_draw E sides r j) ->
          roll_die E sides r
          = Ok (below E (below_calls r) sides + 1,
                mkRng (bytes_drawn r
                       + MAX_ATTEMPTS * Z.to_nat (bytes_needed sides))
                      (S (below_calls r))))
    /\ (forall v, 0 <= v < bound sides -> 1 <= v mod sides + 1 <= sides)
    /\ (forall k, 1 <= k <= sides ->
          Z.of_nat (List.length (preimages sides k)) = bound sides / sides).
Proof.
  intros sides [Hlo Hhi].
  assert (Hs : 0 < sides) by lia.
  assert (Hroll : forall E r,
            roll_die E sides r = rejection_loop E sides MAX_ATTEMPTS r).
  { intros E r. unfold roll_die.
    destruct (Z.ltb_spec sides 1); [lia|].
    destruct (Z.gtb_spec sides MAX_SIDES); [lia|].
    destruct (Z.eqb_spec sides 1); [lia|]. reflexivity. }
  split; [apply bytes_needed_spec; assumption|].
  split; [apply max_value_pow; assumption|].
  split; [reflexivity|].
  split; [pose proof (bound_range sides Hs); lia|].
  split; [|split; [|split; [|split]]].
  - intros E r. split; [apply first_draw_range; assumption|].
    intros Hv. rewrite Hroll.
    assert (Hn : MAX_ATTEMPTS = S (Z.to_nat 9999)).
    { unfold MAX_ATTEMPTS. rewrite <- Z2Nat.inj_succ by lia. reflexivity. }
    rewrite Hn, rejection_loop_step.
    destruct (Z.ltb_spec (first_draw E sides r) (bound sides)); [reflexivity|lia].
  - intros E r k. split; [apply first_draw_range; assumption|].
    intros Hk Hrej Hacc. rewrite Hroll.
    apply rejection_loop_accepts; assumption.
  - intros E r Hrej. rewrite Hroll.
    apply rejection_loop_falls_back; assumption.
  - intros v _. apply accepted_face_range; assumption.
  - intros k Hk. apply preimages_count; assumption.
Qed.

(** A d6: 252 of the 256 byte values are accepted, 42 for each face; the
    bytes [ff 03] give a 4 and the bytes [fc fb] a 6, the first byte of
    each pair being rejected. *)
Lemma roll_die_rejection_sampling_unbiased_d6 :
  2 <= 6 <= MAX_SIDES
  /\ bound 6 = 252
  /\ Z.of_nat (List.length (preimages 6 3)) = 42
  /\ roll_die (tape [xff; x03]) 6 fresh = Ok (4, mkRng 2 0)
  /\ roll_die (tape [xfc; xfb]) 6 fresh = Ok (6, mkRng 2 0).
Proof.
  assert (H : 2 <= 6 <= MAX_SIDES) by (unfold MAX_SIDES; lia).
  assert (Hn : (1 < MAX_ATTEMPTS)%nat) by (unfold MAX_ATTEMPTS; lia).
  split; [exact H|].
  split; [reflexivity|].
  destruct (roll_die_rejection_sampling_unbiased 6 H)
    as (_ & _ & _ & _ & _ & Hdraw & _ & _ & Hcount).
  split; [rewrite (Hcount 3) by lia; reflexivity|].
  split.
  - destruct (Hdraw (tape [xff; x03]) fresh 1%nat) as [_ Hroll].
    rewrite Hroll; [reflexivity | exact Hn | | vm_compute; reflexivity].
    intros j Hj. assert (j = O) as -> by lia. vm_compute. discriminate.
  - destruct (Hdraw (tape [xfc; xfb]) fresh 1%nat) as [_ Hroll].
    rewrite Hroll; [reflexivity | exact Hn | | vm_compute; reflexivity].
    intros j Hj. assert (j = O) as -> by lia. vm_compute. discriminate.
Defined.

(** ** Rolling, rerolling, exploding *)

Lemma keeps_traces_ret {A} (a : A) : keeps_traces (ret a).
Proof. intros s a' s' H. injection H as _ <-. reflexivity. Qed.

Lemma keeps_traces_bind {A B} (m : Ev A) (k : A -> Ev B) :
  keeps_traces m -> (forall a, keeps_traces (k a)) -> keeps_traces (bind m k).
Proof.
  intros Hm Hk s b s' H.
  apply bind_ok in H as (a & s1 & H1 & H2).
  rewrite (Hk a _ _ _ H2). eapply Hm; eassumption.
Qed.

Lemma keeps_traces_with_rng {A} (m : M rng_state A) : keeps_traces (with_rng m).
Proof.
  intros s a s' H. unfold with_rng in H.
  destruct (m (rng s)) as [[a0 r]|e]; [|discriminate].
  injection H as _ <-. reflexivity.
Qed.

Lemma keeps_traces_fresh_value E sides kind :
  keeps_traces (fresh_value E sides kind).
Proof.
  destruct kind; cbn [fresh_value];
    try apply keeps_traces_with_rng.
  apply keeps_traces_bind; [apply keeps_traces_with_rng|].
  intros a. apply keeps_traces_ret.
Qed.

Lemma keeps_traces_for_each {A B} (body : A -> Ev B) l :
  (forall a, keeps_traces (body a)) -> keeps_traces (for_each body l).
Proof.
  intros Hb. induction l as [|a l IH]; cbn [for_each].
  - apply keeps_traces_ret.
  - apply keeps_traces_bind; [apply Hb|]. intros b.
    apply keeps_traces_bind; [apply IH|]. intros bs.
    apply keeps_traces_ret.
Qed.

Lemma with_rng_ok {A} (m : M rng_state A) s a s' :
  with_rng m s = Ok (a, s') ->
  m (rng s) = Ok (a, rng s') /\ traces s' = traces s.
Proof.
  unfold with_rng. destruct (m (rng s)) as [[a0 r]|e]; [|discriminate].
  intros H. injection H as <- <-. split; reflexivity.
Qed.

Lemma fresh_value_domain E sides kind s v s' :
  randbelow_in_range E ->
  fresh_value E sides kind s = Ok (v, s') -> in_domain sides kind v.
Proof.
  intros HE H. destruct kind; cbn [fresh_value in_domain] in *.
  - apply with_rng_ok in H as [H _]. eapply roll_die_range; eassumption.
  - apply with_rng_ok in H as [H _]. eapply roll_die_range; eassumption.
  - apply bind_ok in H as (a & s1 & H1 & H2).
    apply with_rng_ok in H1 as [H1 _].
    pose proof (roll_die_range E 3 _ _ _ HE H1).
    injection H2 as <- _. lia.
Qed.

(** The dice for which the generator does not raise: every FATE die, and
    the other dice of 1 to [MAX_SIDES] sides. *)
Lemma fresh_value_total E sides kind s :
  randbelow_in_range E ->
  kind = Fate \/ 1 <= sides <= MAX_SIDES ->
  exists v s', fresh_value E sides kind s = Ok (v, s').
Proof.
  intros HE Hk.
  assert (H3 : 1 <= 3 <= MAX_SIDES) by (unfold MAX_SIDES; lia).
  destruct kind; cbn [fresh_value];
    try (destruct Hk as [Hk|Hk]; [discriminate|];
         destruct (roll_die_total E sides (rng s) Hk HE) as (v & r' & Hr & _);
         unfold with_rng; rewrite Hr; eauto).
  destruct (roll_die_total E 3 (rng s) H3 HE) as (v & r' & Hr & _).
  unfold bind, with_rng. rewrite Hr. unfold ret. eauto.
Qed.

Lemma keeps_traces_roll_all E sides kind n :
  keeps_traces (roll_all E sides kind n).
Proof.
  induction n as [|n IH]; cbn [roll_all].
  - apply keeps_traces_ret.
  - apply keeps_traces_bind; [apply keeps_traces_fresh_value|]. intros v.
    apply keeps_traces_bind; [apply IH|]. intros rest.
    apply keeps_traces_ret.
Qed.

Lemma roll_all_fresh E sides kind n s rolls s' :
  randbelow_in_range E ->
  roll_all E sides kind n s = Ok (rolls, s') ->
  List.length rolls = n
  /\ Forall (fun d => in_domain sides kind (value d) /\ rerolls d = []
                      /\ explodes d = [] /\ success d = None) rolls.
Proof.
  intros HE. revert s rolls s'.
  induction n as [|n IH]; intros s rolls s' H; cbn [roll_all] in H.
  - injection H as <- _. split; [reflexivity | constructor].
  - apply bind_ok in H as (v & s1 & Hv & H).
    apply bind_ok in H as (rest & s2 & Hrest & H).
    injection H as <- _.
    destruct (IH _ _ _ Hrest) as [Hlen Hall].
    split; [cbn; congruence|].
    constructor; [|assumption].
    cbn. repeat split; try reflexivity.
    eapply fresh_value_domain; eassumption.
Qed.

Lemma roll_all_total E sides kind n s :
  randbelow_in_range E ->
  kind = Fate \/ 1 <= sides <= MAX_SIDES ->
  exists rolls s', roll_all E sides kind n s = Ok (rolls, s').
Proof.
  intros HE Hk. revert s. induction n as [|n IH]; intros s; cbn [roll_all].
  - eexists _, _. reflexivity.
  - destruct (fresh_value_total E sides kind s HE Hk) as (v & s1 & Hv).
    destruct (IH s1) as (rest & s2 & Hrest).
    rewrite (bind_step _ _ _ _ _ Hv), (bind_step _ _ _ _ _ Hrest).
    eexists _, _. reflexivity.
Qed.

Lemma for_each_Forall2 {A B} (body : A -> Ev B) (R : A -> B -> Prop) :
  (forall a s b s', body a s = Ok (b, s') -> R a b) ->
  forall l s l' s', for_each body l s = Ok (l', s') -> Forall2 R l l'.
Proof.
  intros Hb. induction l as [|a l IH]; intros s l' s' H; cbn [for_each] in H.
  - injection H as <- _. constructor.
  - apply bind_ok in H as (b & s1 & Hb1 & H).
    apply bind_ok in H as (bs & s2 & Hbs & H).
    injection H as <- _.
    constructor; [eapply Hb; eassumption | eapply IH; eassumption].
Qed.

(** The reroll loop: the history grows by the values that were replaced,
    each of which met the condition; one round at most under reroll-once;
    and a standard reroll that stops short of the ceiling stops on a value
    that does not meet the condition. *)
Lemma reroll_loop_spec E sides kind spec :
  forall remaining d s d' left_over s',
    reroll_loop E sides kind spec remaining d s = Ok ((d', left_over), s') ->
    exists hist,
      rerolls d' = rerolls d ++ hist
      /\ (List.length hist + left_over = remaining)%nat
      /\ Forall (fun h => _check_condition h (reroll_condition spec) = true) hist
      /\ (hist = [] -> d' = d)
      /\ (forall h rest, hist = h :: rest -> h = value d)
      /\ (once spec = true -> (List.length hist <= 1)%nat)
      /\ (once spec = false -> left_over <> O ->
          _check_condition (value d') (reroll_condition spec) = false)
      /\ explodes d' = explodes d /\ success d' = success d.
Proof.
  induction remaining as [|n IH]; intros d s d' left_over s' H;
    cbn [reroll_loop] in H;
    destruct (_check_condition (value d) (reroll_condition spec)) eqn:Hc.
  - injection H as <- <- _. exists []. rewrite app_nil_r.
    repeat split; auto; try discriminate; try (cbn; lia); congruence.
  - injection H as <- <- _. exists []. rewrite app_nil_r.
    repeat split; auto; try discriminate; cbn; lia.
  - apply bind_ok in H as (v & s1 & Hv & H).
    destruct (once spec) eqn:Ho.
    + injection H as <- <- _. exists [value d]. cbn.
      repeat split; auto; try discriminate; try lia.
      intros h rest Hh. injection Hh as <- _. reflexivity.
    + apply IH in H as (hist & Hr & Hlen & Hall & Hnil & Hhd & Honce & Hstd & He & Hsu).
      cbn [rerolls explodes success value] in *.
      exists (value d :: hist). rewrite Hr, <- app_assoc. cbn.
      repeat split; auto; try discriminate; try lia.
      intros h rest Hh. injection Hh as <- _. reflexivity.
  - injection H as <- <- _. exists []. rewrite app_nil_r.
    repeat split; auto; try discriminate; cbn; lia.
Qed.

Lemma reroll_loop_domain E sides kind spec :
  randbelow_in_range E ->
  forall remaining d s d' left_over s',
    reroll_loop E sides kind spec remaining d s = Ok ((d', left_over), s') ->
    in_domain sides kind (value d) ->
    Forall (in_domain sides kind) (rerolls d) ->
    in_domain sides kind (value d')
    /\ Forall (in_domain sides kind) (rerolls d').
Proof.
  intros HE.
  induction remaining as [|n IH]; intros d s d' left_over s' H Hv Hh;
    cbn [reroll_loop] in H;
    destruct (_check_condition (value d) (reroll_condition spec)) eqn:Hc;
    try (injection H as <- <- _; split; assumption).
  apply bind_ok in H as (v & s1 & Hfresh & H).
  pose proof (fresh_value_domain _ _ _ _ _ _ HE Hfresh) as Hdom.
  assert (Hh' : Forall (in_domain sides kind) (rerolls d ++ [value d]))
    by (apply Forall_app; split; [assumption | constructor; [assumption | constructor]]).
  destruct (once spec).
  - injection H as <- <- _. split; assumption.
  - eapply IH in H; cbn [value rerolls]; eauto.
Qed.

Lemma keeps_traces_reroll_loop E sides kind spec remaining :
  forall d, keeps_traces (reroll_loop E sides kind spec remaining d).
Proof.
  induction remaining as [|n IH]; intros d; cbn [reroll_loop];
    destruct (_check_condition _ _); try apply keeps_traces_ret.
  apply keeps_traces_bind; [apply keeps_traces_fresh_value|]. intros v.
  destruct (once spec); [apply keeps_traces_ret | apply IH].
Qed.

Lemma keeps_traces_reroll_one E sides kind spec d :
  keeps_traces (reroll_one E sides kind spec d).
Proof.
  unfold reroll_one.
  apply keeps_traces_bind; [apply keeps_traces_reroll_loop|].
  intros [d' [|n]]; [|apply keeps_traces_ret].
  intros s a s' H. discriminate.
Qed.

Lemma reroll_one_ok E sides kind spec d s d' s' :
  reroll_one E sides kind spec d s = Ok (d', s') ->
  exists left_over,
    reroll_loop E sides kind spec MAX_REROLLS d s = Ok ((d', S left_over), s').
Proof.
  unfold reroll_one. intros H.
  apply bind_ok in H as ([d1 [|n]] & s1 & Hloop & H); [discriminate|].
  injection H as <- <-. eauto.
Qed.

Lemma reroll_one_ceiling E sides kind spec d s d' s' :
  reroll_loop E sides kind spec MAX_REROLLS d s = Ok ((d', O), s') ->
  reroll_one E sides kind spec d s = Raise reroll_ceiling.
Proof.
  intros H. unfold reroll_one. rewrite (bind_step _ _ _ _ _ H).
  reflexivity.
Qed.

Lemma rejection_loop_never_raises E sides n r e :
  rejection_loop E sides n r <> Raise e.
Proof.
  revert r. induction n as [|n IH]; intros r.
  - cbn. discriminate.
  - rewrite rejection_loop_step. destruct (_ <? _); [discriminate | apply IH].
Qed.

(** What the generator can raise is not the reroll ceiling. *)
Lemma fresh_value_raises E sides kind s e :
  fresh_value E sides kind s = Raise e -> e <> reroll_ceiling.
Proof.
  assert (Hdie : forall n r, roll_die E n r = Raise e -> e <> reroll_ceiling).
  { intros n r H. unfold roll_die in H.
    destruct (n <? 1); [injection H as <-; discriminate|].
    destruct (n >? MAX_SIDES); [injection H as <-; discriminate|].
    destruct (n =? 1); [discriminate|].
    exfalso. eapply rejection_loop_never_raises; eassumption. }
  intros H.
  assert (Hrng : forall n, with_rng (roll_die E n) s = Raise e -> e <> reroll_ceiling).
  { intros n Hw. unfold with_rng in Hw.
    destruct (roll_die E n (rng s)) as [[v r]|e0] eqn:Hr; [discriminate|].
    injection Hw as <-. eapply Hdie; eassumption. }
  destruct kind; cbn [fresh_value] in H; try (eapply Hrng; eassumption).
  unfold bind in H.
  destruct (with_rng (roll_die E 3) s) as [[v s1]|e0] eqn:Hw; [discriminate|].
  injection H as <-. eapply Hrng; eassumption.
Qed.

Lemma reroll_loop_raises E sides kind spec :
  forall remaining d s e,
    reroll_loop E sides kind spec remaining d s = Raise e -> e <> reroll_ceiling.
Proof.
  induction remaining as [|n IH]; intros d s e H; cbn [reroll_loop] in H;
    destruct (_check_condition _ _); try discriminate.
  unfold bind in H.
  destruct (fresh_value E sides kind s) as [[v s1]|e0] eqn:Hf.
  - destruct (once spec); [discriminate | eapply IH; eassumption].
  - injection H as <-. eapply fresh_value_raises; eassumption.
Qed.

Lemma MAX_REROLLS_large : (1 < MAX_REROLLS)%nat.
Proof. unfold MAX_REROLLS. apply Nat.ltb_lt. vm_compute. reflexivity. Qed.

Lemma reroll_loop_replaced E sides kind spec :
  once spec = false ->
  forall remaining d s d' left_over s',
    reroll_loop E sides kind spec remaining d s = Ok ((d', left_over), s')
    <-> exists n,
          (n + left_over = remaining)%nat
          /\ replaced E sides kind (reroll_condition spec) n d s d' s'
          /\ (left_over <> O ->
              _check_condition (value d') (reroll_condition spec) = false).
Proof.
  intros Ho remaining d s d' left_over s'. split.
  - revert d s. induction remaining as [|m IH]; intros d s H;
      cbn [reroll_loop] in H;
      destruct (_check_condition (value d) (reroll_condition spec)) eqn:Hc.
    + injection H as <- <- <-. exists O.
      split; [reflexivity|]. split; [constructor|]. intros H; contradiction.
    + injection H as <- <- <-. exists O.
      split; [reflexivity|]. split; [constructor|]. intros H; contradiction.
    + apply bind_ok in H as (v & s1 & Hv & H). rewrite Ho in H.
      apply IH in H as (n & Hn & Hrep & Hstop).
      exists (S n). split; [lia|]. split; [|exact Hstop].
      econstructor; eassumption.
    + injection H as <- <- <-. exists O.
      split; [reflexivity|]. split; [constructor|]. intros _; exact Hc.
  - intros (n & Hn & Hrep & Hstop). revert remaining Hn.
    induction Hrep as [d s | n d s v s1 d' s' Hc Hv Hrep IH];
      intros remaining Hn.
    + cbn in Hn. subst remaining.
      destruct left_over as [|l]; cbn [reroll_loop].
      * destruct (_check_condition _ _); reflexivity.
      * rewrite Hstop by discriminate. reflexivity.
    + destruct remaining as [|m]; [lia|]. cbn [reroll_loop].
      rewrite Hc, (bind_step _ _ _ _ _ Hv), Ho.
      apply IH; [exact Hstop | lia].
Qed.

Lemma reroll_one_returns E sides kind spec d s d' s' :
  reroll_one E sides kind spec d s = Ok (d', s')
  <-> exists left_over,
        reroll_loop E sides kind spec MAX_REROLLS d s
        = Ok ((d', S left_over), s').
Proof.
  split; [apply reroll_one_ok|].
  intros (n & H). unfold reroll_one. rewrite (bind_step _ _ _ _ _ H).
  reflexivity.
Qed.

Lemma reroll_one_raises_ceiling E sides kind spec d s :
  reroll_one E sides kind spec d s = Raise reroll_ceiling
  <-> exists d' s',
        reroll_loop E sides kind spec MAX_REROLLS d s = Ok ((d', O), s').
Proof.
  split.
  - intros H.
    destruct (reroll_loop E sides kind spec MAX_REROLLS d s)
      as [[[d1 left_over] s1]|e] eqn:Hloop.
    + destruct left_over as [|l]; [eauto|]. exfalso.
      assert (Hok : reroll_one E sides kind spec d s = Ok (d1, s1))
        by (apply reroll_one_returns; exists l; exact Hloop).
      congruence.
    + exfalso.
      assert (Hr : reroll_one E sides kind spec d s = Raise e)
        by (unfold reroll_one; apply bind_raise; exact Hloop).
      assert (He : e = reroll_ceiling) by congruence.
      exact (reroll_loop_raises _ _ _ _ _ _ _ _ Hloop He).
  - intros (d' & s' & H). exact (reroll_one_ceiling _ _ _ _ _ _ _ _ H).
Qed.

(** Under reroll-once the loop makes one round at most. *)
Lemma reroll_loop_once E sides kind spec remaining d s :
  once spec = true ->
  reroll_loop E sides kind spec (S remaining) d s
  = if _check_condition (value d) (reroll_condition spec)
    then match fresh_value E sides kind s with
         | Ok (v, s1) => Ok ((replaced_by v d, remaining), s1)
         | Raise e => Raise e
         end
    else Ok ((d, S remaining), s).
Proof.
  intros Ho. cbn [reroll_loop]. destruct (_check_condition _ _); [|reflexivity].
  unfold bind. destruct (fresh_value E sides kind s) as [[v s1]|e];
    [|reflexivity].
  rewrite Ho. reflexivity.
Qed.

Lemma reroll_one_once E sides kind spec d s :
  once spec = true ->
  reroll_one E sides kind spec d s
  = if _check_condition (value d) (reroll_condition spec)
    then match fresh_value E sides kind s with
         | Ok (v, s1) => Ok (replaced_by v d, s1)
         | Raise e => Raise e
         end
    else Ok (d, s).
Proof.
  intros Ho.
  assert (Hm : exists m, MAX_REROLLS = S (S m)).
  { pose proof MAX_REROLLS_large as H.
    destruct MAX_REROLLS as [|[|m]]; [lia | lia | eauto]. }
  destruct Hm as (m & Hm). unfold reroll_one, bind.
  rewrite Hm, reroll_loop_once by exact Ho.
  destruct (_check_condition _ _); [|reflexivity].
  destruct (fresh_value E sides kind s) as [[v s1]|e]; reflexivity.
Qed.


Lemma reroll_one_settles E sides kind spec d s d' s' :
  randbelow_in_range E ->
  in_domain sides kind (value d) -> rerolls d = [] ->
  reroll_one E sides kind spec d s = Ok (d', s') ->
  in_domain sides kind (value d')
  /\ Forall (fun h => in_domain sides kind h
                      /\ _check_condition h (reroll_condition spec) = true)
            (rerolls d')
  /\ (once spec = true -> (List.length (rerolls d') <= 1)%nat)
  /\ (once spec = false ->
      _check_condition (value d') (reroll_condition spec) = false).
Proof.
  intros HE Hv Hr H. apply reroll_one_ok in H as (n & H).
  pose proof (reroll_loop_domain E sides kind spec HE _ _ _ _ _ _ H Hv) as Hdom.
  rewrite Hr in Hdom. destruct (Hdom (Forall_nil _)) as [Hv' Hh'].
  apply reroll_loop_spec in H as (hist & Hr' & _ & Hall & _ & _ & Honce & Hstd & _).
  rewrite Hr in Hr'. cbn in Hr'. rewrite Hr' in *.
  split; [assumption|]. split; [|split].
  - rewrite Forall_forall in *. intros h Hin. split; auto.
  - assumption.
  - intros Ho. apply Hstd; [assumption | discriminate].
Qed.

(** The explosion loop leaves the value and the reroll history of the die
    alone, and adds one entry to [explodes] for each round. *)
Lemma explode_loop_spec E sides kind pen condition :
  forall remaining d cur s d' left_over s',
    explode_loop E sides kind pen condition remaining d cur s
    = Ok ((d', left_over), s') ->
    value d' = value d /\ rerolls d' = rerolls d /\ success d' = success d
    /\ exists incs, explodes d' = explodes d ++ incs
                    /\ (List.length incs + left_over = remaining)%nat.
Proof.
  induction remaining as [|n IH]; intros d cur s d' left_over s' H;
    cbn [explode_loop] in H; destruct (_check_condition cur condition);
    try (injection H as <- <- _; repeat split; exists [];
         rewrite app_nil_r; split; [reflexivity | cbn; lia]).
  apply bind_ok in H as (v & s1 & _ & H).
  apply IH in H as (Hv & Hr & Hs & incs & He & Hlen).
  cbn [value rerolls explodes success] in *.
  repeat split; try assumption.
  eexists (_ :: incs). rewrite He, <- app_assoc. cbn. split; [reflexivity | lia].
Qed.

Lemma keeps_traces_explode_loop E sides kind pen condition remaining :
  forall d cur,
    keeps_traces (explode_loop E sides kind pen condition remaining d cur).
Proof.
  induction remaining as [|n IH]; intros d cur; cbn [explode_loop];
    destruct (_check_condition _ _); try apply keeps_traces_ret.
  apply keeps_traces_bind; [apply keeps_traces_fresh_value|].
  intros v. apply IH.
Qed.

Lemma keeps_traces_explode_one E sides kind pen condition d :
  keeps_traces (explode_one E sides kind pen condition d).
Proof.
  unfold explode_one.
  apply keeps_traces_bind; [apply keeps_traces_explode_loop|].
  intros [d' [|n]]; [|apply keeps_traces_ret].
  intros s a s' H. discriminate.
Qed.

Lemma explode_one_spec E sides kind pen condition d s d' s' :
  explode_one E sides kind pen condition d s = Ok (d', s') ->
  value d' = value d /\ rerolls d' = rerolls d /\ success d' = success d
  /\ exists incs, explodes d' = explodes d ++ incs
                  /\ (List.length incs < MAX_EXPLOSIONS)%nat.
Proof.
  unfold explode_one. intros H.
  apply bind_ok in H as ([d1 [|n]] & s1 & Hloop & H); [discriminate|].
  injection H as <- <-.
  apply explode_loop_spec in Hloop as (Hv & Hr & Hs & incs & He & Hlen).
  repeat split; try assumption. exists incs. split; [assumption | lia].
Qed.

(** C9, as the code has it: the [compound] flag has no effect on
    [_apply_explosions], which treats [!!] as it treats [!]: the value of
    every die is left as rolled and every explosion of a chain is a separate
    entry appended to that die's [explodes]. *)
Theorem compound_explosions_are_separate_entries :
  forall E rolls sides kind spec s,
    _apply_explosions E rolls sides kind spec s
    = _apply_explosions E rolls sides kind
        (mkExplode (penetrating spec) false (explode_condition spec)) s
    /\ forall rolls' s',
         _apply_explosions E rolls sides kind spec s = Ok (rolls', s') ->
         Forall2 (fun d d' =>
                    value d' = value d
                    /\ exists incs, explodes d' = explodes d ++ incs
                                    /\ (List.length incs < MAX_EXPLOSIONS)%nat)
                 rolls rolls'.
Proof.
  intros E rolls sides kind spec s. split; [reflexivity|].
  intros rolls' s' H. unfold _apply_explosions in H.
  eapply for_each_Forall2; [|eassumption].
  intros d s0 d' s0' Hd.
  apply explode_one_spec in Hd as (Hv & _ & _ & Hincs).
  split; assumption.
Qed.

(** C9, the claim as stated fails: on ["1d6!!"] with the draws 6, 6, 3 the
    die keeps the value 6 and records the explosions 6 and 3 as two
    entries; nothing is folded into a running total of 15. *)
Lemma compound_explosion_not_folded :
  roll_dice (tape [x05; x05; x02]) fresh "1d6!!"
  = Success (PyInt 6) SUM
      [mkDiceTrace "1d6!!>=6" [mkDieRoll 6 [] [6; 3] None]
                   None (Some 6) None None].
Proof. vm_compute. reflexivity. Qed.

(** ** Sorting and marking *)

Lemma insert_by_perm {A} (before : A -> A -> bool) x l :
  Permutation (insert_by before x l) (x :: l).
Proof.
  induction l as [|y l IH]; cbn [insert_by]; [reflexivity|].
  destruct (before x y); [reflexivity|].
  rewrite IH. apply perm_swap.
Qed.

Lemma sort_by_perm {A} (before : A -> A -> bool) l :
  Permutation (sort_by before l) l.
Proof.
  induction l as [|x l IH]; cbn; [reflexivity|].
  rewrite insert_by_perm. constructor. exact IH.
Qed.

Lemma display_sort_perm order rolls :
  Permutation (display_sort order rolls) rolls.
Proof.
  destruct order as [[|]|]; cbn [display_sort];
    try apply sort_by_perm; reflexivity.
Qed.

Lemma mark_successes_fields comparator limit : forall ds i,
  Forall2 (fun d d' => value d' = value d /\ rerolls d' = rerolls d
                       /\ explodes d' = explodes d)
          ds (mark_successes comparator limit i ds).
Proof.
  induction ds as [|d ds IH]; intros i; cbn [mark_successes];
    constructor; [|apply IH].
  destruct (match limit with None => true | Some n => (i <? n)%nat end);
    repeat split.
Qed.

Lemma Forall2_Forall {A B} (R : A -> B -> Prop) (P : A -> Prop) (Q : B -> Prop) :
  (forall a b, P a -> R a b -> Q b) ->
  forall l l', Forall P l -> Forall2 R l l' -> Forall Q l'.
Proof.
  intros H l l' HP HR. induction HR; [constructor|].
  inversion HP; subst. constructor; eauto.
Qed.

Lemma settled_fields sides kind modifiers d d' :
  settled sides kind modifiers d ->
  value d' = value d /\ rerolls d' = rerolls d -> settled sides kind modifiers d'.
Proof. unfold settled. intros H [-> ->]. exact H. Qed.

(** ** The dice of a term *)

Lemma dice_pool_settled E count sides kind modifiers s rolls s' :
  randbelow_in_range E ->
  dice_pool E count sides kind modifiers s = Ok (rolls, s') ->
  Forall (settled sides kind modifiers) rolls /\ traces s' = traces s.
Proof.
  intros HE H. unfold dice_pool in H.
  apply bind_ok in H as (rolls0 & s0 & Hroll & H).
  apply bind_ok in H as (rolls1 & s1 & Hre & H).
  pose proof (keeps_traces_roll_all _ _ _ _ _ _ _ Hroll) as Ht0.
  apply roll_all_fresh in Hroll as [_ Hfresh]; [|assumption].
  assert (H1 : Forall (settled sides kind modifiers) rolls1
               /\ traces s1 = traces s0).
  { unfold settled. destruct (reroll modifiers) as [spec|].
    - split.
      + unfold _apply_rerolls in Hre.
        eapply Forall2_Forall;
          [| exact Hfresh
           | eapply (for_each_Forall2 _
                       (fun d d' => exists t t',
                            reroll_one E sides kind spec d t = Ok (d', t')));
             [|eassumption]; eauto].
        intros d d' (Hv & Hr & _) (t & t' & Hone).
        eapply reroll_one_settles; eassumption.
      + eapply keeps_traces_for_each; [|eassumption].
        intros d. apply keeps_traces_reroll_one.
    - injection Hre as <- <-. split; [|reflexivity].
      eapply Forall_impl; [|exact Hfresh]. intros d (Hv & Hr & _). auto. }
  destruct H1 as [Hset1 Ht1].
  destruct (explode modifiers) as [spec|].
  - split.
    + unfold _apply_explosions in H.
      eapply Forall2_Forall;
        [| exact Hset1
         | eapply (for_each_Forall2 _
                     (fun d d' => value d' = value d /\ rerolls d' = rerolls d));
           [|eassumption]].
      * intros d d' Hs Hf. eapply settled_fields; eassumption.
      * intros d t d' t' Hone.
        apply explode_one_spec in Hone as (Hv & Hr & _). auto.
    + rewrite <- Ht0, <- Ht1.
      eapply keeps_traces_for_each; [|eassumption].
      intros d. apply keeps_traces_explode_one.
  - injection H as <- <-. split; [assumption | congruence].
Qed.

Lemma _apply_keep_drop_state rolls spec s kept s' :
  _apply_keep_drop rolls spec s = Ok (kept, s') -> s' = s.
Proof.
  unfold _apply_keep_drop.
  destruct (_ >? _); [discriminate|]. intros H. injection H as _ <-. reflexivity.
Qed.

(** What [score_pool] leaves behind: one more trace, whose dice are those
    of the pool, reordered for display and marked. *)
Lemma score_pool_trace count sides kind modifiers pool s n s' :
  score_pool count sides kind modifiers pool s = Ok (n, s') ->
  exists t shown,
    traces s' = traces s ++ [t]
    /\ Permutation shown pool
    /\ Forall2 (fun d d' => value d' = value d /\ rerolls d' = rerolls d
                            /\ explodes d' = explodes d)
               shown (rolls t).
Proof.
  unfold score_pool. intros H.
  apply bind_ok in H as (kept_values & s1 & Hk & H).
  assert (s1 = s) as ->.
  { destruct (keep modifiers).
    - apply bind_ok in Hk as (kept & s2 & Hk & Hr).
      injection Hr as _ <-. eapply _apply_keep_drop_state; eassumption.
    - injection Hk as _ <-. reflexivity. }
  assert (Hsame : forall l : list DieRoll,
             Forall2 (fun d d' => value d' = value d /\ rerolls d' = rerolls d
                                  /\ explodes d' = explodes d) l l).
  { induction l; constructor; auto. }
  destruct (comparator modifiers) as [comp|].
  - unfold _count_successes in H.
    apply bind_ok in H as ([] & s2 & Ha & H). injection H as _ <-.
    unfold append_trace in Ha. injection Ha as <-.
    eexists _, _. cbn [traces rolls].
    split; [reflexivity|].
    split; [apply (display_sort_perm (sort modifiers))|].
    apply mark_successes_fields.
  - destruct kept_values as [kept|].
    + apply bind_ok in H as ([] & s2 & Ha & H). injection H as _ <-.
      unfold append_trace in Ha. injection Ha as <-.
      eexists _, _. cbn [traces rolls].
      split; [reflexivity|].
      split; [apply (display_sort_perm (sort modifiers))|]. apply Hsame.
    + apply bind_ok in H as ([] & s2 & Ha & H). injection H as _ <-.
      unfold append_trace in Ha. injection Ha as <-.
      eexists _, _. cbn [traces rolls].
      split; [reflexivity|].
      split; [apply (display_sort_perm (sort modifiers))|]. apply Hsame.
Qed.

(** C8: when a dice term has been evaluated without error, every die of
    its trace has a value in the die's domain, [[1, sides]] or, for FATE
    dice, [{-1, 0, 1}]; the values that rerolls replaced are in the reroll
    history, each of them one that met the reroll condition, and the value
    is the roll that replaced them. *)
Theorem evaluated_dice_lie_in_domain :
  forall E count sides kind modifiers s n s',
    randbelow_in_range E ->
    _eval_dice E count sides kind modifiers s = Ok (n, s') ->
    exists t,
      traces s' = traces s ++ [t]
      /\ Forall (settled sides kind modifiers) (rolls t).
Proof.
  intros E count sides kind modifiers s n s' HE H.
  unfold _eval_dice in H. apply bind_ok in H as (pool & s1 & Hpool & H).
  apply dice_pool_settled in Hpool as [Hset Ht]; [|assumption].
  apply score_pool_trace in H as (t & shown & Htr & Hperm & Hf).
  exists t. split; [congruence|].
  eapply Forall2_Forall; [| |exact Hf].
  - intros d d' Hs (Hv & Hr & _). eapply settled_fields; eauto.
  - eapply Permutation_Forall; [symmetry; eassumption | assumption].
Qed.

Lemma evaluated_dice_lie_in_domain_2d6ro1 :
  randbelow_in_range (tape [x00; x04; x02])
  /\ match _eval_dice (tape [x00; x04; x02]) 2 6 Standard
             (mkModifiers (Some (mkReroll true (mkCondition OpEq (Num 1))))
                          None None None None)
             (mkEvaluator fresh []) with
     | Ok (_, s') =>
         exists t,
           traces s' = [t]
           /\ Forall (settled 6 Standard
                        (mkModifiers
                           (Some (mkReroll true (mkCondition OpEq (Num 1))))
                           None None None None))
                     (rolls t)
     | Raise _ => False
     end.
Proof.
  assert (HE : randbelow_in_range (tape [x00; x04; x02]))
    by (intros i n Hn; cbn; lia).
  split; [exact HE|].
  destruct (_eval_dice (tape [x00; x04; x02]) 2 6 Standard
              (mkModifiers (Some (mkReroll true (mkCondition OpEq (Num 1))))
                           None None None None)
              (mkEvaluator fresh [])) as [[n s']|e] eqn:Heq.
  - exact (evaluated_dice_lie_in_domain _ _ _ _ _ _ _ _ HE Heq).
  - vm_compute in Heq. discriminate.
Defined.

(** ** Division by zero *)

Lemma divides_by_zero_raises E node s :
  divides_by_zero E node s ->
  _eval_node E node s = Raise (DiceError "Division by zero").
Proof.
  induction 1 as [lhs rhs s lv s1 rv s2 Hl Hr Hz
                 | op lhs rhs s _ IH
                 | op lhs rhs s lv s1 Hl _ IH
                 | op operand s _ IH]; cbn [_eval_node].
  - rewrite (bind_step _ _ _ _ _ Hl), (bind_step _ _ _ _ _ Hr), Hz. reflexivity.
  - apply bind_raise. exact IH.
  - rewrite (bind_step _ _ _ _ _ Hl). apply bind_raise. exact IH.
  - destruct op. apply bind_raise. exact IH.
Qed.

(** C4, as the code has it: when the evaluation of a parsed expression
    reaches a division whose right operand is zero, [roll_dice] returns a
    failure whose type is the name of the exception class raised,
    ["DiceError"], with the message ["Division by zero"], no position and
    the input as given. *)
Theorem division_by_zero_is_a_DiceError :
  forall E r expression tree p,
    parse (new_DiceParser expression) = Ok (tree, p) ->
    divides_by_zero E tree (mkEvaluator r []) ->
    roll_dice E r expression
    = Failure "DiceError" "Division by zero" None expression.
Proof.
  intros E r expression tree p Hparse Hdz.
  unfold roll_dice, evaluate. rewrite Hparse.
  rewrite (divides_by_zero_raises _ _ _ Hdz). reflexivity.
Qed.

Lemma division_by_zero_is_a_DiceError_6d6 :
  roll_dice (tape []) fresh "6d6/0"
  = Failure "DiceError" "Division by zero" None "6d6/0".
Proof.
  eapply (division_by_zero_is_a_DiceError (tape []) fresh "6d6/0").
  - vm_compute. reflexivity.
  - eapply dz_here.
    + vm_compute. reflexivity.
    + vm_compute. reflexivity.
    + reflexivity.
Defined.

(** C4, the claim as stated fails: the failure that ["1/0"] returns has
    the type ["DiceError"], which is not ["RuntimeError"] and is none of the
    four types of the taxonomy. *)
Lemma division_by_zero_type_outside_taxonomy :
  exists type message position input,
    roll_dice (tape []) fresh "1/0" = Failure type message position input
    /\ type <> "RuntimeError"
    /\ ~ In type taxonomy.
Proof.
  exists "DiceError", "Division by zero", None, "1/0".
  split; [vm_compute; reflexivity|].
  split; [discriminate|].
  cbn. intros [H|[H|[H|[H|[]]]]]; discriminate.
Qed.

(** ** Success counting *)

Lemma score_pool_successes count sides kind modifiers comp pool s kept_values :
  comparator modifiers = Some comp ->
  match keep modifiers with
  | Some spec => exists kept, _apply_keep_drop pool spec s = Ok (kept, s)
                              /\ kept_values = Some kept
  | None => kept_values = None
  end ->
  exists t,
    score_pool count sides kind modifiers pool s
    = Ok (snd (_count_successes
                 (display_sort (sort modifiers) pool) comp kept_values),
          mkEvaluator (rng s) (traces s ++ [t]))
    /\ successes t
       = Some (snd (_count_successes
                      (display_sort (sort modifiers) pool) comp kept_values))
    /\ sum t = None.
Proof.
  intros Hc Hk. unfold score_pool. rewrite Hc.
  destruct (keep modifiers) as [spec|].
  - destruct Hk as (kept & Hkd & ->).
    assert (Hin : bind (_apply_keep_drop pool spec)
                       (fun kept => ret (Some kept)) s = Ok (Some kept, s))
      by (rewrite (bind_step _ _ _ _ _ Hkd); reflexivity).
    rewrite (bind_step _ _ _ _ _ Hin).
    destruct (_count_successes _ comp (Some kept)) as [marked n] eqn:Hn.
    eexists. cbn. split; [reflexivity | split; reflexivity].
  - subst kept_values. unfold bind at 1. unfold ret at 1.
    destruct (_count_successes _ comp None) as [marked n] eqn:Hn.
    eexists. cbn. split; [reflexivity | split; reflexivity].
Qed.

Lemma filter_length_perm {A} (f : A -> bool) l l' :
  Permutation l l' ->
  List.length (filter f l) = List.length (filter f l').
Proof.
  induction 1 as [|x l l' _ IH|x y l|l l' l'' _ IH1 _ IH2]; cbn.
  - reflexivity.
  - destruct (f x); cbn; congruence.
  - destruct (f x), (f y); reflexivity.
  - congruence.
Qed.

Lemma count_meeting_perm comp l l' :
  Permutation l l' -> count_meeting comp l = count_meeting comp l'.
Proof.
  intros H. unfold count_meeting. f_equal. apply filter_length_perm. exact H.
Qed.

Lemma count_without_keep order comp pool :
  snd (_count_successes (display_sort order pool) comp None)
  = count_meeting comp (map value pool).
Proof.
  cbn. apply count_meeting_perm.
  apply Permutation_map. apply display_sort_perm.
Qed.

Lemma count_with_keep order comp pool kept :
  snd (_count_successes (display_sort order pool) comp (Some kept))
  = count_meeting comp kept.
Proof. reflexivity. Qed.

Lemma count_meeting_all comp l :
  Forall (fun v => _check_condition v comp = true) l ->
  count_meeting comp l = Z.of_nat (List.length l).
Proof.
  intros H. unfold count_meeting. f_equal.
  induction H as [|v l Hv _ IH]; cbn; [reflexivity|].
  rewrite Hv. cbn. congruence.
Qed.

Lemma result_kind_from_traces trs :
  existsb has_successes trs = true
  <-> Exists (fun t => successes t <> None) trs.
Proof.
  rewrite existsb_exists, Exists_exists.
  split; intros (t & Hin & Ht); exists t; (split; [assumption|]);
    unfold has_successes in *; destruct (successes t); congruence.
Qed.

(** C2: a dice term with a success comparator evaluates to the number of
    values that meet the comparator, taken from the kept values when the
    term has a keep/drop modifier and from the values of all its dice
    otherwise, and records that number as the trace's success count;
    ["5d6>=1"] gives 5 whatever the entropy; and an expression is of kind
    [SUCCESS_COUNT] exactly when one of its traces has a success count,
    also when it mixes sum terms and success terms, as ["5d6>=3+2d4"]. *)
Theorem success_term_counts_qualifying_rolls :
  (forall E count sides kind modifiers comp s pool s1,
     comparator modifiers = Some comp ->
     dice_pool E count sides kind modifiers s = Ok (pool, s1) ->
     match keep modifiers with
     | None =>
         exists s' t,
           _eval_dice E count sides kind modifiers s
           = Ok (count_meeting comp (map value pool), s')
           /\ traces s' = traces s1 ++ [t]
           /\ successes t = Some (count_meeting comp (map value pool))
     | Some spec =>
         forall kept,
           _apply_keep_drop pool spec s1 = Ok (kept, s1) ->
           exists s' t,
             _eval_dice E count sides kind modifiers s
             = Ok (count_meeting comp kept, s')
             /\ traces s' = traces s1 ++ [t]
             /\ successes t = Some (count_meeting comp kept)
     end)
  /\ (forall E r expression final kind trs,
        roll_dice E r expression = Success final kind trs ->
        (kind = SUCCESS_COUNT <-> Exists (fun t => successes t <> None) trs))
  /\ (forall E r, randbelow_in_range E ->
        exists trs,
          roll_dice E r "5d6>=1" = Success (PyInt 5) SUCCESS_COUNT trs)
  /\ (exists t1 t2,
        roll_dice (tape [x00; x01; x02; x03; x04]) fresh "5d6>=3+2d4"
        = Success (PyInt 5) SUCCESS_COUNT [t1; t2]
        /\ successes t1 = Some 3 /\ sum t1 = None
        /\ successes t2 = None /\ sum t2 = Some 2).
Proof.
  split; [|split; [|split]].
  - intros E count sides kind modifiers comp s pool s1 Hc Hpool.
    unfold _eval_dice. rewrite (bind_step _ _ _ _ _ Hpool).
    destruct (keep modifiers) as [spec|] eqn:Hk.
    + intros kept Hkept.
      destruct (score_pool_successes count sides kind modifiers comp pool s1
                  (Some kept) Hc) as (t & Heq & Hs & _).
      { rewrite Hk. eauto. }
      rewrite count_with_keep in Heq, Hs.
      eexists _, t. split; [exact Heq|]. split; [reflexivity | exact Hs].
    + destruct (score_pool_successes count sides kind modifiers comp pool s1
                  None Hc) as (t & Heq & Hs & _).
      { rewrite Hk. reflexivity. }
      rewrite count_without_keep in Heq, Hs.
      eexists _, t. split; [exact Heq|]. split; [reflexivity | exact Hs].
  - intros E r expression final kind trs H. unfold roll_dice in H.
    destruct (parse _) as [[tree p]|e]; [|destruct e; discriminate].
    destruct (evaluate E r tree) as [[result trs0]|e]; [|destruct e; discriminate].
    destruct (coerce_final result tt) as [[final0 u]|e]; [|destruct e; discriminate].
    injection H as _ <- <-.
    rewrite <- result_kind_from_traces.
    destruct (existsb has_successes trs0); split; congruence.
  - intros E r HE.
    set (mods := mkModifiers None None None None
                             (Some (mkCondition OpGe (Num 1)))).
    assert (Hparse : exists p, parse (new_DiceParser "5d6>=1")
                               = Ok (Dice 5 6 Standard mods, p))
      by (eexists; vm_compute; reflexivity).
    destruct Hparse as (p & Hparse).
    assert (H6 : Standard = Fate \/ 1 <= 6 <= MAX_SIDES)
      by (right; unfold MAX_SIDES; lia).
    destruct (roll_all_total E 6 Standard 5 (mkEvaluator r []) HE H6)
      as (pool & s1 & Hroll).
    pose proof (keeps_traces_roll_all _ _ _ _ _ _ _ Hroll) as Htr.
    destruct (roll_all_fresh _ _ _ _ _ _ _ HE Hroll) as [Hlen Hdom].
    assert (Hpool : dice_pool E 5 6 Standard mods (mkEvaluator r [])
                    = Ok (pool, s1)).
    { unfold dice_pool.
      change (Z.to_nat 5) with 5%nat.
      rewrite (bind_step _ _ _ _ _ Hroll). reflexivity. }
    assert (Hall : Forall (fun v => _check_condition v (mkCondition OpGe (Num 1))
                                    = true) (map value pool)).
    { rewrite Forall_map. eapply Forall_impl; [|exact Hdom].
      intros d (Hv & _). cbn in Hv |- *.
      unfold _check_condition. cbn.
      destruct (Z.geb_spec (value d) 1); [reflexivity | lia]. }
    destruct (score_pool_successes 5 6 Standard mods
                (mkCondition OpGe (Num 1)) pool s1 None eq_refl eq_refl)
      as (t & Heq & Hs & _).
    rewrite count_without_keep, (count_meeting_all _ _ Hall),
      length_map, Hlen in Heq, Hs.
    assert (Hdice : _eval_dice E 5 6 Standard mods (mkEvaluator r [])
                    = Ok (5, mkEvaluator (rng s1) (traces s1 ++ [t]))).
    { unfold _eval_dice. rewrite (bind_step _ _ _ _ _ Hpool). exact Heq. }
    exists (traces s1 ++ [t]).
    unfold roll_dice, evaluate. rewrite Hparse. cbn [_eval_node].
    rewrite (bind_step _ _ _ _ _ Hdice).
    cbn [ret traces coerce_final].
    replace (existsb has_successes (traces s1 ++ [t])) with true;
      [reflexivity|].
    rewrite existsb_app. cbn [existsb]. unfold has_successes at 2.
    rewrite Hs. rewrite orb_true_r. reflexivity.
  - eexists _, _. split; [vm_compute; reflexivity|].
    repeat split.
Qed.

(** ** Keep and drop *)

Lemma slice_to_incl {A} i (l : list A) : incl (slice_to i l) l.
Proof.
  intros x Hx. unfold slice_to in Hx.
  rewrite <- (firstn_skipn (slice_index l i) l). apply in_or_app. auto.
Qed.

Lemma slice_from_incl {A} i (l : list A) : incl (slice_from i l) l.
Proof.
  intros x Hx. unfold slice_from in Hx.
  rewrite <- (firstn_skipn (slice_index l i) l). apply in_or_app. auto.
Qed.

Lemma _apply_keep_drop_ok pool spec s :
  keep_count spec <= Z.of_nat (List.length pool) ->
  exists kept, _apply_keep_drop pool spec s = Ok (kept, s).
Proof.
  intros H. unfold _apply_keep_drop. rewrite length_map.
  destruct (Z.gtb_spec (keep_count spec) (Z.of_nat (List.length pool))); [lia|].
  eexists. reflexivity.
Qed.

(** The kept values are totals of dice of the pool. *)
Lemma _apply_keep_drop_totals pool spec s kept s' :
  _apply_keep_drop pool spec s = Ok (kept, s') ->
  forall v, In v kept -> exists d, In d pool /\ v = value d + zsum (explodes d).
Proof.
  unfold _apply_keep_drop. destruct (_ >? _); [discriminate|].
  intros H v Hv. injection H as <- _.
  assert (Hin : In v (sorted_desc (map die_total pool))).
  { destruct (keep_mode spec);
      [eapply slice_to_incl | eapply slice_from_incl
       | eapply slice_from_incl | eapply slice_to_incl]; eassumption. }
  unfold sorted_desc in Hin.
  apply (Permutation_in _ (sort_by_perm _ _)) in Hin.
  apply in_map_iff in Hin as (d & <- & Hd). exists d. split; [assumption|].
  reflexivity.
Qed.

(** C10: without a keep/drop modifier a success term counts the dice whose
    face value meets the comparator, whatever their explosions; with one it
    counts among the kept values, each of which is the total of a die, its
    face value plus its explosion increments.  With the draws 6 and 3,
    ["1d6!>5>=7"] has no success (6 is below 7) and ["1d6!>5kh1>=7"] has
    one (6 + 3 is not). *)
Theorem success_judged_on_face_value_unless_kept :
  (forall count sides kind re ex so comp pool s,
     exists s',
       score_pool count sides kind (mkModifiers re ex None so (Some comp)) pool s
       = Ok (count_meeting comp (map value pool), s'))
  /\ (forall count sides kind re ex spec so comp pool s,
        keep_count spec <= Z.of_nat (List.length pool) ->
        exists kept s',
          _apply_keep_drop pool spec s = Ok (kept, s)
          /\ score_pool count sides kind
               (mkModifiers re ex (Some spec) so (Some comp)) pool s
             = Ok (count_meeting comp kept, s')
          /\ forall v, In v kept ->
               exists d, In d pool /\ v = value d + zsum (explodes d))
  /\ roll_dice (tape [x05; x02]) fresh "1d6!>5>=7"
     = Success (PyInt 0) SUCCESS_COUNT
         [mkDiceTrace "1d6!>5>=7" [mkDieRoll 6 [] [3] (Some false)]
                      None None (Some ">=7") (Some 0)]
  /\ roll_dice (tape [x05; x02]) fresh "1d6!>5kh1>=7"
     = Success (PyInt 1) SUCCESS_COUNT
         [mkDiceTrace "1d6!>5kh1>=7" [mkDieRoll 6 [] [3] (Some false)]
                      None None (Some ">=7") (Some 1)].
Proof.
  split; [|split; [|split]].
  - intros count sides kind re ex so comp pool s.
    destruct (score_pool_successes count sides kind
                (mkModifiers re ex None so (Some comp)) comp pool s None
                eq_refl eq_refl) as (t & Heq & _).
    rewrite count_without_keep in Heq. eexists. exact Heq.
  - intros count sides kind re ex spec so comp pool s Hk.
    destruct (_apply_keep_drop_ok pool spec s Hk) as (kept & Hkept).
    destruct (score_pool_successes count sides kind
                (mkModifiers re ex (Some spec) so (Some comp)) comp pool s
                (Some kept) eq_refl) as (t & Heq & _).
    { cbn. eauto. }
    rewrite count_with_keep in Heq.
    exists kept. eexists. split; [exact Hkept|]. split; [exact Heq|].
    eapply _apply_keep_drop_totals. eassumption.
  - vm_compute. reflexivity.
  - vm_compute. reflexivity.
Qed.

Lemma slice_index_nonneg {A} (l : list A) i :
  0 <= i <= Z.of_nat (List.length l) -> slice_index l i = Z.to_nat i.
Proof.
  intros H. unfold slice_index.
  destruct (Z.ltb_spec i 0); [lia|]. f_equal. lia.
Qed.

Lemma slice_index_neg {A} (l : list A) i :
  0 < i <= Z.of_nat (List.length l) ->
  slice_index l (- i) = (List.length l - Z.to_nat i)%nat.
Proof.
  intros H. unfold slice_index.
  destruct (Z.ltb_spec (- i) 0); [|lia]. lia.
Qed.

Lemma sort_by_length {A} (before : A -> A -> bool) l :
  List.length (sort_by before l) = List.length l.
Proof. apply Permutation_length. apply sort_by_perm. Qed.

(** X1: away from the two ends keep and drop are complementary on every
    pool of [N] dice: drop-highest [K] keeps the values that keep-lowest
    [N - K] keeps as long as [K < N], and drop-lowest [K] those that
    keep-highest [N - K] keeps as long as [0 < K]. *)
Lemma keep_drop_complementary_inside pool K s :
  let N := Z.of_nat (List.length pool) in
  (0 <= K < N ->
   _apply_keep_drop pool (mkKeep dh K) s
   = _apply_keep_drop pool (mkKeep kl (N - K)) s)
  /\ (0 < K <= N ->
      _apply_keep_drop pool (mkKeep dl K) s
      = _apply_keep_drop pool (mkKeep kh (N - K)) s).
Proof.
  intros N. subst N. unfold _apply_keep_drop. cbn [keep_count keep_mode].
  rewrite length_map.
  pose proof (sort_by_length Z.geb (map die_total pool)) as Hlen.
  rewrite length_map in Hlen. fold (sorted_desc (map die_total pool)) in Hlen.
  split; intros HK.
  - destruct (Z.gtb_spec K (Z.of_nat (List.length pool))); [lia|].
    destruct (Z.gtb_spec (Z.of_nat (List.length pool) - K)
                         (Z.of_nat (List.length pool))); [lia|].
    unfold slice_from.
    rewrite slice_index_nonneg, slice_index_neg by (rewrite Hlen; lia).
    rewrite Hlen. do 3 f_equal. lia.
  - destruct (Z.gtb_spec K (Z.of_nat (List.length pool))); [lia|].
    destruct (Z.gtb_spec (Z.of_nat (List.length pool) - K)
                         (Z.of_nat (List.length pool))); [lia|].
    unfold slice_to.
    rewrite slice_index_neg, slice_index_nonneg by (rewrite Hlen; lia).
    rewrite Hlen. do 3 f_equal. lia.
Qed.

(** C3: at the two ends the complement fails.  On the outcomes 1, 2, 3,
    drop-highest 3 keeps nothing while keep-lowest 0 keeps all three dice,
    and drop-lowest 0 keeps nothing while keep-highest 3 keeps all three:
    the sums are 0 against 6. *)
Theorem keep_drop_complement_fails_at_the_ends :
  (forall s,
     let pool := [new_DieRoll 1; new_DieRoll 2; new_DieRoll 3] in
     _apply_keep_drop pool (mkKeep dh 3) s = Ok ([], s)
     /\ _apply_keep_drop pool (mkKeep kl 0) s = Ok ([3; 2; 1], s)
     /\ _apply_keep_drop pool (mkKeep dl 0) s = Ok ([], s)
     /\ _apply_keep_drop pool (mkKeep kh 3) s = Ok ([3; 2; 1], s))
  /\ (exists t1 t2 t3 t4,
        roll_dice (tape [x00; x01; x02]) fresh "3d6dh3"
        = Success (PyInt 0) SUM [t1]
        /\ roll_dice (tape [x00; x01; x02]) fresh "3d6kl0"
           = Success (PyInt 6) SUM [t2]
        /\ roll_dice (tape [x00; x01; x02]) fresh "3d6dl0"
           = Success (PyInt 0) SUM [t3]
        /\ roll_dice (tape [x00; x01; x02]) fresh "3d6kh3"
           = Success (PyInt 6) SUM [t4]
        /\ map value (rolls t1) = [1; 2; 3]
        /\ map value (rolls t2) = [1; 2; 3]
        /\ map value (rolls t3) = [1; 2; 3]
        /\ map value (rolls t4) = [1; 2; 3]).
Proof.
  split.
  - intros s. cbv zeta. repeat split.
  - eexists _, _, _, _.
    split; [vm_compute; reflexivity|].
    split; [vm_compute; reflexivity|].
    split; [vm_compute; reflexivity|].
    split; [vm_compute; reflexivity|].
    repeat split.
Qed.

(** ** The tokenizer *)

Lemma span_len_le p s : (span_len p s <= List.length s)%nat.
Proof.
  induction s as [|c s IH]; cbn; [lia|]. destruct (p c); cbn; lia.
Qed.

Lemma lit_le q : forall s n, lit q s = Some n -> (n <= List.length s)%nat.
Proof.
  induction q as [|a q IH]; intros s n H; cbn [lit] in H.
  - injection H as <-. lia.
  - destruct s as [|c s]; [discriminate|].
    destruct (Ascii.eqb (lower_char c) a); [|discriminate].
    destruct (lit q s) as [m|] eqn:Hm; [|discriminate].
    injection H as <-. apply IH in Hm. cbn. lia.
Qed.

Lemma first_of_le alts s :
  Forall (fun a => forall n, a s = Some n -> (n <= List.length s)%nat) alts ->
  forall n, first_of alts s = Some n -> (n <= List.length s)%nat.
Proof.
  induction 1 as [|a alts Ha _ IH]; intros n H; cbn [first_of] in H.
  - discriminate.
  - destruct (a s) as [m|] eqn:Hm; [|auto].
    injection H as <-. auto.
Qed.

Lemma lits_le ps s :
  Forall (fun a => forall n, a s = Some n -> (n <= List.length s)%nat) (lits ps).
Proof.
  unfold lits. rewrite Forall_map. apply Forall_forall.
  intros q _ n. apply lit_le.
Qed.

Lemma alt_d_digits_le s n : alt_d_digits s = Some n -> (n <= List.length s)%nat.
Proof.
  unfold alt_d_digits. destruct s as [|c s]; [discriminate|].
  destruct (lit (chars "d") (c :: s)); [|discriminate].
  cbn [tl]. pose proof (span_len_le is_digit s) as Hle.
  destruct (span_len is_digit s); [discriminate|].
  intros Hn. injection Hn as <-. cbn. lia.
Qed.

Lemma alt_comment_le s n : alt_comment s = Some n -> (n <= List.length s)%nat.
Proof.
  unfold alt_comment. destruct s as [|c s]; [discriminate|].
  destruct (lit (chars "#") (c :: s)); [|discriminate].
  cbn [tl]. pose proof (span_len_le (fun c => negb (code c =? 10)%N) s) as Hle.
  intros Hn. injection Hn as <-. cbn. lia.
Qed.

Lemma span_alt_le p s n :
  match span_len p s with O => None | m => Some m end = Some n ->
  (n <= List.length s)%nat.
Proof.
  pose proof (span_len_le p s) as Hle. destruct (span_len p s); [discriminate|].
  intros Hn. injection Hn as <-. lia.
Qed.

Lemma first_group_le alts s :
  Forall (fun a => forall n, a s = Some n -> (n <= List.length s)%nat) alts ->
  forall g0 g n, first_group g0 alts s = Some (g, n) -> (n <= List.length s)%nat.
Proof.
  induction 1 as [|a alts Ha _ IH]; intros g0 g n H; cbn [first_group] in H.
  - discriminate.
  - destruct (a s) as [m|] eqn:Hm; [|eauto].
    injection H as _ <-. auto.
Qed.

(** A match never runs past the end of the text. *)
Lemma TOKEN_PATTERN_le s g n :
  TOKEN_PATTERN s = Some (g, n) -> (n <= List.length s)%nat.
Proof.
  unfold TOKEN_PATTERN. apply first_group_le.
  repeat constructor; intros m;
    try apply span_alt_le; try apply alt_d_digits_le; try apply alt_comment_le;
    unfold alt_dice, alt_keep, alt_reroll_explode, alt_comparator, alt_sort,
      alt_operator;
    apply first_of_le; try apply lits_le.
  apply Forall_app. split; [apply lits_le|].
  constructor; [intros k; apply alt_d_digits_le | apply lits_le].
Qed.

(** Every token starts at a character of the text. *)
Lemma finditer_positions : forall s at_pos inside,
  Forall (fun t => (at_pos <= pos t < at_pos + List.length s)%nat)
         (finditer s at_pos inside).
Proof.
  induction s as [|c s IH]; intros at_pos inside; cbn [finditer].
  - constructor.
  - assert (Hrest : forall k,
               Forall (fun t => (at_pos <= pos t
                                 < at_pos + List.length (c :: s))%nat)
                      (finditer s (S at_pos) k)).
    { intros k. eapply Forall_impl; [|apply IH]. cbn. intros t Ht. lia. }
    destruct inside; [|apply Hrest].
    destruct (TOKEN_PATTERN (c :: s)) as [[g n]|]; [|apply Hrest].
    destruct ((g =? 9)%nat || (g =? 8)%nat); [apply Hrest|].
    constructor; [cbn; lia | apply Hrest].
Qed.

Lemma slen_chars s : slen s = List.length (chars s).
Proof.
  unfold slen, chars. induction s as [|c s IH]; cbn; congruence.
Qed.

Lemma _tokenize_positions t :
  Forall (fun tok => (pos tok < slen t)%nat) (_tokenize t).
Proof.
  unfold _tokenize. rewrite slen_chars.
  eapply Forall_impl; [|apply finditer_positions]. cbn. intros tok H. lia.
Qed.

(** Characters outside the lexemes. *)

Lemma span_len_stop p c s1 s2 :
  p c = false -> span_len p (s1 ++ c :: s2) = span_len p s1.
Proof.
  intros Hc. induction s1 as [|a s1 IH]; cbn.
  - rewrite Hc. reflexivity.
  - destruct (p a); congruence.
Qed.

Lemma lit_stop q c : forall s1 s2,
  (forall a, In a q -> lower_char c <> a) ->
  lit q (s1 ++ c :: s2) = lit q s1.
Proof.
  induction q as [|a q IH]; intros s1 s2 Hc; [reflexivity|].
  destruct s1 as [|b s1]; cbn.
  - destruct (Ascii.eqb_spec (lower_char c) a) as [Heq|_]; [|reflexivity].
    exfalso. eapply Hc; [left; reflexivity | exact Heq].
  - destruct (Ascii.eqb (lower_char b) a); [|reflexivity].
    rewrite IH; [reflexivity|]. intros x Hx. apply Hc. right. exact Hx.
Qed.

Lemma first_of_ext alts s s' :
  Forall (fun a => a s = a s') alts -> first_of alts s = first_of alts s'.
Proof.
  induction 1 as [|a alts Ha _ IH]; cbn; [reflexivity|].
  rewrite Ha, IH. reflexivity.
Qed.

Lemma first_group_ext alts s s' :
  Forall (fun a => a s = a s') alts ->
  forall g, first_group g alts s = first_group g alts s'.
Proof.
  induction 1 as [|a alts Ha _ IH]; intros g; cbn; [reflexivity|].
  rewrite Ha, IH. reflexivity.
Qed.

Lemma alien_letters c :
  lexeme_char c = false ->
  forall a, In a (chars "d%f0khlro!p>=<sa+-*/()#") -> lower_char c <> a.
Proof.
  unfold lexeme_char. intros H a Ha Heq.
  apply orb_false_iff in H as [_ H].
  assert (existsb (Ascii.eqb (lower_char c)) (chars "d%f0khlro!p>=<sa+-*/()#")
          = true); [|congruence].
  apply existsb_exists. exists a. split; [assumption|].
  apply Ascii.eqb_eq. assumption.
Qed.

Lemma lits_stop ps c s1 s2 :
  lexeme_char c = false ->
  forallb (fun q => forallb (fun a => existsb (Ascii.eqb a)
                                        (chars "d%f0khlro!p>=<sa+-*/()#"))
                            (chars q)) ps = true ->
  Forall (fun a => a (s1 ++ c :: s2) = a s1) (lits ps).
Proof.
  intros Hc Hps. unfold lits. rewrite Forall_map. apply Forall_forall.
  intros q Hq. apply lit_stop. intros a Ha.
  apply alien_letters; [assumption|].
  rewrite forallb_forall in Hps. specialize (Hps q Hq).
  rewrite forallb_forall in Hps. specialize (Hps a Ha).
  apply existsb_exists in Hps as (x & Hx & Heq).
  apply Ascii.eqb_eq in Heq. subst. assumption.
Qed.

Lemma tl_app_cons {A} (s1 : list A) c s2 :
  s1 <> [] -> tl (s1 ++ c :: s2) = tl s1 ++ c :: s2.
Proof. destruct s1; [congruence | reflexivity]. Qed.

Lemma lower_char_hash a : lower_char a = "#"%char -> a = "#"%char.
Proof.
  destruct a as [b0 b1 b2 b3 b4 b5 b6 b7].
  destruct b0, b1, b2, b3, b4, b5, b6, b7; vm_compute;
    intros H; try reflexivity; discriminate.
Qed.

(** Before a character of no lexeme, and outside a comment, the pattern
    matches as if the text ended there. *)
Lemma TOKEN_PATTERN_stop c s1 s2 :
  lexeme_char c = false -> s1 <> [] -> hd c s1 <> "#"%char ->
  TOKEN_PATTERN (s1 ++ c :: s2) = TOKEN_PATTERN s1.
Proof.
  intros Hc Hne Hhash. unfold TOKEN_PATTERN.
  assert (Hd : is_digit c = false /\ is_space c = false).
  { unfold lexeme_char in Hc. apply orb_false_iff in Hc as [Hc _].
    apply orb_false_iff in Hc. exact Hc. }
  destruct Hd as [Hdigit Hspace].
  assert (Hlit : forall q,
             (forall a, In a (chars q) ->
                        In a (chars "d%f0khlro!p>=<sa+-*/()#")) ->
             lit (chars q) (s1 ++ c :: s2) = lit (chars q) s1).
  { intros q Hq. apply lit_stop. intros a Ha.
    apply alien_letters; auto. }
  assert (Hdd : alt_d_digits (s1 ++ c :: s2) = alt_d_digits s1).
  { unfold alt_d_digits. rewrite Hlit by (cbn; intuition).
    rewrite tl_app_cons, span_len_stop by assumption. reflexivity. }
  apply first_group_ext.
  repeat constructor.
  - unfold alt_number. rewrite span_len_stop by assumption. reflexivity.
  - unfold alt_dice. apply first_of_ext. apply Forall_app.
    split; [apply lits_stop; [assumption | reflexivity]|].
    constructor; [exact Hdd | apply lits_stop; [assumption | reflexivity]].
  - unfold alt_keep. apply first_of_ext, lits_stop; [assumption | reflexivity].
  - unfold alt_reroll_explode.
    apply first_of_ext, lits_stop; [assumption | reflexivity].
  - unfold alt_comparator.
    apply first_of_ext, lits_stop; [assumption | reflexivity].
  - unfold alt_sort. apply first_of_ext, lits_stop; [assumption | reflexivity].
  - unfold alt_operator.
    apply first_of_ext, lits_stop; [assumption | reflexivity].
  - unfold alt_comment. rewrite Hlit by (cbn; intuition).
    destruct s1 as [|a s1]; [congruence|]. cbn [hd] in Hhash.
    cbn [lit chars list_ascii_of_string].
    destruct (Ascii.eqb_spec (lower_char a) "#"%char) as [Heq|_]; [|reflexivity].
    apply lower_char_hash in Heq. contradiction.
  - unfold alt_space. rewrite span_len_stop by assumption. reflexivity.
Qed.

Lemma TOKEN_PATTERN_alien c s :
  lexeme_char c = false -> TOKEN_PATTERN (c :: s) = None.
Proof.
  intros Hc.
  assert (Hd : is_digit c = false /\ is_space c = false).
  { unfold lexeme_char in Hc. apply orb_false_iff in Hc as [Hc' _].
    apply orb_false_iff in Hc'. exact Hc'. }
  destruct Hd as [Hdigit Hspace].
  assert (Hlit : forall q,
             q <> EmptyString ->
             (forall a, In a (chars q) ->
                        In a (chars "d%f0khlro!p>=<sa+-*/()#")) ->
             lit (chars q) (c :: s) = None).
  { intros q Hq Hin. destruct q as [|a q]; [congruence|].
    cbn [chars list_ascii_of_string lit].
    destruct (Ascii.eqb_spec (lower_char c) a) as [Heq|_]; [|reflexivity].
    exfalso. eapply alien_letters; [exact Hc| |exact Heq].
    apply Hin. left. reflexivity. }
  unfold TOKEN_PATTERN, alt_number, alt_dice, alt_keep, alt_reroll_explode,
    alt_comparator, alt_sort, alt_operator, alt_comment, alt_space,
    alt_d_digits.
  cbn [first_group span_len lits map app first_of].
  rewrite Hdigit, Hspace.
  repeat (rewrite Hlit by (try discriminate; cbn; intuition)).
  reflexivity.
Qed.

(** The tokens of a text that holds a character of no lexeme, outside a
    comment: those before the character, followed by those after it. *)
Lemma finditer_alien c s2 : forall s1 at_pos inside,
  lexeme_char c = false -> ~ In "#"%char s1 ->
  (inside <= List.length s1)%nat ->
  finditer (s1 ++ c :: s2) at_pos inside
  = finditer s1 at_pos inside
    ++ finditer s2 (S (at_pos + List.length s1)) O.
Proof.
  induction s1 as [|a s1 IH]; intros at_pos inside Hc Hhash Hin.
  - cbn [app List.length] in *.
    assert (inside = O) as -> by lia.
    cbn [finditer]. rewrite TOKEN_PATTERN_alien by assumption.
    rewrite Nat.add_0_r. reflexivity.
  - assert (Hhash' : ~ In "#"%char s1) by (intros H; apply Hhash; right; exact H).
    assert (Hshift : forall k, (k <= List.length s1)%nat ->
               finditer (s1 ++ c :: s2) (S at_pos) k
               = finditer s1 (S at_pos) k
                 ++ finditer s2 (S (at_pos + List.length (a :: s1))) O).
    { intros k Hk. rewrite IH by assumption.
      cbn [List.length]. do 3 f_equal. lia. }
    change ((a :: s1) ++ c :: s2) with (a :: (s1 ++ c :: s2)).
    cbn [finditer].
    destruct inside as [|inside].
    + change (a :: (s1 ++ c :: s2)) with ((a :: s1) ++ c :: s2).
      rewrite TOKEN_PATTERN_stop;
        [|assumption | discriminate
         | cbn [hd]; intros ->; apply Hhash; left; reflexivity].
      destruct (TOKEN_PATTERN (a :: s1)) as [[g n]|] eqn:Hm.
      * pose proof (TOKEN_PATTERN_le _ _ _ Hm) as Hn. cbn [List.length] in Hn.
        rewrite Hshift by lia.
        destruct ((g =? 9)%nat || (g =? 8)%nat); [reflexivity|].
        rewrite firstn_app.
        replace (n - List.length (a :: s1))%nat with O by (cbn; lia).
        cbn [firstn]. rewrite app_nil_r. reflexivity.
      * apply Hshift. lia.
    + apply Hshift. cbn [List.length] in Hin. lia.
Qed.



(** ** The parser: located errors, and enough fuel *)

Lemma bind_get {A} (k : DiceParser -> P A) p : bind get k p = k p p.
Proof. reflexivity. Qed.

Lemma bind_peek {A} offset (k : option string -> P A) p :
  bind (peek offset) k p
  = k (option_map tok_text
         (nth_error (tokens (tokenizer p)) (position (tokenizer p) + offset))) p.
Proof. reflexivity. Qed.

Lemma bind_at_end {A} (k : bool -> P A) p :
  bind at_end k p
  = k (List.length (tokens (tokenizer p)) <=? position (tokenizer p))%nat p.
Proof. reflexivity. Qed.

Lemma bind_text_len {A} (k : nat -> P A) p :
  bind text_len k p = k (slen (text (tokenizer p))) p.
Proof. reflexivity. Qed.

Lemma bind_no_number_next {A} (k : bool -> P A) p :
  exists b, bind no_number_next k p = k b p.
Proof.
  unfold no_number_next, at_end, peek, get, bind, ret.
  destruct (_ <=? _)%nat; eexists; reflexivity.
Qed.

(** The three ways [consume] ends: past the last token it raises at the
    end of the text; otherwise it moves on by one token and returns it, or
    raises at that token when another one was expected. *)
Lemma consume_cases expected p :
  match nth_error (tokens (tokenizer p)) (position (tokenizer p)) with
  | None =>
      exists msg,
        consume expected p
        = Raise (ParseError msg (slen (text (tokenizer p)))
                            (text (tokenizer p)))
  | Some token =>
      consume expected p
      = Ok (tok_text token,
            mkParser (mkTokenizer (text (tokenizer p)) (tokens (tokenizer p))
                                  (S (position (tokenizer p))))
                     (recursion_depth p))
      \/ exists msg,
           consume expected p
           = Raise (ParseError msg (pos token) (text (tokenizer p)))
  end.
Proof.
  unfold consume, bind, get, set_position, parse_error, the_text, text_len,
    ret, raise.
  destruct (nth_error (tokens (tokenizer p)) (position (tokenizer p)))
    as [token|].
  - destruct expected as [e|]; [|left; reflexivity].
    destruct (negb (String.eqb e EmptyString)
              && negb (String.eqb (lower (tok_text token)) (lower e)));
      [right; eexists; reflexivity | left; reflexivity].
  - destruct expected as [e|]; [destruct (String.eqb e EmptyString)|];
      eexists; reflexivity.
Qed.

Section ParserInvariant.

Variable T : Tokenizer.
Hypothesis tokens_inside :
  Forall (fun t => (pos t <= slen (text T))%nat) (tokens T).

Lemma good_ret {A} (a : A) p : same_input T p -> good T p (ret a p).
Proof. intros Hs. cbn. split; [assumption | lia]. Qed.

Lemma good_raise {A} e p :
  located T e -> e <> exhausted -> good T p (@raise _ A e p).
Proof. intros Hl He. cbn. split; assumption. Qed.

Lemma good_later {A} p p1 (r : outcome (A * DiceParser)) :
  (position (tokenizer p) <= position (tokenizer p1))%nat ->
  good T p1 r -> good T p r.
Proof.
  intros Hle. destruct r as [[a p2]|e]; cbn; [|auto].
  intros [Hs Hp]. split; [assumption | lia].
Qed.

Lemma good_bind {A B} (m : P A) (k : A -> P B) p :
  good T p (m p) ->
  (forall a p1, m p = Ok (a, p1) -> same_input T p1 ->
                (position (tokenizer p) <= position (tokenizer p1))%nat ->
                good T p1 (k a p1)) ->
  good T p (bind m k p).
Proof.
  intros Hm Hk. unfold bind. destruct (m p) as [[a p1]|e] eqn:Heq.
  - cbn in Hm. destruct Hm as [Hs Hle].
    eapply good_later; [exact Hle | apply Hk; auto].
  - exact Hm.
Qed.

Lemma good_parse_error {A} msg w p :
  same_input T p -> (w <= slen (text T))%nat ->
  good T p (@parse_error A msg w p).
Proof.
  intros [Ht _] Hw. unfold parse_error, the_text, bind, get, ret, raise.
  cbn. rewrite Ht. repeat split; [assumption | discriminate].
Qed.

Lemma good_int_then {A} s (k : Z -> P A) p :
  (forall v, good T p (k v p)) -> good T p (bind (int_ s) k p).
Proof.
  intros Hk. unfold int_. destruct (py_int s) as [v|].
  - apply Hk.
  - cbn. split; [exact I | discriminate].
Qed.

Lemma good_token_pos_then {A} i (k : nat -> P A) p :
  same_input T p ->
  (forall w, (w <= slen (text T))%nat -> good T p (k w p)) ->
  good T p (bind (token_pos i) k p).
Proof.
  intros [_ Hk] Hcont. unfold token_pos, bind, get, ret, raise. rewrite Hk.
  destruct (nth_error (tokens T) i) as [t|] eqn:Hn.
  - apply Hcont.
    rewrite Forall_forall in tokens_inside.
    apply tokens_inside. eapply nth_error_In. eassumption.
  - cbn. split; [exact I | discriminate].
Qed.

Lemma good_here_or_end_then {A} (k : nat -> P A) p :
  same_input T p ->
  (forall w, (w <= slen (text T))%nat -> good T p (k w p)) ->
  good T p (bind here_or_end k p).
Proof.
  intros Hs Hcont. unfold here_or_end.
  change (good T p (bind (bind at_end (fun e => if e then text_len
           else bind get (fun p0 => token_pos (position (tokenizer p0))))) k p)).
  unfold bind at 1. rewrite bind_at_end.
  destruct (_ <=? _)%nat.
  - cbn. apply Hcont. destruct Hs as [-> _]. lia.
  - rewrite bind_get.
    pose proof (good_token_pos_then (position (tokenizer p)) k p Hs Hcont) as H.
    unfold bind in H. exact H.
Qed.

Lemma good_set_depth_then {A} d (k : unit -> P A) p :
  (forall p', tokenizer p' = tokenizer p -> good T p' (k tt p')) ->
  good T p (bind (set_depth d) k p).
Proof.
  intros Hk. unfold bind, set_depth.
  eapply good_later; [|apply Hk; reflexivity]. cbn. lia.
Qed.

Lemma good_consume_then {A} expected (k : string -> P A) p :
  same_input T p ->
  (forall t p', same_input T p' ->
                position (tokenizer p') = S (position (tokenizer p)) ->
                (position (tokenizer p) < List.length (tokens T))%nat ->
                good T p' (k t p')) ->
  good T p (bind (consume expected) k p).
Proof.
  intros Hs Hk. pose proof Hs as [Ht Htok].
  pose proof (consume_cases expected p) as Hc. unfold bind.
  destruct (nth_error (tokens (tokenizer p)) (position (tokenizer p)))
    as [token|] eqn:Hn.
  - assert (Hlt : (position (tokenizer p) < List.length (tokens T))%nat).
    { rewrite <- Htok. apply nth_error_Some. congruence. }
    assert (Hpos : (pos token <= slen (text T))%nat).
    { rewrite Forall_forall in tokens_inside. apply tokens_inside.
      rewrite <- Htok. eapply nth_error_In. eassumption. }
    destruct Hc as [Hc|(msg & Hc)]; rewrite Hc.
    + eapply good_later;
        [|apply Hk; [split; assumption | reflexivity | assumption]].
      cbn. lia.
    + cbn. rewrite Ht. repeat split; [assumption | discriminate].
  - destruct Hc as (msg & Hc). rewrite Hc. cbn. rewrite Ht.
    repeat split; [lia | discriminate].
Qed.

Ltac text_bound :=
  first [ assumption
        | lia
        | match goal with
          | Hs : same_input T ?p |- _ => rewrite (proj1 Hs); lia
          end ].

Ltac good_step :=
  match goal with
  | |- good _ _ (bind (peek _) _ _) => rewrite bind_peek
  | |- good _ _ (bind at_end _ _) => rewrite bind_at_end
  | |- good _ _ (bind get _ _) => rewrite bind_get
  | |- good _ _ (bind text_len _ _) => rewrite bind_text_len
  | |- good _ _ (bind no_number_next ?k ?p) =>
      let b := fresh "b" in let Hb := fresh "Hb" in
      destruct (bind_no_number_next k p) as [b Hb]; rewrite Hb; clear Hb
  | |- good _ _ (bind (int_ _) _ _) => apply good_int_then; intros ?
  | |- good _ _ (bind here_or_end _ _) =>
      apply good_here_or_end_then; [assumption | intros ? ?]
  | |- good _ _ (bind (token_pos _) _ _) =>
      apply good_token_pos_then; [assumption | intros ? ?]
  | |- good _ _ (parse_error _ _ _) =>
      apply good_parse_error; [assumption | text_bound]
  | |- good _ _ (ret _ _) => apply good_ret; assumption
  | |- good _ _ (raise _ _) => apply good_raise; [exact I | discriminate]
  | |- good _ _ ((if ?b then _ else _) _) => destruct b eqn:?
  | |- good _ _ ((match ?o with _ => _ end) _) => destruct o eqn:?
  | |- good _ _ (let '(_, _) := ?x in _) => destruct x
  end.

(** After a token has been consumed the tokens left are one fewer. *)
Lemma left_after_consume p p' n :
  same_input T p -> same_input T p' ->
  position (tokenizer p') = S (position (tokenizer p)) ->
  (tokens_left p <= S n)%nat -> (tokens_left p' <= n)%nat.
Proof.
  intros [_ Hk] [_ Hk'] Hp. unfold tokens_left. rewrite Hk, Hk'. lia.
Qed.

Lemma left_later p p' n :
  same_input T p -> same_input T p' ->
  (position (tokenizer p) <= position (tokenizer p'))%nat ->
  (tokens_left p <= n)%nat -> (tokens_left p' <= n)%nat.
Proof.
  intros [_ Hk] [_ Hk'] Hp. unfold tokens_left. rewrite Hk, Hk'. lia.
Qed.

Lemma not_at_end_left p :
  (List.length (tokens (tokenizer p)) <=? position (tokenizer p))%nat = false ->
  (tokens_left p <= 0)%nat -> False.
Proof.
  intros H. apply Nat.leb_gt in H. unfold tokens_left. lia.
Qed.

Lemma good_parse_condition op v p :
  same_input T p -> good T p (parse_condition op v p).
Proof.
  intros Hs. unfold parse_condition.
  repeat good_step.
  all: try (apply good_consume_then; [assumption|]; intros; repeat good_step).
  all: try (apply good_consume_then; [assumption|]; intros; repeat good_step).
Qed.

Lemma good_modifiers_loop : forall n mods p,
  same_input T p -> (tokens_left p <= n)%nat ->
  good T p (modifiers_loop n mods p).
Proof.
  induction n as [|n IH]; intros mods p Hs Hleft; cbn [modifiers_loop].
  - repeat good_step.
    exfalso. eapply not_at_end_left; eassumption.
  - assert (Hnext : forall p1 mods',
               same_input T p1 ->
               position (tokenizer p1) = S (position (tokenizer p)) ->
               forall p2, same_input T p2 ->
                 (position (tokenizer p1) <= position (tokenizer p2))%nat ->
                 good T p2 (modifiers_loop n mods' p2)).
    { intros p1 mods' Hs1 Hp1 p2 Hs2 Hp2. apply IH; [assumption|].
      apply (left_later p1 p2 n Hs1 Hs2 Hp2).
      apply (left_after_consume p p1 n Hs Hs1 Hp1 Hleft). }
    repeat good_step.
    + apply good_consume_then; [assumption|]. intros t p1 Hs1 Hp1 _.
      apply good_bind; [apply good_parse_condition; assumption|].
      intros c p2 _ Hs2 Hp2. apply (Hnext p1 _ Hs1 Hp1 p2 Hs2 Hp2).
    + apply good_consume_then; [assumption|]. intros t p1 Hs1 Hp1 _.
      apply good_bind; [apply good_parse_condition; assumption|].
      intros c p2 _ Hs2 Hp2. apply (Hnext p1 _ Hs1 Hp1 p2 Hs2 Hp2).
    + apply good_consume_then; [assumption|]. intros t p1 Hs1 Hp1 _.
      repeat good_step.
      apply good_consume_then; [assumption|]. intros t2 p2 Hs2 Hp2 _.
      repeat good_step.
      apply (Hnext p1 _ Hs1 Hp1 p2 Hs2). lia.
    + apply good_consume_then; [assumption|]. intros t p1 Hs1 Hp1 _.
      apply (Hnext p1 _ Hs1 Hp1 p1 Hs1). lia.
    + apply good_consume_then; [assumption|]. intros t p1 Hs1 Hp1 _.
      repeat good_step.
      apply good_consume_then; [assumption|]. intros t2 p2 Hs2 Hp2 _.
      repeat good_step.
Qed.

Lemma good_parse_dice_modifiers p :
  same_input T p -> good T p (parse_dice_modifiers p).
Proof.
  intros Hs. unfold parse_dice_modifiers. rewrite bind_get.
  apply good_modifiers_loop; [assumption | lia].
Qed.

Lemma good_parse_dice p : same_input T p -> good T p (parse_dice p).
Proof.
  intros Hs. unfold parse_dice. rewrite bind_peek.
  assert (Hrest : forall count p1,
             same_input T p1 ->
             good T p1
               ((die_token <- consume None ;;
                 p0 <- get ;;
                 if negb (startswith "d" (lower die_token)) then
                   w <- token_pos (position (tokenizer p0) - 1) ;;
                   parse_error ("Expected dice notation, got '"
                                ++ die_token ++ "'")%string w
                 else
                   let sides_str := lower (tail_str die_token) in
                   ' (sides, kind) <-
                     (if String.eqb sides_str "%" || String.eqb sides_str "00"
                      then ret (100, Percentile)
                      else if String.eqb sides_str "f"
                              || String.eqb sides_str "f.2"
                      then ret (3, Fate)
                      else match py_int sides_str with
                           | Some n => ret (n, Standard)
                           | None =>
                               w <- token_pos (position (tokenizer p0) - 1) ;;
                               parse_error ("Invalid dice sides '"
                                            ++ sides_str ++ "'")%string w
                           end) ;;
                   if count >? MAX_DICE then
                     raise (LimitError ("Cannot roll more than "
                                        ++ str MAX_DICE
                                        ++ " dice per term")%string)
                   else if sides >? MAX_SIDES then
                     raise (LimitError ("Die cannot have more than "
                                        ++ str MAX_SIDES ++ " sides")%string)
                   else if count <? 1 then
                     raise (SemanticError "Must roll at least 1 die")
                   else if sides <? 1 then
                     raise (SemanticError "Die must have at least 1 side")
                   else
                     modifiers <- parse_dice_modifiers ;;
                     ret (Dice count sides kind modifiers)) p1)).
  { intros count p1 Hs1.
    apply good_consume_then; [assumption|]. intros die_token p2 Hs2 _ _.
    rewrite bind_get.
    assert (Htail : forall sides kind,
               good T p2
                 ((if count >? MAX_DICE then
                     raise (LimitError ("Cannot roll more than "
                                        ++ str MAX_DICE
                                        ++ " dice per term")%string)
                   else if sides >? MAX_SIDES then
                     raise (LimitError ("Die cannot have more than "
                                        ++ str MAX_SIDES ++ " sides")%string)
                   else if count <? 1 then
                     raise (SemanticError "Must roll at least 1 die")
                   else if sides <? 1 then
                     raise (SemanticError "Die must have at least 1 side")
                   else
                     modifiers <- parse_dice_modifiers ;;
                     ret (Dice count sides kind modifiers)) p2)).
    { intros sides kind. repeat good_step.
      apply good_bind; [apply good_parse_dice_modifiers; assumption|].
      intros m p3 _ Hs3 _. apply good_ret. assumption. }
    destruct (negb (startswith "d" (lower die_token))).
    - repeat good_step.
    - cbv zeta.
      destruct (String.eqb (lower (tail_str die_token)) "%"
                || String.eqb (lower (tail_str die_token)) "00");
        [apply (Htail 100 Percentile)|].
      destruct (String.eqb (lower (tail_str die_token)) "f"
                || String.eqb (lower (tail_str die_token)) "f.2");
        [apply (Htail 3 Fate)|].
      destruct (py_int (lower (tail_str die_token))) as [n|];
        [apply (Htail n Standard)|].
      apply good_bind.
      + repeat good_step.
      + intros [sides kind] p3 He.
        exfalso. revert He.
        cbv [bind token_pos get ret parse_error the_text raise].
        match goal with
        | |- context [nth_error ?l ?i] => destruct (nth_error l i)
        end; discriminate. }
  destruct (option_map tok_text _) as [t|]; [destruct (isdigit t)|].
  - rewrite bind_assoc.
    apply good_consume_then; [assumption|]. intros s p1 Hs1 _ _.
    apply good_int_then. intros count. apply Hrest. assumption.
  - apply Hrest. assumption.
  - apply Hrest. assumption.
Qed.

Lemma good_parse_primary p : same_input T p -> good T p (parse_primary p).
Proof.
  intros Hs. unfold parse_primary.
  repeat good_step;
    try (apply good_parse_dice; assumption);
    try (apply good_consume_then; [assumption|]; intros; repeat good_step).
Qed.

Lemma good_term_loop f factor : fine T f factor ->
  forall n left p,
    same_input T p -> (tokens_left p <= n)%nat -> (tokens_left p <= f)%nat ->
    good T p (term_loop factor n left p).
Proof.
  intros Hf. induction n as [|n IH]; intros left p Hs Hn Hfl;
    cbn [term_loop]; repeat good_step.
  - exfalso. eapply not_at_end_left; eassumption.
  - apply good_consume_then; [assumption|]. intros t p1 Hs1 Hp1 _.
    assert (Hn1 : (tokens_left p1 <= n)%nat)
      by apply (left_after_consume p p1 n Hs Hs1 Hp1 Hn).
    assert (Hf1 : (tokens_left p1 <= f)%nat)
      by apply (left_later p p1 f Hs Hs1 ltac:(lia) Hfl).
    apply good_bind; [apply Hf; assumption|].
    intros right p2 _ Hs2 Hp2.
    apply IH;
      [assumption
      | apply (left_later p1 p2 n Hs1 Hs2 Hp2 Hn1)
      | apply (left_later p1 p2 f Hs1 Hs2 Hp2 Hf1)].
Qed.

Lemma good_parse_term f factor : fine T f factor -> fine T f (parse_term factor).
Proof.
  intros Hf p Hs Hfl. unfold parse_term.
  apply good_bind; [apply Hf; assumption|].
  intros left p1 _ Hs1 Hp1. rewrite bind_get.
  eapply good_term_loop; [exact Hf | assumption | lia|].
  apply (left_later p p1 f Hs Hs1 Hp1 Hfl).
Qed.

Lemma good_expression_loop f factor : fine T f factor ->
  forall n left p,
    same_input T p -> (tokens_left p <= n)%nat -> (tokens_left p <= f)%nat ->
    good T p (expression_loop factor n left p).
Proof.
  intros Hf. induction n as [|n IH]; intros left p Hs Hn Hfl;
    cbn [expression_loop]; repeat good_step.
  - exfalso. eapply not_at_end_left; eassumption.
  - apply good_consume_then; [assumption|]. intros t p1 Hs1 Hp1 _.
    assert (Hn1 : (tokens_left p1 <= n)%nat)
      by apply (left_after_consume p p1 n Hs Hs1 Hp1 Hn).
    assert (Hf1 : (tokens_left p1 <= f)%nat)
      by apply (left_later p p1 f Hs Hs1 ltac:(lia) Hfl).
    apply good_bind; [apply (good_parse_term f factor Hf p1 Hs1 Hf1)|].
    intros right p2 _ Hs2 Hp2.
    apply IH;
      [assumption
      | apply (left_later p1 p2 n Hs1 Hs2 Hp2 Hn1)
      | apply (left_later p1 p2 f Hs1 Hs2 Hp2 Hf1)].
Qed.

Lemma good_parse_expression_with f factor :
  fine T f factor -> fine T f (parse_expression_with factor).
Proof.
  intros Hf p Hs Hfl. unfold parse_expression_with.
  apply good_bind; [apply (good_parse_term f factor Hf p Hs Hfl)|].
  intros left p1 _ Hs1 Hp1. rewrite bind_get.
  eapply good_expression_loop; [exact Hf | assumption | lia|].
  apply (left_later p p1 f Hs Hs1 Hp1 Hfl).
Qed.

Lemma good_parse_factor : forall fuel, fine T fuel (parse_factor fuel).
Proof.
  induction fuel as [|fuel IH]; intros p Hs Hfl; cbn [parse_factor];
    rewrite bind_peek.
  - destruct (nth_error (tokens (tokenizer p)) (position (tokenizer p) + 0))
      as [t|] eqn:Hn.
    + exfalso. assert (Hsome : nth_error (tokens (tokenizer p))
                                 (position (tokenizer p) + 0) <> None)
        by congruence.
      apply nth_error_Some in Hsome. unfold tokens_left in Hfl. lia.
    + cbn [option_map token_is]. apply good_parse_primary. assumption.
  - destruct (token_is _ "-").
    { apply good_consume_then; [assumption|]. intros t p1 Hs1 Hp1 _.
      apply good_bind.
      - apply IH; [assumption|].
        apply (left_after_consume p p1 fuel Hs Hs1 Hp1 Hfl).
      - intros operand p2 _ Hs2 _. apply good_ret. assumption. }
    destruct (token_is _ "(");
      [|apply good_parse_primary; assumption].
    rewrite bind_get. apply good_set_depth_then. intros p1 Hp1.
    assert (Hs1 : same_input T p1)
      by (destruct Hs as [Ht Hk]; split; rewrite Hp1; assumption).
    destruct (MAX_RECURSION <? S (recursion_depth p))%nat;
      [apply good_raise; [exact I | discriminate]|].
    apply good_consume_then; [assumption|]. intros t p2 Hs2 Hp2 _.
    apply good_bind.
    + apply (good_parse_expression_with fuel _ IH p2 Hs2).
      apply (left_after_consume p1 p2 fuel Hs1 Hs2 Hp2).
      unfold tokens_left in *. rewrite Hp1. exact Hfl.
    + intros expr p3 _ Hs3 _.
      apply good_consume_then; [assumption|]. intros t' p4 Hs4 _ _.
      rewrite bind_get. apply good_set_depth_then. intros p5 Hp5.
      apply good_ret. destruct Hs4 as [Ht Hk]. split; rewrite Hp5; assumption.
Qed.

Lemma good_parse p : same_input T p -> good T p (parse p).
Proof.
  intros Hs. unfold parse. rewrite bind_at_end.
  destruct (_ <=? _)%nat; [repeat good_step|].
  apply good_bind.
  - unfold parse_expression. rewrite bind_get.
    apply (good_parse_expression_with _ _
             (good_parse_factor (List.length (tokens (tokenizer p)))) p Hs).
    unfold tokens_left. lia.
  - intros result p1 _ Hs1 _. repeat good_step.
Qed.

End ParserInvariant.

Lemma new_Tokenizer_tokens_inside expression :
  Forall (fun t => (pos t <= slen (text (new_Tokenizer expression)))%nat)
         (tokens (new_Tokenizer expression)).
Proof.
  cbn [new_Tokenizer text tokens].
  eapply Forall_impl; [|apply _tokenize_positions]. cbn. intros t Ht. lia.
Qed.

(** Whatever the input, [parse] has fuel enough, and a [ParseError] it
    raises carries the stripped text and a position inside it. *)
Lemma parse_is_located_and_terminates expression :
  good (new_Tokenizer expression) (new_DiceParser expression)
       (parse (new_DiceParser expression)).
Proof.
  apply good_parse.
  - apply new_Tokenizer_tokens_inside.
  - split; reflexivity.
Qed.

(** X2: [parse] terminates on every input: the nesting of
    [parse_expression], [parse_term] and [parse_factor] and the rounds of
    their loops are bounded by the number of tokens, so the fuel that
    [parse] starts with is never used up. *)
Lemma parse_never_exhausts_fuel expression :
  parse (new_DiceParser expression) <> Raise exhausted.
Proof.
  pose proof (parse_is_located_and_terminates expression) as H.
  destruct (parse (new_DiceParser expression)) as [[tree p]|e];
    [discriminate|].
  cbn in H. destruct H as [_ Hne]. congruence.
Qed.

(** ** The evaluator raises no [ParseError] *)

Lemma raises_only_ret {S A} Q (a : A) : @raises_only S A Q (ret a).
Proof. intros s e H. discriminate. Qed.

Lemma raises_only_raise {S A} (Q : exn -> Prop) e :
  Q e -> @raises_only S A Q (raise e).
Proof. intros HQ s e' H. injection H as <-. exact HQ. Qed.

Lemma raises_only_bind {S A B} Q (m : M S A) (k : A -> M S B) :
  raises_only Q m -> (forall a, raises_only Q (k a)) ->
  raises_only Q (bind m k).
Proof.
  intros Hm Hk s e H. unfold bind in H.
  destruct (m s) as [[a s1]|e0] eqn:Hms.
  - eapply Hk; eassumption.
  - injection H as <-. eapply Hm; eassumption.
Qed.

Lemma raises_only_with_rng {A} Q (m : M rng_state A) :
  raises_only Q m -> raises_only Q (with_rng m).
Proof.
  intros Hm s e H. unfold with_rng in H.
  destruct (m (rng s)) as [[a r]|e0] eqn:Hms; [discriminate|].
  injection H as <-. eapply Hm; eassumption.
Qed.

Lemma roll_die_no_parse_error E sides :
  raises_only not_parse_error (roll_die E sides).
Proof.
  intros r e H. unfold roll_die in H.
  destruct (sides <? 1); [injection H as <-; exact I|].
  destruct (sides >? MAX_SIDES); [injection H as <-; exact I|].
  destruct (sides =? 1); [discriminate|].
  exfalso. eapply rejection_loop_never_raises; eassumption.
Qed.

Lemma fresh_value_no_parse_error E sides kind :
  raises_only not_parse_error (fresh_value E sides kind).
Proof.
  destruct kind; cbn [fresh_value];
    try (apply raises_only_with_rng, roll_die_no_parse_error).
  apply raises_only_bind;
    [apply raises_only_with_rng, roll_die_no_parse_error|].
  intros v. apply raises_only_ret.
Qed.

Lemma for_each_raises_only {A B} Q (body : A -> Ev B) l :
  (forall a, raises_only Q (body a)) -> raises_only Q (for_each body l).
Proof.
  intros Hb. induction l as [|a l IH]; cbn [for_each].
  - apply raises_only_ret.
  - apply raises_only_bind; [apply Hb|]. intros b.
    apply raises_only_bind; [apply IH|]. intros bs. apply raises_only_ret.
Qed.

Lemma dice_pool_no_parse_error E count sides kind modifiers :
  raises_only not_parse_error (dice_pool E count sides kind modifiers).
Proof.
  unfold dice_pool.
  apply raises_only_bind.
  { induction (Z.to_nat count) as [|n IH]; cbn [roll_all].
    - apply raises_only_ret.
    - apply raises_only_bind; [apply fresh_value_no_parse_error|]. intros v.
      apply raises_only_bind; [apply IH|]. intros rest. apply raises_only_ret. }
  intros rolls0. apply raises_only_bind.
  { destruct (reroll modifiers) as [spec|]; [|apply raises_only_ret].
    apply for_each_raises_only. intros d. unfold reroll_one.
    apply raises_only_bind.
    - generalize MAX_REROLLS. intros n. revert d.
      induction n as [|n IH]; intros d; cbn [reroll_loop];
        destruct (_check_condition _ _); try apply raises_only_ret.
      apply raises_only_bind; [apply fresh_value_no_parse_error|]. intros v.
      destruct (once spec); [apply raises_only_ret | apply IH].
    - intros [d' [|n]]; [apply raises_only_raise; exact I | apply raises_only_ret]. }
  intros rolls1.
  destruct (explode modifiers) as [spec|]; [|apply raises_only_ret].
  apply for_each_raises_only. intros d. unfold explode_one.
  apply raises_only_bind.
  - generalize MAX_EXPLOSIONS (value d). intros n. revert d.
    induction n as [|n IH]; intros d cur; cbn [explode_loop];
      destruct (_check_condition _ _); try apply raises_only_ret.
    apply raises_only_bind; [apply fresh_value_no_parse_error|]. intros v.
    apply IH.
  - intros [d' [|n]]; [apply raises_only_raise; exact I | apply raises_only_ret].
Qed.

Lemma score_pool_no_parse_error count sides kind modifiers pool :
  raises_only not_parse_error (score_pool count sides kind modifiers pool).
Proof.
  unfold score_pool. apply raises_only_bind.
  { destruct (keep modifiers) as [spec|]; [|apply raises_only_ret].
    apply raises_only_bind; [|intros kept; apply raises_only_ret].
    unfold _apply_keep_drop. destruct (_ >? _);
      [apply raises_only_raise; exact I | apply raises_only_ret]. }
  intros kept_values.
  destruct (comparator modifiers) as [comp|].
  - destruct (_count_successes _ comp kept_values) as [marked n].
    apply raises_only_bind; [|intros u; apply raises_only_ret].
    intros s e H. discriminate.
  - destruct kept_values as [kept|];
      (apply raises_only_bind; [|intros u; apply raises_only_ret]);
      intros s e H; discriminate.
Qed.

Lemma to_float_no_parse_error {S} a :
  raises_only not_parse_error (@to_float S a).
Proof.
  destruct a as [z|f]; cbn [to_float]; [|apply raises_only_ret].
  unfold float_of_int.
  destruct (binary_normalize prec emax z 0 false);
    try apply raises_only_ret.
  apply raises_only_raise. exact I.
Qed.

Lemma arith_no_parse_error {S} zop fop a b :
  raises_only not_parse_error (@arith S zop fop a b).
Proof.
  unfold arith.
  destruct a as [x|x], b as [y|y]; try apply raises_only_ret;
    (apply raises_only_bind; [apply to_float_no_parse_error|]; intros u;
     apply raises_only_bind; [apply to_float_no_parse_error|]; intros v;
     apply raises_only_ret).
Qed.

Lemma true_divide_no_parse_error {S} a b :
  raises_only not_parse_error (@true_divide S a b).
Proof.
  unfold true_divide.
  destruct a as [x|x], b as [y|y];
    try (apply raises_only_bind; [apply to_float_no_parse_error|]; intros u;
         apply raises_only_bind; [apply to_float_no_parse_error|]; intros v;
         apply raises_only_ret).
  destruct (SFdiv prec emax (exact x) (exact y)); try apply raises_only_ret.
  apply raises_only_raise. exact I.
Qed.

Lemma _eval_node_no_parse_error E node :
  raises_only not_parse_error (_eval_node E node).
Proof.
  induction node as [n|op lhs IHl rhs IHr|op operand IH|count sides kind mods];
    cbn [_eval_node].
  - apply raises_only_ret.
  - apply raises_only_bind; [exact IHl|]. intros left_val.
    apply raises_only_bind; [exact IHr|]. intros right_val.
    destruct op; try apply arith_no_parse_error.
    destruct (is_zero right_val);
      [apply raises_only_raise; exact I | apply true_divide_no_parse_error].
  - destruct op. apply raises_only_bind; [exact IH|]. intros v.
    apply raises_only_ret.
  - apply raises_only_bind; [|intros n; apply raises_only_ret].
    unfold _eval_dice. apply raises_only_bind;
      [apply dice_pool_no_parse_error|].
    intros pool. apply score_pool_no_parse_error.
Qed.

Lemma coerce_final_no_parse_error {S} result :
  raises_only not_parse_error (@coerce_final S result).
Proof.
  unfold coerce_final. destruct result as [z|f]; [apply raises_only_ret|].
  destruct f as [s| | |s m e];
    try apply raises_only_ret; try (apply raises_only_raise; exact I).
  destruct (0 <=? e); [apply raises_only_ret|].
  destruct (_ =? 0); apply raises_only_ret.
Qed.

Lemma handle_not_parse_error expression e :
  not_parse_error e ->
  exists type message,
    handle expression e = Failure type message None expression
    /\ type <> "ParseError".
Proof.
  destruct e; cbn; intros H; try contradiction;
    eexists _, _; (split; [reflexivity | discriminate]).
Qed.

(** ** The dictionaries of the trace *)

Lemma map_injective {A B} (f : A -> B) :
  (forall a b, f a = f b -> a = b) ->
  forall l l', map f l = map f l' -> l = l'.
Proof.
  intros Hf. induction l as [|a l IH]; intros [|b l'] H; cbn in H;
    try discriminate; [reflexivity|].
  injection H as Hab Hl. f_equal; auto.
Qed.

Lemma JInt_list_injective l l' : map JInt l = map JInt l' -> l = l'.
Proof. apply map_injective. intros a b H. injection H as ->. reflexivity. Qed.

Lemma explodes_list_injective l l' :
  map (fun n => JDict [("value", JInt n)]) l
  = map (fun n => JDict [("value", JInt n)]) l' ->
  l = l'.
Proof. apply map_injective. intros a b H. injection H as ->. reflexivity. Qed.

Lemma DieRoll_to_dict_injective_one r1 r2 :
  DieRoll_to_dict r1 = DieRoll_to_dict r2 -> r1 = r2.
Proof.
  destruct r1 as [v1 re1 ex1 su1], r2 as [v2 re2 ex2 su2].
  unfold DieRoll_to_dict. cbn [value rerolls explodes success].
  intros H. injection H as Hv H. subst v2.
  destruct re1 as [|a1 re1], re2 as [|a2 re2];
    destruct ex1 as [|b1 ex1], ex2 as [|b2 ex2];
    destruct su1 as [c1|], su2 as [c2|];
    cbv beta iota delta [app] in H; try discriminate; try reflexivity;
    inversion H;
    repeat match goal with
      | H : map JInt _ = map JInt _ |- _ => apply JInt_list_injective in H
      | H : map _ _ = map _ _ |- _ => apply explodes_list_injective in H
      end;
    congruence.
Qed.

(** X3: the dictionaries of the trace lose nothing: two dice with the same
    dictionary are the same die, and two traces with the same dictionary
    are the same trace, although [to_dict] leaves out empty histories and
    unset fields. *)
Theorem to_dict_injective :
  (forall r1 r2, DieRoll_to_dict r1 = DieRoll_to_dict r2 -> r1 = r2)
  /\ (forall t1 t2, DiceTrace_to_dict t1 = DiceTrace_to_dict t2 -> t1 = t2).
Proof.
  split; [exact DieRoll_to_dict_injective_one|].
  intros [te1 ro1 ke1 su1 th1 sc1] [te2 ro2 ke2 su2 th2 sc2].
  unfold DiceTrace_to_dict. cbn [term rolls keptValues sum threshold successes].
  intros H. injection H as Hte Hro H. subst te2.
  apply (map_injective _ DieRoll_to_dict_injective_one) in Hro. subst ro2.
  destruct ke1 as [k1|], ke2 as [k2|];
    destruct su1 as [s1|], su2 as [s2|];
    destruct th1 as [h1|], th2 as [h2|];
    destruct sc1 as [c1|], sc2 as [c2|];
    cbv beta iota delta [app] in H; try discriminate; try reflexivity;
    inversion H;
    repeat match goal with
      | H : map JInt _ = map JInt _ |- _ => apply JInt_list_injective in H
      end;
    congruence.
Qed.

(** ** The entropy a die costs *)

Lemma rejection_loop_cost E sides :
  0 < sides -> randbelow_in_range E ->
  forall n r, exists v r' k,
    rejection_loop E sides n r = Ok (v, r')
    /\ 1 <= v <= sides
    /\ (k <= n)%nat
    /\ bytes_drawn r'
       = (bytes_drawn r + k * Z.to_nat (bytes_needed sides))%nat
    /\ (below_calls r' = below_calls r
        \/ (k = n /\ below_calls r' = S (below_calls r))).
Proof.
  intros Hs HE. induction n as [|n IH]; intros r.
  - cbn [rejection_loop]. unfold bind, randbelow, ret.
    eexists _, _, O. split; [reflexivity|].
    pose proof (HE (below_calls r) sides Hs).
    cbn [bytes_drawn below_calls]. repeat split; lia.
  - rewrite rejection_loop_step.
    destruct (first_draw E sides r <? bound sides).
    + eexists _, _, 1%nat. split; [reflexivity|].
      cbn [bytes_drawn below_calls].
      split; [apply accepted_face_range; assumption|].
      repeat split; lia.
    + destruct (IH (mkRng (bytes_drawn r + Z.to_nat (bytes_needed sides))
                          (below_calls r)))
        as (v & r' & k & Heq & Hv & Hk & Hb & Hc).
      cbn [bytes_drawn below_calls] in *.
      exists v, r', (S k). split; [exact Heq|].
      repeat split; lia.
Qed.

(** X4: for 1 to [MAX_SIDES] sides [roll_die] always returns, and returns
    a face of the die; it draws whole blocks of [bytes_needed] bytes, at
    most [MAX_ATTEMPTS] of them, asks [secrets.randbelow] only once all
    of these were rejected, and for one side returns 1 without drawing
    anything. *)
Theorem roll_die_returns_a_face :
  forall E sides r,
    randbelow_in_range E -> 1 <= sides <= MAX_SIDES ->
    exists v r' k,
      roll_die E sides r = Ok (v, r')
      /\ 1 <= v <= sides
      /\ (k <= MAX_ATTEMPTS)%nat
      /\ bytes_drawn r'
         = (bytes_drawn r + k * Z.to_nat (bytes_needed sides))%nat
      /\ (below_calls r' = below_calls r
          \/ (k = MAX_ATTEMPTS /\ below_calls r' = S (below_calls r)))
      /\ (sides = 1 -> v = 1 /\ r' = r).
Proof.
  intros E sides r HE [Hlo Hhi]. unfold roll_die.
  destruct (Z.ltb_spec sides 1); [lia|].
  destruct (Z.gtb_spec sides MAX_SIDES); [lia|].
  destruct (Z.eqb_spec sides 1) as [->|Hne].
  - exists 1, r, O. split; [reflexivity|].
    repeat split; lia.
  - destruct (rejection_loop_cost E sides ltac:(lia) HE MAX_ATTEMPTS r)
      as (v & r' & k & Heq & Hv & Hk & Hb & Hc).
    exists v, r', k. repeat split; (assumption || lia).
Qed.

Lemma roll_die_returns_a_face_d6 :
  exists v r' k,
    roll_die (tape [xff; x03]) 6 fresh = Ok (v, r')
    /\ 1 <= v <= 6
    /\ (k <= MAX_ATTEMPTS)%nat
    /\ bytes_drawn r' = (bytes_drawn fresh + k * Z.to_nat (bytes_needed 6))%nat
    /\ (below_calls r' = below_calls fresh
        \/ (k = MAX_ATTEMPTS /\ below_calls r' = S (below_calls fresh)))
    /\ (6 = 1 -> v = 1 /\ r' = fresh).
Proof.
  apply (roll_die_returns_a_face (tape [xff; x03]) 6 fresh).
  - intros i n Hn. cbn. lia.
  - unfold MAX_SIDES. lia.
Defined.

(** ** The shape of a trace, and the sum of a term *)

Lemma for_each_length {A B} (body : A -> Ev B) l s l' s' :
  for_each body l s = Ok (l', s') -> List.length l' = List.length l.
Proof.
  intros H. symmetry. eapply Forall2_length.
  eapply (for_each_Forall2 body (fun _ _ => True)); [auto | eassumption].
Qed.

Lemma dice_pool_length E count sides kind modifiers s pool s' :
  dice_pool E count sides kind modifiers s = Ok (pool, s') ->
  List.length pool = Z.to_nat count.
Proof.
  unfold dice_pool. intros H.
  apply bind_ok in H as (rolls0 & s0 & Hroll & H).
  apply bind_ok in H as (rolls1 & s1 & Hre & H).
  assert (H0 : List.length rolls0 = Z.to_nat count).
  { clear Hre H. revert s rolls0 s0 Hroll.
    induction (Z.to_nat count) as [|n IH]; intros s rolls0 s0 Hroll;
      cbn [roll_all] in Hroll.
    - injection Hroll as <- _. reflexivity.
    - apply bind_ok in Hroll as (v & t1 & _ & Hroll).
      apply bind_ok in Hroll as (rest & t2 & Hrest & Hroll).
      injection Hroll as <- _. cbn. f_equal. eapply IH. eassumption. }
  assert (H1 : List.length rolls1 = List.length rolls0).
  { destruct (reroll modifiers).
    - eapply for_each_length. eassumption.
    - injection Hre as <- _. reflexivity. }
  destruct (explode modifiers).
  - apply for_each_length in H. congruence.
  - injection H as <- _. congruence.
Qed.

Lemma mark_successes_length comparator limit ds i :
  List.length (mark_successes comparator limit i ds) = List.length ds.
Proof.
  symmetry. eapply Forall2_length. apply mark_successes_fields.
Qed.

Lemma display_sort_length order ds :
  List.length (display_sort order ds) = List.length ds.
Proof. apply Permutation_length, display_sort_perm. Qed.

(** What [score_pool] returns and records, case by case. *)
Lemma score_pool_cases count sides kind modifiers pool s n s' :
  score_pool count sides kind modifiers pool s = Ok (n, s') ->
  exists t,
    s' = mkEvaluator (rng s) (traces s ++ [t])
    /\ List.length (rolls t) = List.length pool
    /\ match comparator modifiers with
       | Some comp =>
           successes t = Some n /\ sum t = None /\ keptValues t = None
           /\ threshold t
              = Some (string_of_cmp (cond_op comp)
                      ++ string_of_threshold (cond_value comp))%string
       | None =>
           sum t = Some n /\ successes t = None /\ threshold t = None
           /\ rolls t = display_sort (sort modifiers) pool
           /\ match keep modifiers with
              | Some spec =>
                  exists kept, _apply_keep_drop pool spec s = Ok (kept, s)
                               /\ keptValues t = Some kept /\ n = zsum kept
              | None =>
                  keptValues t = None
                  /\ n = zsum (map value (rolls t)
                               ++ match kind with
                                  | Fate => flat_map explodes (rolls t)
                                  | _ => []
                                  end)
              end
       end.
Proof.
  unfold score_pool. intros H.
  apply bind_ok in H as (kept_values & s1 & Hk & H).
  assert (Hkeep : s1 = s
                  /\ match keep modifiers with
                     | Some spec =>
                         exists kept,
                           _apply_keep_drop pool spec s = Ok (kept, s)
                           /\ kept_values = Some kept
                     | None => kept_values = None
                     end).
  { destruct (keep modifiers) as [spec|].
    - apply bind_ok in Hk as (kept & s2 & Hk & Hr).
      injection Hr as <- <-.
      pose proof (_apply_keep_drop_state _ _ _ _ _ Hk) as ->.
      split; [reflexivity|]. eauto.
    - injection Hk as <- <-. auto. }
  destruct Hkeep as [-> Hkeep].
  destruct (comparator modifiers) as [comp|].
  - unfold _count_successes in H.
    apply bind_ok in H as ([] & s2 & Ha & H). injection H as <- <-.
    unfold append_trace in Ha. injection Ha as <-.
    eexists. split; [reflexivity|]. cbn [rolls successes sum keptValues threshold].
    split; [rewrite mark_successes_length; apply display_sort_length|].
    repeat split.
  - destruct kept_values as [kept|].
    + apply bind_ok in H as ([] & s2 & Ha & H). injection H as <- <-.
      unfold append_trace in Ha. injection Ha as <-.
      eexists. split; [reflexivity|].
      cbn [rolls successes sum keptValues threshold].
      split; [apply display_sort_length|].
      repeat split.
      destruct (keep modifiers) as [spec|]; [|discriminate].
      destruct Hkeep as (kept' & Hkd & Heq). injection Heq as ->.
      exists kept'. auto.
    + apply bind_ok in H as ([] & s2 & Ha & H). injection H as <- <-.
      unfold append_trace in Ha. injection Ha as <-.
      eexists. split; [reflexivity|].
      cbn [rolls successes sum keptValues threshold].
      split; [apply display_sort_length|].
      repeat split.
      destruct (keep modifiers) as [spec|].
      * destruct Hkeep as (kept' & _ & Heq). discriminate.
      * split; reflexivity.
Qed.

(** X5: a dice term that evaluates leaves exactly one trace, with as many
    dice as the term counts, whatever was rerolled or exploded.  A term
    with a comparator records the success count and the threshold and
    neither a sum nor kept values; a term without records the sum, no
    success count and no threshold, and kept values exactly when it has a
    keep/drop modifier.  In both cases the recorded number is the value of
    the term. *)
Theorem dice_term_trace_shape :
  forall E count sides kind modifiers s n s',
    _eval_dice E count sides kind modifiers s = Ok (n, s') ->
    exists t,
      traces s' = traces s ++ [t]
      /\ List.length (rolls t) = Z.to_nat count
      /\ match comparator modifiers with
         | Some comp =>
             successes t = Some n /\ sum t = None /\ keptValues t = None
             /\ threshold t <> None
         | None =>
             sum t = Some n /\ successes t = None /\ threshold t = None
             /\ (keptValues t = None <-> keep modifiers = None)
         end.
Proof.
  intros E count sides kind modifiers s n s' H.
  unfold _eval_dice in H. apply bind_ok in H as (pool & s1 & Hpool & H).
  pose proof (dice_pool_length _ _ _ _ _ _ _ _ Hpool) as Hlen.
  assert (Htr : traces s1 = traces s).
  { unfold dice_pool in Hpool.
    apply bind_ok in Hpool as (r0 & t0 & H0 & Hpool).
    apply bind_ok in Hpool as (r1 & t1 & H1 & Hpool).
    apply keeps_traces_roll_all in H0.
    assert (traces t1 = traces t0).
    { destruct (reroll modifiers).
      - eapply keeps_traces_for_each; [|eassumption].
        intros d. apply keeps_traces_reroll_one.
      - injection H1 as _ <-. reflexivity. }
    assert (traces s1 = traces t1).
    { destruct (explode modifiers).
      - eapply keeps_traces_for_each; [|eassumption].
        intros d. apply keeps_traces_explode_one.
      - injection Hpool as _ <-. reflexivity. }
    congruence. }
  apply score_pool_cases in H as (t & -> & Hl & Hshape).
  exists t. cbn [traces]. split; [congruence|]. split; [congruence|].
  destruct (comparator modifiers) as [comp|].
  - destruct Hshape as (Hs & Hsum & Hk & Hth).
    repeat split; try assumption. rewrite Hth. discriminate.
  - destruct Hshape as (Hsum & Hs & Hth & _ & Hk).
    repeat split; try assumption.
    + destruct (keep modifiers) as [spec|]; [|reflexivity].
      destruct Hk as (kept & _ & Hkv & _). congruence.
    + intros Hnone. rewrite Hnone in Hk. apply Hk.
Qed.

Lemma dice_term_trace_shape_4d6kh3 :
  exists t,
    [mkDiceTrace "4d6kh3"
       [new_DieRoll 1; new_DieRoll 1; new_DieRoll 1; new_DieRoll 1]
       (Some [1; 1; 1]) (Some 3) None None]
    = [] ++ [t]
    /\ List.length (rolls t) = Z.to_nat 4
    /\ (sum t = Some 3 /\ successes t = None /\ threshold t = None
        /\ (keptValues t = None <-> Some (mkKeep kh 3) = None)).
Proof.
  apply (dice_term_trace_shape (tape []) 4 6 Standard
           (mkModifiers None None (Some (mkKeep kh 3)) None None)
           (mkEvaluator fresh []) 3
           (mkEvaluator (mkRng 4 0)
              [mkDiceTrace "4d6kh3"
                 [new_DieRoll 1; new_DieRoll 1; new_DieRoll 1; new_DieRoll 1]
                 (Some [1; 1; 1]) (Some 3) None None])).
  vm_compute. reflexivity.
Defined.

Lemma zsum_acc l a : fold_left Z.add l a = a + zsum l.
Proof.
  unfold zsum. revert a. induction l as [|x l IH]; intros a.
  - cbn. lia.
  - cbn [fold_left]. rewrite (IH (a + x)), (IH (0 + x)). lia.
Qed.

Lemma zsum_cons x l : zsum (x :: l) = x + zsum l.
Proof. unfold zsum at 1. cbn. rewrite zsum_acc. lia. Qed.

Lemma zsum_app l l' : zsum (l ++ l') = zsum l + zsum l'.
Proof.
  induction l as [|x l IH]; cbn [app]; [reflexivity|].
  rewrite !zsum_cons, IH. lia.
Qed.

Lemma zsum_perm l l' : Permutation l l' -> zsum l = zsum l'.
Proof.
  induction 1; rewrite ?zsum_cons; [reflexivity | lia | lia | congruence].
Qed.

Lemma zsum_between lo hi l :
  Forall (fun v => lo <= v <= hi) l ->
  Z.of_nat (List.length l) * lo <= zsum l <= Z.of_nat (List.length l) * hi.
Proof.
  induction 1 as [|x l Hx _ IH].
  - cbn. lia.
  - rewrite zsum_cons. cbn [List.length]. rewrite Nat2Z.inj_succ. lia.
Qed.

(** X6: the sum of a term without keep/drop and without comparator is the
    sum of the values of its dice; for dice other than FATE dice the
    explosions do not enter it, so that the sum of [N] dice of [S] sides
    lies between [N] and [N * S] also when they explode; for FATE dice the
    explosions are added. *)
Theorem plain_sum_ignores_explosions_of_standard_dice :
  forall E count sides kind re ex so s n s',
    randbelow_in_range E ->
    _eval_dice E count sides kind (mkModifiers re ex None so None) s
    = Ok (n, s') ->
    exists t,
      traces s' = traces s ++ [t]
      /\ sum t = Some n
      /\ match kind with
         | Fate =>
             n = zsum (map value (rolls t)) + zsum (flat_map explodes (rolls t))
         | _ =>
             n = zsum (map value (rolls t))
             /\ Z.of_nat (Z.to_nat count) <= n
                <= Z.of_nat (Z.to_nat count) * sides
         end.
Proof.
  intros E count sides kind re ex so s n s' HE H.
  unfold _eval_dice in H. apply bind_ok in H as (pool & s1 & Hpool & H).
  pose proof (dice_pool_length _ _ _ _ _ _ _ _ Hpool) as Hlen.
  apply dice_pool_settled in Hpool as [Hset Htr]; [|assumption].
  apply score_pool_cases in H as (t & -> & Hl & Hshape).
  cbn [comparator keep sort] in Hshape.
  destruct Hshape as (Hsum & _ & _ & Hrolls & _ & Hn).
  exists t. cbn [traces]. split; [congruence|]. split; [exact Hsum|].
  assert (Hdom : Forall (fun d => in_domain sides kind (value d)) (rolls t)).
  { rewrite Hrolls.
    eapply Permutation_Forall; [symmetry; apply display_sort_perm|].
    eapply Forall_impl; [|exact Hset]. intros d [Hd _]. exact Hd. }
  assert (Hstd : kind <> Fate ->
                 (forall v, in_domain sides kind v -> 1 <= v <= sides) ->
                 Z.of_nat (Z.to_nat count) <= zsum (map value (rolls t))
                 <= Z.of_nat (Z.to_nat count) * sides).
  { intros _ Hin. rewrite <- Hlen, <- Hl, <- (length_map value).
    pose proof (zsum_between 1 sides (map value (rolls t))) as Hb.
    rewrite Z.mul_1_r in Hb. apply Hb.
    rewrite Forall_map. eapply Forall_impl; [|exact Hdom].
    intros d Hd. apply Hin. exact Hd. }
  destruct kind.
  - rewrite app_nil_r in Hn. subst n.
    split; [reflexivity|]. apply Hstd; [discriminate | auto].
  - rewrite app_nil_r in Hn. subst n.
    split; [reflexivity|]. apply Hstd; [discriminate | auto].
  - rewrite zsum_app in Hn. exact Hn.
Qed.

Lemma plain_sum_ignores_explosions_of_standard_dice_1d6 :
  exists t,
    [mkDiceTrace "1d6!>=6" [mkDieRoll 6 [] [6; 3] None] None (Some 6) None None]
    = [] ++ [t]
    /\ sum t = Some 6
    /\ (6 = zsum (map value (rolls t))
        /\ Z.of_nat (Z.to_nat 1) <= 6 <= Z.of_nat (Z.to_nat 1) * 6).
Proof.
  assert (HE : randbelow_in_range (tape [x05; x05; x02]))
    by (intros i n Hn; cbn; lia).
  apply (plain_sum_ignores_explosions_of_standard_dice
           (tape [x05; x05; x02]) 1 6 Standard None
           (Some (mkExplode false false (mkCondition OpGe Max))) None
           (mkEvaluator fresh []) 6
           (mkEvaluator (mkRng 3 0)
              [mkDiceTrace "1d6!>=6" [mkDieRoll 6 [] [6; 3] None]
                           None (Some 6) None None]) HE).
  vm_compute. reflexivity.
Defined.

(** ** How a dice term fails *)

Lemma fresh_value_never_raises E sides kind s e :
  randbelow_in_range E -> rollable sides kind ->
  fresh_value E sides kind s <> Raise e.
Proof.
  intros HE Hk H.
  destruct (fresh_value_total E sides kind s HE Hk) as (v & s' & Hv).
  congruence.
Qed.

Lemma roll_all_never_raises E sides kind n s e :
  randbelow_in_range E -> rollable sides kind ->
  roll_all E sides kind n s <> Raise e.
Proof.
  intros HE Hk H.
  destruct (roll_all_total E sides kind n s HE Hk) as (v & s' & Hv).
  congruence.
Qed.

Lemma reroll_loop_never_raises E sides kind spec :
  randbelow_in_range E -> rollable sides kind ->
  forall remaining d s e,
    reroll_loop E sides kind spec remaining d s <> Raise e.
Proof.
  intros HE Hk.
  induction remaining as [|n IH]; intros d s e; cbn [reroll_loop];
    destruct (_check_condition _ _); try discriminate.
  unfold bind.
  destruct (fresh_value E sides kind s) as [[v s1]|e0] eqn:Hf.
  - destruct (once spec); [discriminate | apply IH].
  - exfalso. eapply fresh_value_never_raises; eassumption.
Qed.

Lemma reroll_one_raises E sides kind spec d s e :
  randbelow_in_range E -> rollable sides kind ->
  reroll_one E sides kind spec d s = Raise e ->
  e = reroll_ceiling /\ once spec = false.
Proof.
  intros HE Hk. unfold reroll_one, bind.
  destruct (reroll_loop E sides kind spec MAX_REROLLS d s)
    as [[[d' n] s1]|e0] eqn:Hl.
  - destruct n as [|n]; [|discriminate].
    intros H. injection H as <-. split; [reflexivity|].
    apply reroll_loop_spec in Hl as (hist & _ & Hlen & _ & _ & _ & Honce & _).
    destruct (once spec); [|reflexivity].
    specialize (Honce eq_refl). pose proof MAX_REROLLS_large. lia.
  - intros _. exfalso.
    eapply reroll_loop_never_raises; eassumption.
Qed.

Lemma explode_loop_never_raises E sides kind pen condition :
  randbelow_in_range E -> rollable sides kind ->
  forall remaining d cur s e,
    explode_loop E sides kind pen condition remaining d cur s <> Raise e.
Proof.
  intros HE Hk.
  induction remaining as [|n IH]; intros d cur s e; cbn [explode_loop];
    destruct (_check_condition _ _); try discriminate.
  unfold bind.
  destruct (fresh_value E sides kind s) as [[v s1]|e0] eqn:Hf.
  - apply IH.
  - exfalso. eapply fresh_value_never_raises; eassumption.
Qed.

Lemma explode_one_raises E sides kind pen condition d s e :
  randbelow_in_range E -> rollable sides kind ->
  explode_one E sides kind pen condition d s = Raise e ->
  e = explosion_ceiling.
Proof.
  intros HE Hk. unfold explode_one, bind.
  destruct (explode_loop E sides kind pen condition MAX_EXPLOSIONS d (value d) s)
    as [[[d' n] s1]|e0] eqn:Hl.
  - destruct n as [|n]; [|discriminate].
    intros H. injection H as <-. reflexivity.
  - intros _. exfalso.
    eapply explode_loop_never_raises; eassumption.
Qed.

Lemma dice_pool_raises E count sides kind modifiers s e :
  randbelow_in_range E -> rollable sides kind ->
  dice_pool E count sides kind modifiers s = Raise e ->
  (e = reroll_ceiling
   /\ exists spec, reroll modifiers = Some spec /\ once spec = false)
  \/ (e = explosion_ceiling /\ explode modifiers <> None).
Proof.
  intros HE Hk. unfold dice_pool, bind.
  destruct (roll_all E sides kind (Z.to_nat count) s) as [[rolls0 s0]|e0] eqn:H0;
    [|exfalso; eapply roll_all_never_raises; eassumption].
  destruct (reroll modifiers) as [spec|].
  - destruct (_apply_rerolls E rolls0 sides kind spec s0)
      as [[rolls1 s1]|e1] eqn:H1.
    + destruct (explode modifiers) as [xspec|]; [|discriminate].
      intros H. right. split; [|discriminate].
      eapply (for_each_raises_only (fun e => e = explosion_ceiling));
        [|exact H].
      intros d t e' Hd. eapply explode_one_raises; eassumption.
    + intros H. injection H as <-. left.
      assert (He : e1 = reroll_ceiling /\ once spec = false).
      { eapply (for_each_raises_only
                  (fun e => e = reroll_ceiling /\ once spec = false));
          [|exact H1].
        intros d t e' Hd. eapply reroll_one_raises; eassumption. }
      destruct He as [-> Ho]. split; [reflexivity|]. exists spec. auto.
  - cbn [ret]. destruct (explode modifiers) as [xspec|]; [|discriminate].
    intros H. right. split; [|discriminate].
    eapply (for_each_raises_only (fun e => e = explosion_ceiling));
      [|exact H].
    intros d t e' Hd. eapply explode_one_raises; eassumption.
Qed.

Lemma score_pool_raises count sides kind modifiers pool s e :
  score_pool count sides kind modifiers pool s = Raise e ->
  exists spec, keep modifiers = Some spec
               /\ Z.of_nat (List.length pool) < keep_count spec
               /\ e = SemanticError
                        ("Cannot keep/drop " ++ str (keep_count spec) ++ " from "
                         ++ str (Z.of_nat (List.length pool)) ++ " dice")%string.
Proof.
  unfold score_pool, bind.
  destruct (keep modifiers) as [spec|].
  - unfold _apply_keep_drop. rewrite length_map.
    destruct (Z.gtb_spec (keep_count spec) (Z.of_nat (List.length pool))).
    + intros He. injection He as <-. exists spec. repeat split. lia.
    + cbn [ret raise].
      destruct (comparator modifiers) as [comp|].
      * destruct (_count_successes _ comp _). discriminate.
      * discriminate.
  - cbn [ret]. destruct (comparator modifiers) as [comp|].
    + destruct (_count_successes _ comp _). discriminate.
    + discriminate.
Qed.

Lemma _eval_dice_raises E count sides kind modifiers s e :
  randbelow_in_range E -> rollable sides kind ->
  _eval_dice E count sides kind modifiers s = Raise e ->
  dice_failure count modifiers e.
Proof.
  intros HE Hk H. unfold _eval_dice, bind in H.
  destruct (dice_pool E count sides kind modifiers s) as [[pool s1]|e1] eqn:Hp.
  - pose proof (dice_pool_length _ _ _ _ _ _ _ _ Hp) as Hlen.
    apply score_pool_raises in H as (spec & Hkeep & Hlt & ->).
    right. right. exists spec. unfold keep_too_many.
    rewrite Hlen in *. auto.
  - injection H as <-.
    destruct (dice_pool_raises _ _ _ _ _ _ _ HE Hk Hp) as [Hr|Hx];
      [left | right; left]; assumption.
Qed.

(** X7: a dice term of rollable dice either evaluates or fails in one of
    three ways: with the [LimitError] of the reroll ceiling, and then it
    has a standard reroll; with the [LimitError] of the explosion ceiling,
    and then it explodes; or with the [SemanticError] of a keep/drop count
    above the number of dice.  The generator never fails, and a term
    without these modifiers always evaluates. *)
Theorem dice_term_fails_in_three_ways_only :
  forall E count sides kind modifiers s,
    randbelow_in_range E -> rollable sides kind ->
    (exists n s', _eval_dice E count sides kind modifiers s = Ok (n, s'))
    \/ (exists e, _eval_dice E count sides kind modifiers s = Raise e
                  /\ dice_failure count modifiers e).
Proof.
  intros E count sides kind modifiers s HE Hk.
  destruct (_eval_dice E count sides kind modifiers s) as [[n s']|e] eqn:H.
  - left. eauto.
  - right. exists e. split; [reflexivity|].
    eapply _eval_dice_raises; eassumption.
Qed.

Lemma dice_term_fails_in_three_ways_only_2d6kh3 :
  (exists n s',
      _eval_dice (tape []) 2 6 Standard
        (mkModifiers None None (Some (mkKeep kh 3)) None None)
        (mkEvaluator fresh []) = Ok (n, s'))
  \/ (exists e,
         _eval_dice (tape []) 2 6 Standard
           (mkModifiers None None (Some (mkKeep kh 3)) None None)
           (mkEvaluator fresh []) = Raise e
         /\ dice_failure 2
              (mkModifiers None None (Some (mkKeep kh 3)) None None) e).
Proof.
  apply (dice_term_fails_in_three_ways_only (tape []) 2 6 Standard
           (mkModifiers None None (Some (mkKeep kh 3)) None None)
           (mkEvaluator fresh [])).
  - intros i n Hn. cbn. lia.
  - right. unfold MAX_SIDES. lia.
Defined.

(** ** How a well-formed tree fails *)

Lemma to_float_raises {S} a (s : S) e :
  to_float a s = Raise e -> exists message, e = PyException "OverflowError" message.
Proof.
  destruct a as [z|f]; cbn [to_float]; [|discriminate].
  unfold float_of_int.
  destruct (binary_normalize prec emax z 0 false); try discriminate.
  intros H. injection H as <-. eauto.
Qed.

Lemma arith_raises {S} zop fop a b (s : S) e :
  arith zop fop a b s = Raise e ->
  exists message, e = PyException "OverflowError" message.
Proof.
  unfold arith. destruct a as [x|x], b as [y|y]; try discriminate;
    unfold bind;
    match goal with
    | |- context [to_float ?a s] =>
        destruct (to_float a s) as [[u s1]|e1] eqn:H1;
        [|intros H; injection H as <-; eapply to_float_raises; eassumption]
    end;
    match goal with
    | |- context [to_float ?a ?s1] =>
        destruct (to_float a s1) as [[v s2]|e2] eqn:H2;
        [discriminate
        |intros H; injection H as <-; eapply to_float_raises; eassumption]
    end.
Qed.

Lemma true_divide_raises {S} a b (s : S) e :
  true_divide a b s = Raise e ->
  exists message, e = PyException "OverflowError" message.
Proof.
  unfold true_divide. destruct a as [x|x], b as [y|y];
    try (unfold bind;
         match goal with
         | |- context [to_float ?a s] =>
             destruct (to_float a s) as [[u s1]|e1] eqn:H1;
             [|intros H; injection H as <-; eapply to_float_raises; eassumption]
         end;
         match goal with
         | |- context [to_float ?a ?s1] =>
             destruct (to_float a s1) as [[v s2]|e2] eqn:H2;
             [discriminate
             |intros H; injection H as <-; eapply to_float_raises; eassumption]
         end).
  destruct (SFdiv prec emax (exact x) (exact y)); try discriminate.
  intros H. injection H as <-. eauto.
Qed.

Lemma well_formed_weaken (D D' : Prop) node :
  (D -> D') -> well_formed D node -> well_formed D' node.
Proof.
  intros HD.
  induction node as [n|op lhs IHl rhs IHr|op operand IH|count sides kind mods];
    cbn [well_formed]; auto.
  intros (Hd & Hl & Hr). auto.
Qed.

Lemma _eval_node_raises E tree :
  randbelow_in_range E -> well_formed True tree ->
  raises_only evaluation_failure (_eval_node E tree).
Proof.
  intros HE.
  induction tree as [n|op lhs IHl rhs IHr|op operand IH|count sides kind mods];
    intros Hwf; cbn [_eval_node].
  - apply raises_only_ret.
  - cbn [well_formed] in Hwf. destruct Hwf as (_ & Hwl & Hwr).
    apply raises_only_bind; [auto|]. intros left_val.
    apply raises_only_bind; [auto|]. intros right_val.
    destruct op;
      try (intros s e H; right; right; eapply arith_raises; eassumption).
    destruct (is_zero right_val).
    + apply raises_only_raise. right. left. reflexivity.
    + intros s e H. right. right. eapply true_divide_raises. eassumption.
  - destruct op. cbn [well_formed] in Hwf.
    apply raises_only_bind; [auto|]. intros v. apply raises_only_ret.
  - cbn [well_formed] in Hwf. destruct Hwf as (_ & Hsides & _).
    apply raises_only_bind; [|intros n; apply raises_only_ret].
    intros s e H. left. exists count, mods.
    eapply _eval_dice_raises; [exact HE | right; exact Hsides | exact H].
Qed.

Lemma _eval_node_integer E tree :
  randbelow_in_range E -> well_formed False tree ->
  forall s,
    match _eval_node E tree s with
    | Ok (result, _) => exists n, result = PyInt n
    | Raise e => exists count modifiers, dice_failure count modifiers e
    end.
Proof.
  intros HE.
  induction tree as [n|op lhs IHl rhs IHr|op operand IH|count sides kind mods];
    intros Hwf s; cbn [_eval_node].
  - cbn. eauto.
  - cbn [well_formed] in Hwf. destruct Hwf as (Hdiv & Hwl & Hwr).
    unfold bind. specialize (IHl Hwl s).
    destruct (_eval_node E lhs s) as [[lv s1]|e1]; [|exact IHl].
    specialize (IHr Hwr s1).
    destruct (_eval_node E rhs s1) as [[rv s2]|e2]; [|exact IHr].
    destruct IHl as [x ->], IHr as [y ->].
    destruct op; cbn; eauto.
    destruct (Hdiv eq_refl).
  - destruct op. cbn [well_formed] in Hwf. unfold bind.
    specialize (IH Hwf s).
    destruct (_eval_node E operand s) as [[v s1]|e1]; [|exact IH].
    destruct IH as [x ->]. cbn. eauto.
  - cbn [well_formed] in Hwf. destruct Hwf as (_ & Hsides & _).
    unfold bind.
    destruct (_eval_dice E count sides kind mods s) as [[n s1]|e] eqn:Hd.
    + cbn. eauto.
    + exists count, mods.
      eapply _eval_dice_raises; [exact HE | right; exact Hsides | exact Hd].
Qed.

(** X8: the evaluation of a well-formed tree that is shallow enough for
    the interpreter fails in known ways only: one of its dice terms fails,
    a division has a zero divisor, or a number is too large for a float.
    When the tree has no division the result is an integer, and a failure
    is that of a dice term. *)
Theorem well_formed_tree_fails_in_known_ways_only :
  forall E tree s,
    randbelow_in_range E -> well_formed True tree -> shallow tree ->
    match _eval_node E tree s with
    | Ok (result, s') =>
        well_formed False tree -> exists n, result = PyInt n
    | Raise e =>
        evaluation_failure e
        /\ (well_formed False tree ->
            exists count modifiers, dice_failure count modifiers e)
    end.
Proof.
  intros E tree s HE Hwf _.
  pose proof (_eval_node_raises E tree HE Hwf s) as Hraise.
  pose proof (fun Hf => _eval_node_integer E tree HE Hf s) as Hint.
  destruct (_eval_node E tree s) as [[result s']|e].
  - exact Hint.
  - split; [apply Hraise; reflexivity | exact Hint].
Qed.

Lemma well_formed_tree_fails_in_known_ways_only_1_over_0 :
  match _eval_node (tape []) (BinaryOp Div (Number 1) (Number 0))
                   (mkEvaluator fresh []) with
  | Ok (result, s') =>
      well_formed False (BinaryOp Div (Number 1) (Number 0)) ->
      exists n, result = PyInt n
  | Raise e =>
      evaluation_failure e
      /\ (well_formed False (BinaryOp Div (Number 1) (Number 0)) ->
          exists count modifiers, dice_failure count modifiers e)
  end.
Proof.
  apply (well_formed_tree_fails_in_known_ways_only (tape [])
           (BinaryOp Div (Number 1) (Number 0)) (mkEvaluator fresh [])).
  - intros i n Hn. cbn. lia.
  - cbn. repeat split; lia.
  - unfold shallow, MODEST. cbn. lia.
Defined.

(** ** The parser returns well-formed trees *)

Lemma int_of_digits_nonneg l :
  forallb is_digit l = true -> 0 <= int_of_digits l.
Proof.
  unfold int_of_digits.
  assert (H : forall acc, 0 <= acc -> forallb is_digit l = true ->
                          0 <= fold_left (fun a c => a * 10 + digit_value c) l acc).
  { induction l as [|c l IH]; intros acc Hacc Hl; cbn [fold_left]; [exact Hacc|].
    cbn [forallb] in Hl. apply andb_true_iff in Hl as [Hc Hl].
    apply IH; [|exact Hl].
    unfold is_digit in Hc. apply andb_true_iff in Hc as [Hc _].
    apply N.leb_le in Hc. unfold digit_value. lia. }
  apply H. lia.
Qed.

Lemma lexeme_number s :
  Z.of_nat (slen s) <= MAX_STR_DIGITS ->
  lexeme s = true -> isdigit s = true ->
  exists n, py_int s = Some n /\ 0 <= n.
Proof.
  rewrite slen_chars. unfold lexeme, isdigit, py_int.
  destruct (chars s) as [|c rest]; [discriminate|].
  intros Hlen Hl Hd. apply Z.leb_le in Hlen. rewrite Hlen, andb_true_r.
  assert (Hc : isdigit_char c = true).
  { cbn [forallb] in Hd. apply andb_true_iff in Hd as [Hd _]. exact Hd. }
  rewrite Hc in Hl. cbn [negb andb] in Hl. rewrite orb_false_r in Hl.
  rewrite Hl. eexists. split; [reflexivity|].
  apply int_of_digits_nonneg. exact Hl.
Qed.

Lemma chars_nil s : chars s = [] -> s = EmptyString.
Proof. destruct s; [reflexivity | discriminate]. Qed.

Lemma lexeme_minus s :
  lexeme s = true -> startswith "-" s && isdigit (tail_str s) = false.
Proof.
  unfold lexeme, startswith. destruct s as [|c s']; [reflexivity|].
  cbn [chars list_ascii_of_string String.prefix tail_str].
  destruct (ascii_dec "-" c) as [<-|_]; [|reflexivity].
  cbn. fold (chars s').
  destruct (chars s') as [|a l] eqn:Hs'; [|discriminate].
  intros _. apply chars_nil in Hs'. subst s'. reflexivity.
Qed.

Section ParserSoundness.

Variable T : Tokenizer.
Hypothesis tokens_lexemes :
  Forall (fun t => lexeme (tok_text t) = true) (tokens T).
Hypothesis tokens_short :
  Forall (fun t => Z.of_nat (slen (tok_text t)) <= MAX_STR_DIGITS) (tokens T).

Lemma tidy_ret {A} (Q : A -> Prop) a p :
  same_input T p -> Q a -> tidy T Q (ret a p).
Proof. intros Hs Ha. cbn. auto. Qed.

Lemma tidy_bind {A B} (Q1 : A -> Prop) (Q : B -> Prop)
  (m : P A) (k : A -> P B) p :
  tidy T Q1 (m p) ->
  (forall a p1, m p = Ok (a, p1) -> same_input T p1 -> Q1 a ->
                tidy T Q (k a p1)) ->
  tidy T Q (bind m k p).
Proof.
  intros Hm Hk. unfold bind. destruct (m p) as [[a p1]|e] eqn:Heq.
  - destruct Hm as [Hs Ha]. apply Hk; auto.
  - exact Hm.
Qed.

Lemma tidy_parse_error {A} (Q : A -> Prop) msg w p :
  tidy T Q (@parse_error A msg w p).
Proof. cbn. left. exact I. Qed.

Lemma tidy_exhausted {A} (Q : A -> Prop) p : tidy T Q (@recursion_error A p).
Proof. cbn. right. reflexivity. Qed.

Lemma tidy_consume_then {A} (Q : A -> Prop) expected (k : string -> P A) p :
  same_input T p ->
  (forall token p',
      nth_error (tokens T) (position (tokenizer p)) = Some token ->
      same_input T p' ->
      position (tokenizer p') = S (position (tokenizer p)) ->
      tidy T Q (k (tok_text token) p')) ->
  tidy T Q (bind (consume expected) k p).
Proof.
  intros Hs Hk. pose proof Hs as [Ht Htok].
  pose proof (consume_cases expected p) as Hc. unfold bind.
  rewrite Htok in Hc.
  destruct (nth_error (tokens T) (position (tokenizer p))) as [token|] eqn:Hn.
  - destruct Hc as [Hc|(msg & Hc)]; rewrite Hc.
    + apply Hk; [reflexivity | split; [exact Ht | reflexivity] | reflexivity].
    + cbn. left. exact I.
  - destruct Hc as (msg & Hc). rewrite Hc. cbn. left. exact I.
Qed.

Lemma tidy_token_pos_then {A} (Q : A -> Prop) i (k : nat -> P A) p :
  same_input T p -> nth_error (tokens T) i <> None ->
  (forall w, tidy T Q (k w p)) ->
  tidy T Q (bind (token_pos i) k p).
Proof.
  intros [_ Hk] Hi Hcont. unfold token_pos, bind, get, ret, raise. rewrite Hk.
  destruct (nth_error (tokens T) i) as [t|]; [apply Hcont | congruence].
Qed.

Lemma tidy_here_or_end_then {A} (Q : A -> Prop) (k : nat -> P A) p :
  same_input T p -> (forall w, tidy T Q (k w p)) ->
  tidy T Q (bind here_or_end k p).
Proof.
  intros Hs Hcont. unfold here_or_end.
  change (tidy T Q (bind (bind at_end (fun e => if e then text_len
           else bind get (fun p0 => token_pos (position (tokenizer p0))))) k p)).
  unfold bind at 1. rewrite bind_at_end.
  destruct (_ <=? _)%nat eqn:He.
  - cbn. apply Hcont.
  - rewrite bind_get.
    assert (Hn : nth_error (tokens T) (position (tokenizer p)) <> None).
    { apply Nat.leb_gt in He. destruct Hs as [_ Hk]. rewrite Hk in He.
      apply nth_error_Some. exact He. }
    pose proof (tidy_token_pos_then Q (position (tokenizer p)) k p Hs Hn Hcont)
      as H.
    unfold bind in H. exact H.
Qed.

Lemma bind_no_number_next_eq {A} (k : bool -> P A) p :
  bind no_number_next k p
  = k (match nth_error (tokens (tokenizer p)) (position (tokenizer p)) with
       | Some t => negb (isdigit (tok_text t))
       | None => true
       end) p.
Proof.
  unfold no_number_next, at_end, peek, get, bind, ret.
  destruct (_ <=? _)%nat eqn:He.
  - apply Nat.leb_le in He. apply nth_error_None in He. rewrite He. reflexivity.
  - rewrite Nat.add_0_r. destruct (nth_error _ _); reflexivity.
Qed.

Lemma tidy_number_then {A} (Q : A -> Prop) (k : Z -> P A) p tk :
  same_input T p ->
  nth_error (tokens T) (position (tokenizer p)) = Some tk ->
  isdigit (tok_text tk) = true ->
  (forall n p', 0 <= n -> same_input T p' -> tidy T Q (k n p')) ->
  tidy T Q (bind (consume None) (fun s => bind (int_ s) k) p).
Proof.
  intros Hs Hn Hd Hk. apply tidy_consume_then; [assumption|].
  intros token p' Hn' Hs' _. rewrite Hn in Hn'. injection Hn' as <-.
  assert (Hlex : lexeme (tok_text tk) = true).
  { rewrite Forall_forall in tokens_lexemes. apply tokens_lexemes.
    eapply nth_error_In. eassumption. }
  assert (Hlen : Z.of_nat (slen (tok_text tk)) <= MAX_STR_DIGITS).
  { rewrite Forall_forall in tokens_short. apply tokens_short.
    eapply nth_error_In. eassumption. }
  destruct (lexeme_number _ Hlen Hlex Hd) as (n & Hint & Hpos).
  unfold int_. rewrite Hint. apply Hk; assumption.
Qed.

Lemma tidy_number p tk :
  same_input T p ->
  nth_error (tokens T) (position (tokenizer p)) = Some tk ->
  isdigit (tok_text tk) = true ->
  tidy T (fun n => 0 <= n) (bind (consume None) (fun s => int_ s) p).
Proof.
  intros Hs Hn Hd. apply tidy_consume_then; [assumption|].
  intros token p' Hn' Hs' _. rewrite Hn in Hn'. injection Hn' as <-.
  assert (Hlex : lexeme (tok_text tk) = true).
  { rewrite Forall_forall in tokens_lexemes. apply tokens_lexemes.
    eapply nth_error_In. eassumption. }
  assert (Hlen : Z.of_nat (slen (tok_text tk)) <= MAX_STR_DIGITS).
  { rewrite Forall_forall in tokens_short. apply tokens_short.
    eapply nth_error_In. eassumption. }
  destruct (lexeme_number _ Hlen Hlex Hd) as (n & Hint & Hpos).
  unfold int_. rewrite Hint. apply tidy_ret; assumption.
Qed.

(** After an operator, a number or the error. *)
Lemma tidy_operand_then {A} (Q : A -> Prop) msg (k : Z -> P A) p :
  same_input T p ->
  (forall n p', 0 <= n -> same_input T p' -> tidy T Q (k n p')) ->
  tidy T Q (bind no_number_next
              (fun bad => if bad then bind here_or_end (fun w => parse_error msg w)
                          else bind (consume None) (fun s => bind (int_ s) k)) p).
Proof.
  intros Hs Hk. rewrite bind_no_number_next_eq.
  destruct Hs as [Ht Htok]. rewrite Htok.
  destruct (nth_error (tokens T) (position (tokenizer p))) as [tk|] eqn:Hn.
  - destruct (isdigit (tok_text tk)) eqn:Hd; cbn [negb].
    + eapply tidy_number_then; try eassumption. split; assumption.
    + apply tidy_here_or_end_then; [split; assumption|].
      intros w. apply tidy_parse_error.
  - apply tidy_here_or_end_then; [split; assumption|].
    intros w. apply tidy_parse_error.
Qed.

Lemma tidy_parse_condition op v p :
  same_input T p -> tidy T (condition_or v) (parse_condition op v p).
Proof.
  intros Hs. unfold parse_condition. rewrite bind_peek, Nat.add_0_r.
  pose proof Hs as [Ht Htok]. rewrite Htok.
  destruct (nth_error (tokens T) (position (tokenizer p))) as [tk|] eqn:Hn;
    cbn [option_map].
  2:{ apply tidy_ret; [assumption | left; reflexivity]. }
  destruct (cmp_of_string (tok_text tk)).
  - apply tidy_consume_then; [assumption|]. intros token p1 _ Hs1 _.
    apply tidy_operand_then; [assumption|]. intros n p2 Hn2 Hs2.
    apply tidy_ret; [assumption|]. right. exists n. auto.
  - destruct (isdigit (tok_text tk)) eqn:Hd.
    + eapply tidy_number_then; try eassumption.
      intros n p2 Hn2 Hs2.
      apply tidy_ret; [assumption|]. right. exists n. auto.
    + apply tidy_ret; [assumption | left; reflexivity].
Qed.


Lemma natural_of_default c n :
  0 <= n -> condition_or (Num n) c -> natural_condition c.
Proof. intros Hn [H|H]; [exists n; auto | exact H]. Qed.

Lemma tidy_modifiers_loop : forall n mods p,
  same_input T p -> well_formed_modifiers mods ->
  tidy T well_formed_modifiers (modifiers_loop n mods p).
Proof.
  induction n as [|n IH]; intros mods p Hs Hwf; cbn [modifiers_loop];
    rewrite bind_at_end;
    (destruct (_ <=? _)%nat; [apply tidy_ret; assumption|]);
    rewrite bind_peek;
    (destruct (option_map tok_text _) as [token|];
     [|apply tidy_ret; assumption]);
    (destruct (String.eqb token EmptyString); [apply tidy_ret; assumption|]).
  - cbn. right. reflexivity.
  - destruct Hwf as (Hre & Hex & Hke & Hco).
    destruct (is_in (lower token) ["r"; "ro"]).
    { apply tidy_consume_then; [assumption|]. intros tk p1 _ Hs1 _.
      eapply tidy_bind; [apply tidy_parse_condition; assumption|].
      intros c p2 _ Hs2 Hc. apply IH; [assumption|].
      repeat split; cbn [reroll explode keep comparator reroll_condition];
        try assumption.
      eapply natural_of_default; [|exact Hc]. lia. }
    destruct (is_in (lower token) ["!"; "!!"; "!p"]).
    { apply tidy_consume_then; [assumption|]. intros tk p1 _ Hs1 _.
      eapply tidy_bind; [apply tidy_parse_condition; assumption|].
      intros c p2 _ Hs2 Hc. apply IH; [assumption|].
      repeat split; cbn [reroll explode keep comparator explode_condition];
        try assumption. }
    destruct (keep_type_of_string (lower token)) as [mod_type|].
    { apply tidy_consume_then; [assumption|]. intros tk p1 _ Hs1 _.
      apply tidy_operand_then; [assumption|]. intros k p2 Hk Hs2.
      apply IH; [assumption|].
      repeat split; cbn [reroll explode keep comparator keep_count];
        assumption. }
    destruct (is_in (lower token) ["sa"; "sd"]).
    { apply tidy_consume_then; [assumption|]. intros tk p1 _ Hs1 _.
      apply IH; [assumption|].
      repeat split; cbn [reroll explode keep comparator]; assumption. }
    destruct (cmp_of_string (lower token)).
    { apply tidy_consume_then; [assumption|]. intros tk p1 _ Hs1 _.
      apply tidy_operand_then; [assumption|]. intros k p2 Hk Hs2.
      apply tidy_ret; [assumption|].
      repeat split; cbn [reroll explode keep comparator]; try assumption.
      exists k. auto. }
    apply tidy_ret; [assumption|]. repeat split; assumption.
Qed.

Lemma tidy_parse_dice_modifiers p :
  same_input T p -> tidy T well_formed_modifiers (parse_dice_modifiers p).
Proof.
  intros Hs. unfold parse_dice_modifiers. rewrite bind_get.
  apply tidy_modifiers_loop; [assumption|]. repeat split.
Qed.

Lemma tidy_parse_dice p :
  same_input T p -> tidy T (well_formed (divides T)) (parse_dice p).
Proof.
  intros Hs. unfold parse_dice. rewrite bind_peek, Nat.add_0_r.
  pose proof Hs as [Ht Htok]. rewrite Htok.
  apply (tidy_bind (fun n => 0 <= n)).
  { destruct (nth_error (tokens T) (position (tokenizer p))) as [tk|] eqn:Hn;
      cbn [option_map]; [|apply tidy_ret; [assumption | lia]].
    destruct (isdigit (tok_text tk)) eqn:Hd;
      [|apply tidy_ret; [assumption | lia]].
    eapply tidy_number; eassumption. }
  intros count p1 _ Hs1 _.
  apply tidy_consume_then; [assumption|]. intros die p2 Hdie Hs2 Hp2.
  rewrite bind_get.
  assert (Hback : nth_error (tokens T) (position (tokenizer p2) - 1) <> None).
  { rewrite Hp2. replace (S (position (tokenizer p1)) - 1)%nat
      with (position (tokenizer p1)) by lia. congruence. }
  destruct (negb (startswith "d" (lower (tok_text die)))).
  { apply tidy_token_pos_then; [assumption | exact Hback|].
    intros w. apply tidy_parse_error. }
  cbv zeta.
  apply (tidy_bind (fun sk : Z * die_type =>
                      match snd sk with
                      | Standard => True
                      | Percentile => fst sk = 100
                      | Fate => fst sk = 3
                      end)).
  { destruct (String.eqb _ "%" || String.eqb _ "00");
      [apply tidy_ret; [assumption | reflexivity]|].
    destruct (String.eqb _ "f" || String.eqb _ "f.2");
      [apply tidy_ret; [assumption | reflexivity]|].
    destruct (py_int _) as [n|];
      [apply tidy_ret; [assumption | exact I]|].
    apply tidy_token_pos_then; [assumption | exact Hback|].
    intros w. apply tidy_parse_error. }
  intros [sides kind] p3 _ Hs3 Hkind. cbn [fst snd] in Hkind.
  destruct (Z.gtb_spec count MAX_DICE); [cbn; left; exact I|].
  destruct (Z.gtb_spec sides MAX_SIDES); [cbn; left; exact I|].
  destruct (Z.ltb_spec count 1); [cbn; left; exact I|].
  destruct (Z.ltb_spec sides 1); [cbn; left; exact I|].
  eapply tidy_bind; [apply tidy_parse_dice_modifiers; assumption|].
  intros mods p4 _ Hs4 Hmods.
  apply tidy_ret; [assumption|]. cbn [well_formed].
  split; [lia|]. split; [lia|].
  split; [destruct kind; auto | exact Hmods].
Qed.

Lemma tidy_parse_primary p :
  same_input T p -> tidy T (well_formed (divides T)) (parse_primary p).
Proof.
  intros Hs. unfold parse_primary. rewrite bind_peek, Nat.add_0_r.
  pose proof Hs as [Ht Htok]. rewrite Htok.
  destruct (nth_error (tokens T) (position (tokenizer p))) as [tk|] eqn:Hn;
    cbn [option_map].
  2:{ rewrite bind_text_len. apply tidy_parse_error. }
  destruct (String.eqb (tok_text tk) EmptyString).
  { rewrite bind_text_len. apply tidy_parse_error. }
  rewrite bind_peek.
  destruct (startswith "d" (lower (tok_text tk)) || _);
    [apply tidy_parse_dice; assumption|].
  destruct (isdigit (tok_text tk)
            || startswith "-" (tok_text tk) && isdigit (tail_str (tok_text tk)))
    eqn:Hnum.
  - assert (Hd : isdigit (tok_text tk) = true).
    { assert (Hlex : lexeme (tok_text tk) = true).
      { rewrite Forall_forall in tokens_lexemes. apply tokens_lexemes.
        eapply nth_error_In. eassumption. }
      rewrite (lexeme_minus _ Hlex), orb_false_r in Hnum. exact Hnum. }
    eapply tidy_number_then; try eassumption.
    intros n p1 Hn1 Hs1. apply tidy_ret; [assumption | exact Hn1].
  - rewrite bind_get.
    apply tidy_token_pos_then; [assumption | congruence|].
    intros w. apply tidy_parse_error.
Qed.

Lemma mul_op_div op : mul_op (option_map tok_text op) = Some Div ->
  exists tk, op = Some tk /\ tok_text tk = "/".
Proof.
  destruct op as [tk|]; cbn; [|discriminate].
  destruct (String.eqb (tok_text tk) "*"); [discriminate|].
  destruct (String.eqb_spec (tok_text tk) "/"); [|discriminate].
  eauto.
Qed.

Lemma tidy_term_loop factor : sound T factor ->
  forall n left p,
    same_input T p -> well_formed (divides T) left ->
    tidy T (well_formed (divides T)) (term_loop factor n left p).
Proof.
  intros Hf. induction n as [|n IH]; intros left p Hs Hl;
    cbn [term_loop]; rewrite bind_at_end;
    (destruct (_ <=? _)%nat; [apply tidy_ret; assumption|]);
    rewrite bind_peek, Nat.add_0_r;
    (destruct (mul_op _) as [o|] eqn:Hop; [|apply tidy_ret; assumption]).
  - apply tidy_exhausted.
  - apply tidy_consume_then; [assumption|]. intros tk p1 _ Hs1 _.
    eapply tidy_bind; [apply Hf; assumption|].
    intros right p2 _ Hs2 Hr. apply IH; [assumption|].
    cbn [well_formed]. repeat split; try assumption.
    intros ->. apply mul_op_div in Hop as (t & Hn & Ht).
    unfold divides. rewrite <- Ht. apply in_map.
    destruct Hs as [_ Hk]. rewrite Hk in Hn.
    eapply nth_error_In. eassumption.
Qed.

Lemma tidy_parse_term factor : sound T factor -> sound T (parse_term factor).
Proof.
  intros Hf p Hs. unfold parse_term.
  eapply tidy_bind; [apply Hf; assumption|].
  intros left p1 _ Hs1 Hl. rewrite bind_get.
  apply tidy_term_loop; assumption.
Qed.

Lemma add_op_not_div op : add_op op <> Some Div.
Proof.
  destruct op as [o|]; cbn; [|discriminate].
  destruct (String.eqb o "+"); [discriminate|].
  destruct (String.eqb o "-"); discriminate.
Qed.

Lemma tidy_expression_loop factor : sound T factor ->
  forall n left p,
    same_input T p -> well_formed (divides T) left ->
    tidy T (well_formed (divides T)) (expression_loop factor n left p).
Proof.
  intros Hf. induction n as [|n IH]; intros left p Hs Hl;
    cbn [expression_loop]; rewrite bind_at_end;
    (destruct (_ <=? _)%nat; [apply tidy_ret; assumption|]);
    rewrite bind_peek;
    (destruct (add_op _) as [o|] eqn:Hop; [|apply tidy_ret; assumption]).
  - apply tidy_exhausted.
  - apply tidy_consume_then; [assumption|]. intros tk p1 _ Hs1 _.
    eapply tidy_bind; [apply (tidy_parse_term factor Hf); assumption|].
    intros right p2 _ Hs2 Hr. apply IH; [assumption|].
    cbn [well_formed]. repeat split; try assumption.
    intros ->. exfalso. eapply add_op_not_div. eassumption.
Qed.

Lemma tidy_parse_expression_with factor :
  sound T factor -> sound T (parse_expression_with factor).
Proof.
  intros Hf p Hs. unfold parse_expression_with.
  eapply tidy_bind; [apply (tidy_parse_term factor Hf); assumption|].
  intros left p1 _ Hs1 Hl. rewrite bind_get.
  apply tidy_expression_loop; assumption.
Qed.

Lemma tidy_factor_shape (operand expr : P ast) :
  sound T operand -> sound T expr ->
  sound T
    (token <- peek 0 ;;
     if token_is token "-" then
       consume None ;;;
       operand <- operand ;;
       ret (UnaryOp Neg operand)
     else if token_is token "(" then
       p <- get ;;
       set_depth (S (recursion_depth p)) ;;;
       if (MAX_RECURSION <? S (recursion_depth p))%nat then
         raise (LimitError ("Exceeded maximum recursion depth of "
                            ++ str (Z.of_nat MAX_RECURSION))%string)
       else
         consume (Some "(") ;;;
         expr <- expr ;;
         consume (Some ")") ;;;
         p' <- get ;;
         set_depth (recursion_depth p' - 1) ;;;
         ret expr
     else parse_primary)%monad.
Proof.
  intros Ho He p Hs. rewrite bind_peek.
  destruct (token_is _ "-").
  { apply tidy_consume_then; [assumption|]. intros tk p1 _ Hs1 _.
    eapply tidy_bind; [apply Ho; assumption|].
    intros v p2 _ Hs2 Hv. apply tidy_ret; assumption. }
  destruct (token_is _ "("); [|apply tidy_parse_primary; assumption].
  rewrite bind_get.
  change (bind (set_depth ?d) ?k p) with (k tt (mkParser (tokenizer p) d)).
  cbv beta.
  destruct (MAX_RECURSION <? S (recursion_depth p))%nat;
    [cbn; left; exact I|].
  apply tidy_consume_then; [exact Hs|]. intros tk p1 _ Hs1 _.
  eapply tidy_bind; [apply He; assumption|].
  intros v p2 _ Hs2 Hv.
  apply tidy_consume_then; [assumption|]. intros tk' p3 _ Hs3 _.
  rewrite bind_get.
  change (bind (set_depth ?d) ?k p3) with (k tt (mkParser (tokenizer p3) d)).
  cbv beta. apply tidy_ret; assumption.
Qed.

Lemma tidy_parse_factor : forall fuel, sound T (parse_factor fuel).
Proof.
  induction fuel as [|fuel IH].
  - apply (tidy_factor_shape recursion_error recursion_error);
      intros p Hs; apply tidy_exhausted.
  - apply (tidy_factor_shape (parse_factor fuel)
             (parse_expression_with (parse_factor fuel)));
      [exact IH | apply tidy_parse_expression_with; exact IH].
Qed.

Lemma tidy_parse p :
  same_input T p -> tidy T (well_formed (divides T)) (parse p).
Proof.
  intros Hs. unfold parse. rewrite bind_at_end.
  destruct (_ <=? _)%nat; [apply tidy_parse_error|].
  eapply tidy_bind.
  - unfold parse_expression. rewrite bind_get.
    apply tidy_parse_expression_with; [apply tidy_parse_factor | assumption].
  - intros result p1 _ Hs1 Hr. rewrite bind_at_end.
    destruct (_ <=? _)%nat eqn:He; cbn [negb];
      [apply tidy_ret; assumption|].
    rewrite bind_peek, bind_get.
    apply tidy_token_pos_then; [assumption| |intros w; apply tidy_parse_error].
    apply Nat.leb_gt in He. destruct Hs1 as [_ Hk]. rewrite Hk in He.
    apply nth_error_Some. exact He.
Qed.

End ParserSoundness.

(** Every token is a lexeme, made of characters of the text. *)

Lemma superscripts_alien c :
  is_digit c = false -> isdigit_char c = true -> lexeme_char c = false.
Proof.
  destruct c as [b0 b1 b2 b3 b4 b5 b6 b7].
  destruct b0, b1, b2, b3, b4, b5, b6, b7; vm_compute;
    intros H1 H2; try reflexivity; discriminate.
Qed.

Lemma span_len_forallb p s : forallb p (firstn (span_len p s) s) = true.
Proof.
  induction s as [|c s IH]; cbn [span_len]; [reflexivity|].
  destruct (p c) eqn:Hc; [|reflexivity].
  cbn [firstn forallb]. rewrite Hc, IH. reflexivity.
Qed.

Lemma lit_pos q s n : q <> [] -> lit q s = Some n -> (1 <= n)%nat.
Proof.
  destruct q as [|a q]; [congruence|]. intros _.
  destruct s as [|c s]; cbn [lit]; [discriminate|].
  destruct (Ascii.eqb (lower_char c) a); [|discriminate].
  destruct (lit q s); cbn; [|discriminate].
  intros H. injection H as <-. lia.
Qed.

Lemma first_of_all (Pr : nat -> Prop) alts s :
  Forall (fun a => forall n, a s = Some n -> Pr n) alts ->
  forall n, first_of alts s = Some n -> Pr n.
Proof.
  induction 1 as [|a alts Ha _ IH]; intros n H; cbn [first_of] in H.
  - discriminate.
  - destruct (a s) as [m|] eqn:Hm; [|auto].
    injection H as <-. auto.
Qed.

Lemma first_group_all (Pr : nat -> Prop) alts s :
  Forall (fun a => forall n, a s = Some n -> Pr n) alts ->
  forall g0 g n, first_group g0 alts s = Some (g, n) -> Pr n.
Proof.
  induction 1 as [|a alts Ha _ IH]; intros g0 g n H; cbn [first_group] in H.
  - discriminate.
  - destruct (a s) as [m|] eqn:Hm; [|eauto].
    injection H as _ <-. auto.
Qed.

Lemma span_alt_pos p s n :
  match span_len p s with O => None | m => Some m end = Some n -> (1 <= n)%nat.
Proof.
  destruct (span_len p s); [discriminate|].
  intros H. injection H as <-. lia.
Qed.

Lemma alt_d_digits_pos s n : alt_d_digits s = Some n -> (1 <= n)%nat.
Proof.
  unfold alt_d_digits. destruct (lit _ s); [|discriminate].
  destruct (span_len _ _); [discriminate|].
  intros H. injection H as <-. lia.
Qed.

Lemma alt_comment_pos s n : alt_comment s = Some n -> (1 <= n)%nat.
Proof.
  unfold alt_comment. destruct (lit _ s); [|discriminate].
  intros H. injection H as <-. lia.
Qed.

(** A match is never empty. *)
Lemma TOKEN_PATTERN_pos s g n : TOKEN_PATTERN s = Some (g, n) -> (1 <= n)%nat.
Proof.
  unfold TOKEN_PATTERN. apply first_group_all.
  repeat constructor; intros m;
    try apply span_alt_pos; try apply alt_d_digits_pos;
    try apply alt_comment_pos;
    unfold alt_dice, alt_keep, alt_reroll_explode, alt_comparator, alt_sort,
      alt_operator, lits;
    cbn [map app]; apply first_of_all;
    repeat constructor; intros k Hk;
    try (eapply lit_pos; [|exact Hk]; discriminate).
  eapply alt_d_digits_pos. exact Hk.
Qed.

Lemma chars_of_chars l : chars (of_chars l) = l.
Proof. apply list_ascii_of_string_of_list_ascii. Qed.

Lemma TOKEN_PATTERN_lexeme s g n :
  TOKEN_PATTERN s = Some (g, n) -> lexeme (of_chars (firstn n s)) = true.
Proof.
  intros H. pose proof (TOKEN_PATTERN_pos _ _ _ H) as Hn.
  destruct s as [|c s]; [discriminate|].
  destruct n as [|n]; [lia|]. clear Hn.
  unfold lexeme. rewrite chars_of_chars. cbn [firstn].
  destruct (is_digit c) eqn:Hd.
  - assert (Hm : TOKEN_PATTERN (c :: s) = Some (1%nat, S (span_len is_digit s))).
    { unfold TOKEN_PATTERN. cbn [first_group]. unfold alt_number.
      cbn [span_len]. rewrite Hd. reflexivity. }
    rewrite Hm in H. injection H as _ <-.
    cbn [forallb]. rewrite Hd, span_len_forallb. reflexivity.
  - cbn [forallb]. rewrite Hd. cbn [andb orb].
    destruct (isdigit_char c) eqn:Hi.
    + rewrite (TOKEN_PATTERN_alien c s (superscripts_alien c Hd Hi)) in H.
      discriminate.
    + cbn [negb andb].
      destruct (Ascii.eqb_spec c "-"%char) as [->|_]; [|reflexivity].
      cbn [negb orb].
      assert (Hm : TOKEN_PATTERN ("-"%char :: s) = Some (7%nat, 1%nat))
        by reflexivity.
      rewrite Hm in H. injection H as _ <-. reflexivity.
Qed.

Lemma finditer_lexemes : forall s at_pos inside,
  Forall (fun t => lexeme (tok_text t) = true) (finditer s at_pos inside).
Proof.
  induction s as [|c s IH]; intros at_pos inside; cbn [finditer].
  - constructor.
  - destruct inside; [|apply IH].
    destruct (TOKEN_PATTERN (c :: s)) as [[g n]|] eqn:Hm; [|apply IH].
    destruct ((g =? 9)%nat || (g =? 8)%nat); [apply IH|].
    constructor; [|apply IH].
    cbn [tok_text]. eapply TOKEN_PATTERN_lexeme. eassumption.
Qed.

Lemma finditer_chars : forall s at_pos inside,
  Forall (fun t => forall c, In c (chars (tok_text t)) -> In c s)
         (finditer s at_pos inside).
Proof.
  induction s as [|a s IH]; intros at_pos inside; cbn [finditer].
  - constructor.
  - assert (Hrest : forall k i,
               Forall (fun t => forall c, In c (chars (tok_text t)) ->
                                          In c (a :: s))
                      (finditer s k i)).
    { intros k i. eapply Forall_impl; [|apply IH].
      cbn. intros t Ht c Hc. right. auto. }
    destruct inside; [|apply Hrest].
    destruct (TOKEN_PATTERN (a :: s)) as [[g n]|] eqn:Hm; [|apply Hrest].
    destruct ((g =? 9)%nat || (g =? 8)%nat); [apply Hrest|].
    constructor; [|apply Hrest].
    cbn [tok_text]. rewrite chars_of_chars. intros c Hc.
    rewrite <- (firstn_skipn n (a :: s)). apply in_or_app. left. exact Hc.
Qed.

Lemma lstrip_incl c l : In c (lstrip l) -> In c l.
Proof.
  induction l as [|a l IH]; cbn [lstrip]; [auto|].
  destruct (is_space a); [right; auto | auto].
Qed.

Lemma strip_incl c s : In c (chars (strip s)) -> In c (chars s).
Proof.
  unfold strip. rewrite chars_of_chars. intros H.
  apply in_rev in H. apply lstrip_incl in H.
  apply in_rev in H. apply lstrip_incl in H. exact H.
Qed.

Lemma divides_slash expression :
  divides (new_Tokenizer expression) -> In "/"%char (chars expression).
Proof.
  unfold divides. cbn [new_Tokenizer tokens]. intros H.
  apply in_map_iff in H as (t & Ht & Hin).
  apply strip_incl.
  pose proof (finditer_chars (chars (strip expression)) O O) as Hall.
  rewrite Forall_forall in Hall. apply (Hall t Hin).
  rewrite Ht. left. reflexivity.
Qed.

Lemma finditer_short : forall s at_pos inside,
  Forall (fun t => (slen (tok_text t) <= List.length s)%nat)
         (finditer s at_pos inside).
Proof.
  induction s as [|c s IH]; intros at_pos inside; cbn [finditer].
  - constructor.
  - assert (Hnext : forall a k,
              Forall (fun t => (slen (tok_text t) <= List.length (c :: s))%nat)
                     (finditer s a k)).
    { intros a k. eapply Forall_impl; [|apply IH].
      intros t Ht. cbn beta in Ht. cbn [List.length]. lia. }
    destruct inside; [|apply Hnext].
    destruct (TOKEN_PATTERN (c :: s)) as [[g n]|] eqn:Hm; [|apply Hnext].
    destruct ((g =? 9)%nat || (g =? 8)%nat); [apply Hnext|].
    constructor; [|apply Hnext].
    cbn [tok_text]. rewrite slen_chars, chars_of_chars, length_firstn. lia.
Qed.

Lemma lstrip_length l : (List.length (lstrip l) <= List.length l)%nat.
Proof.
  induction l as [|c l IH]; cbn [lstrip]; [lia|].
  destruct (is_space c); cbn [List.length]; lia.
Qed.

Lemma strip_length s : (slen (strip s) <= slen s)%nat.
Proof.
  unfold strip. rewrite !slen_chars, chars_of_chars, length_rev.
  pose proof (lstrip_length (rev (lstrip (chars s)))) as H1.
  pose proof (lstrip_length (chars s)) as H2.
  rewrite length_rev in H1. lia.
Qed.

Lemma parse_sound expression :
  modest expression ->
  tidy (new_Tokenizer expression)
       (well_formed (divides (new_Tokenizer expression)))
       (parse (new_DiceParser expression)).
Proof.
  intros Hm.
  apply tidy_parse; [apply finditer_lexemes | | split; reflexivity].
  cbn [new_Tokenizer tokens]. unfold _tokenize.
  eapply Forall_impl; [|apply finditer_short].
  intros t Ht. cbn beta in Ht.
  pose proof (strip_length expression) as Hs.
  rewrite slen_chars in Hs. unfold modest, MODEST in Hm.
  unfold MAX_STR_DIGITS. lia.
Qed.

(** X9: on a modest input [parse] returns a well-formed tree or raises
    one of the parser's three exceptions, [ParseError], [SemanticError] or
    [LimitError]: no conversion of a token to a number fails and no token
    is looked up past the end.  In a tree it returns every dice term has 1
    to [MAX_DICE] dice of 1 to [MAX_SIDES] sides, 100 for percentile and 3
    for FATE dice, every number of the tree and of its modifiers is
    natural, only an explosion has the threshold ['max'], and a division
    occurs only when the input holds the character [/]. *)
Theorem parse_gives_well_formed_tree_or_expected_error :
  forall expression,
    modest expression ->
    match parse (new_DiceParser expression) with
    | Ok (tree, _) => well_formed (In "/"%char (chars expression)) tree
    | Raise e => expected_error e
    end.
Proof.
  intros expression Hm.
  pose proof (parse_sound expression Hm) as Ht.
  pose proof (parse_is_located_and_terminates expression) as Hg.
  destruct (parse (new_DiceParser expression)) as [[tree p]|e].
  - destruct Ht as [_ Hw].
    eapply well_formed_weaken; [apply divides_slash | exact Hw].
  - destruct Ht as [He|He]; [exact He|].
    destruct Hg as [_ Hne]. contradiction.
Qed.

Lemma parse_gives_well_formed_tree_or_expected_error_4d6kh3 :
  match parse (new_DiceParser "4d6kh3+2") with
  | Ok (tree, _) => well_formed (In "/"%char (chars "4d6kh3+2")) tree
  | Raise e => expected_error e
  end.
Proof.
  apply (parse_gives_well_formed_tree_or_expected_error "4d6kh3+2").
  unfold modest, MODEST. cbn. lia.
Defined.

(** ** Rolls without division *)

Lemma dice_failure_handled count modifiers expression e :
  dice_failure count modifiers e ->
  exists type message,
    handle expression e = Failure type message None expression
    /\ (type = "SemanticError" \/ type = "LimitError").
Proof.
  intros [[-> _]|[[-> _]|(spec & _ & _ & ->)]]; cbn; eauto.
Qed.

(** X10: on a modest input without the character [/] a roll gives an
    integer, or fails with a [ParseError], a [SemanticError] or a
    [LimitError]: neither a [DiceError] nor the [RuntimeError] of an
    unexpected exception is possible. *)
Theorem roll_without_division_is_integer_or_expected_failure :
  forall E r expression,
    randbelow_in_range E -> modest expression ->
    ~ In "/"%char (chars expression) ->
    (exists n type trace,
        roll_dice E r expression = Success (PyInt n) type trace)
    \/ (exists type message position input,
           roll_dice E r expression = Failure type message position input
           /\ (type = "ParseError" \/ type = "SemanticError"
               \/ type = "LimitError")).
Proof.
  intros E r expression HE Hm Hno. unfold roll_dice.
  pose proof (parse_sound expression Hm) as Hp.
  pose proof (parse_is_located_and_terminates expression) as Hg.
  destruct (parse (new_DiceParser expression)) as [[tree p]|e].
  - destruct Hp as [_ Hp].
    assert (Hf : well_formed False tree).
    { eapply well_formed_weaken; [|exact Hp].
      intros Hd. apply Hno. apply divides_slash. exact Hd. }
    pose proof (_eval_node_integer E tree HE Hf (mkEvaluator r [])) as He.
    unfold evaluate.
    destruct (_eval_node E tree (mkEvaluator r [])) as [[result s]|e].
    + destruct He as [n ->]. left. cbn. eauto.
    + destruct He as (count & mods & Hd).
      destruct (dice_failure_handled count mods expression e Hd)
        as (type & message & Hh & Hty).
      right. rewrite Hh. exists type, message, None, expression.
      split; [reflexivity|]. tauto.
  - right. destruct Hg as [_ Hne]. destruct Hp as [Hp|Hp]; [|contradiction].
    destruct e as [msg n i|msg|msg|msg|cls msg]; cbn in Hp;
      try contradiction; cbn; eexists _, _, _, _; split; try reflexivity; auto.
Qed.

Lemma roll_without_division_is_integer_or_expected_failure_2d6kh3 :
  (exists n type trace,
      roll_dice (tape []) fresh "2d6kh3" = Success (PyInt n) type trace)
  \/ (exists type message position input,
         roll_dice (tape []) fresh "2d6kh3"
         = Failure type message position input
         /\ (type = "ParseError" \/ type = "SemanticError"
             \/ type = "LimitError")).
Proof.
  apply (roll_without_division_is_integer_or_expected_failure
           (tape []) fresh "2d6kh3").
  - intros i n Hn. cbn. lia.
  - unfold modest, MODEST. cbn. lia.
  - cbn. intros H. repeat (destruct H as [H|H]; [discriminate|]). exact H.
Defined.

(** ** The trace explains the result *)

Lemma _eval_dice_one_trace E count sides kind modifiers s n s' :
  _eval_dice E count sides kind modifiers s = Ok (n, s') ->
  exists t, traces s' = traces s ++ [t] /\ recorded t = n.
Proof.
  intros H. unfold _eval_dice in H.
  apply bind_ok in H as (pool & s1 & Hpool & H).
  assert (Htr : traces s1 = traces s).
  { unfold dice_pool in Hpool.
    apply bind_ok in Hpool as (r0 & t0 & H0 & Hpool).
    apply bind_ok in Hpool as (r1 & t1 & H1 & Hpool).
    apply keeps_traces_roll_all in H0.
    assert (traces t1 = traces t0).
    { destruct (reroll modifiers).
      - eapply keeps_traces_for_each; [|eassumption].
        intros d. apply keeps_traces_reroll_one.
      - injection H1 as _ <-. reflexivity. }
    assert (traces s1 = traces t1).
    { destruct (explode modifiers).
      - eapply keeps_traces_for_each; [|eassumption].
        intros d. apply keeps_traces_explode_one.
      - injection Hpool as _ <-. reflexivity. }
    congruence. }
  apply score_pool_cases in H as (t & -> & _ & Hshape).
  exists t. cbn [traces]. split; [congruence|].
  unfold recorded.
  destruct (comparator modifiers).
  - destruct Hshape as (-> & _). reflexivity.
  - destruct Hshape as (-> & -> & _). reflexivity.
Qed.

Lemma arith_keeps_state {S} zop fop a b (s : S) r s' :
  arith zop fop a b s = Ok (r, s') -> s' = s.
Proof.
  unfold arith, to_float, float_of_int, bind, ret, raise.
  destruct a as [x|x], b as [y|y];
    repeat match goal with
      | |- context [match binary_normalize ?p ?e ?z ?k ?b with _ => _ end] =>
          destruct (binary_normalize p e z k b)
      end;
    intros H; try discriminate; injection H as _ <-; reflexivity.
Qed.

Lemma true_divide_keeps_state {S} a b (s : S) r s' :
  true_divide a b s = Ok (r, s') -> s' = s.
Proof.
  unfold true_divide, to_float, float_of_int, bind, ret, raise.
  destruct a as [x|x], b as [y|y];
    repeat match goal with
      | |- context [match binary_normalize ?p ?e ?z ?k ?b with _ => _ end] =>
          destruct (binary_normalize p e z k b)
      | |- context [match SFdiv ?p ?e ?x ?y with _ => _ end] =>
          destruct (SFdiv p e x y)
      end;
    intros H; try discriminate; injection H as _ <-; reflexivity.
Qed.

Lemma _eval_node_traces E tree :
  forall s result s',
    _eval_node E tree s = Ok (result, s') ->
    exists new,
      traces s' = traces s ++ new
      /\ List.length new = dice_terms tree
      /\ (division_free tree = true ->
          forall more,
            replay tree (map recorded new ++ more)
            = (match result with PyInt z => z | PyFloat _ => 0 end, more)
            /\ exists z, result = PyInt z).
Proof.
  induction tree as [n|op lhs IHl rhs IHr|op operand IH|count sides kind mods];
    intros s result s' H; cbn [_eval_node] in H.
  - injection H as <- <-. exists []. rewrite app_nil_r.
    repeat split; eauto.
  - apply bind_ok in H as (lv & s1 & Hl & H).
    apply bind_ok in H as (rv & s2 & Hr & H).
    apply IHl in Hl as (newl & Htl & Hll & Hrl).
    apply IHr in Hr as (newr & Htr & Hlr & Hrr).
    assert (Hs : s' = s2).
    { destruct op; try (eapply arith_keeps_state; eassumption).
      destruct (is_zero rv); [discriminate|].
      eapply true_divide_keeps_state; eassumption. }
    subst s'. exists (newl ++ newr).
    split; [rewrite Htr, Htl, app_assoc; reflexivity|].
    split; [rewrite length_app; cbn [dice_terms]; lia|].
    cbn [division_free]. intros Hdf more.
    apply andb_true_iff in Hdf as [Hdf Hfr].
    apply andb_true_iff in Hdf as [Hop Hfl].
    cbn [replay]. rewrite map_app, <- app_assoc.
    destruct (Hrl Hfl (map recorded newr ++ more)) as [-> [x ->]].
    destruct (Hrr Hfr more) as [-> [y ->]].
    destruct op; try discriminate; cbn in H; injection H as <-; eauto.
  - destruct op. apply bind_ok in H as (v & s1 & Hv & H).
    injection H as <- <-.
    apply IH in Hv as (new & Ht & Hlen & Hre).
    exists new. repeat split; try assumption.
    + cbn [replay]. destruct (Hre H more) as [-> [x ->]]. reflexivity.
    + destruct (Hre H []) as [_ [x ->]]. cbn. eauto.
  - apply bind_ok in H as (n & s1 & Hd & H). injection H as <- <-.
    apply _eval_dice_one_trace in Hd as (t & Ht & Hrec).
    exists [t]. repeat split; try assumption.
    + cbn. rewrite Hrec. reflexivity.
    + eauto.
Qed.

(** X11: the trace explains the result: an evaluation that succeeds
    leaves one trace for every dice term of the tree, in the order of the
    terms from left to right, and when the tree has no division the result
    is the integer arithmetic of the tree on the numbers that the traces
    record, the success count of a term with a comparator and the sum of
    any other. *)
Theorem trace_explains_result :
  forall E r tree result trace,
    evaluate E r tree = Ok (result, trace) ->
    List.length trace = dice_terms tree
    /\ (division_free tree = true ->
        result = PyInt (fst (replay tree (map recorded trace)))).
Proof.
  intros E r tree result trace H. unfold evaluate in H.
  destruct (_eval_node E tree (mkEvaluator r [])) as [[v s]|e] eqn:Hn;
    [|discriminate].
  injection H as <- <-.
  apply _eval_node_traces in Hn as (new & Ht & Hlen & Hre).
  cbn [traces app] in Ht. rewrite Ht. split; [exact Hlen|].
  intros Hdf. destruct (Hre Hdf []) as [Hrep [z ->]].
  rewrite app_nil_r in Hrep. rewrite Hrep. reflexivity.
Qed.

Lemma trace_explains_result_1d6_plus_2 :
  List.length [mkDiceTrace "1d6" [new_DieRoll 3] None (Some 3) None None]
  = dice_terms (BinaryOp Add (Dice 1 6 Standard no_modifiers) (Number 2))
  /\ (division_free (BinaryOp Add (Dice 1 6 Standard no_modifiers) (Number 2))
      = true ->
      PyInt 5
      = PyInt (fst (replay
                      (BinaryOp Add (Dice 1 6 Standard no_modifiers) (Number 2))
                      (map recorded
                         [mkDiceTrace "1d6" [new_DieRoll 3] None (Some 3)
                                      None None])))).
Proof.
  apply (trace_explains_result (tape [x02]) fresh
           (BinaryOp Add (Dice 1 6 Standard no_modifiers) (Number 2))
           (PyInt 5)
           [mkDiceTrace "1d6" [new_DieRoll 3] None (Some 3) None None]).
  vm_compute. reflexivity.
Defined.

(** ** Tokens are slices of the text *)

Lemma slices_in_order_earlier text toks : forall from from',
  (from' <= from)%nat -> slices_in_order text from toks ->
  slices_in_order text from' toks.
Proof.
  destruct toks as [|t rest]; cbn [slices_in_order]; [auto|].
  intros from from' Hle (H1 & H2). split; [lia | exact H2].
Qed.

Lemma slen_of_chars l : slen (of_chars l) = List.length l.
Proof. rewrite slen_chars, chars_of_chars. reflexivity. Qed.

Lemma finditer_slices : forall s pre inside,
  (inside <= List.length s)%nat ->
  slices_in_order (pre ++ s) (List.length pre + inside)
                  (finditer s (List.length pre) inside).
Proof.
  induction s as [|c s IH]; intros pre inside Hin; cbn [finditer].
  - exact I.
  - assert (Hnext : forall k, (k <= List.length s)%nat ->
               slices_in_order (pre ++ c :: s) (S (List.length pre) + k)
                               (finditer s (S (List.length pre)) k)).
    { intros k Hk. specialize (IH (pre ++ [c]) k Hk).
      rewrite <- app_assoc, length_app in IH. cbn [app List.length] in IH.
      rewrite Nat.add_1_r in IH. exact IH. }
    cbn [List.length] in Hin.
    destruct inside as [|inside].
    + destruct (TOKEN_PATTERN (c :: s)) as [[g n]|] eqn:Hm.
      * pose proof (TOKEN_PATTERN_le _ _ _ Hm) as Hle.
        pose proof (TOKEN_PATTERN_pos _ _ _ Hm) as Hpos.
        cbn [List.length] in Hle.
        assert (Hrest : slices_in_order (pre ++ c :: s) (List.length pre + n)
                          (finditer s (S (List.length pre)) (Nat.pred n))).
        { replace (List.length pre + n)%nat
            with (S (List.length pre) + Nat.pred n)%nat by lia.
          apply Hnext. lia. }
        destruct ((g =? 9)%nat || (g =? 8)%nat).
        -- eapply slices_in_order_earlier; [|exact Hrest]. lia.
        -- cbn [slices_in_order tok_text pos].
           rewrite slen_of_chars, chars_of_chars.
           rewrite length_firstn, Nat.min_l by (cbn [List.length]; lia).
           repeat split; try lia.
           ++ rewrite skipn_app, Nat.sub_diag, skipn_all. reflexivity.
           ++ rewrite length_app. cbn [List.length]. lia.
           ++ exact Hrest.
      * eapply slices_in_order_earlier; [|apply (Hnext O); lia]. lia.
    + replace (List.length pre + S inside)%nat
        with (S (List.length pre) + inside)%nat by lia.
      apply Hnext. lia.
Qed.

(** X12: the tokens are slices of the text in the order of the text: each
    token is not empty, its text is the text's characters from its
    position on, it ends inside the text, and the next token starts at or
    behind its end, so that no two tokens overlap. *)
Theorem tokens_are_slices_in_order :
  forall text, slices_in_order (chars text) 0 (_tokenize text).
Proof.
  intros text. unfold _tokenize.
  apply (finditer_slices (chars text) [] O). lia.
Qed.

(** ** White space around the expression *)

Lemma lstrip_clean l : clean_head (lstrip l).
Proof.
  induction l as [|c l IH]; cbn [lstrip]; [exact I|].
  destruct (is_space c) eqn:Hc; [exact IH | exact Hc].
Qed.

Lemma lstrip_fixed l : clean_head l -> lstrip l = l.
Proof.
  destruct l as [|c l]; cbn [clean_head lstrip]; [reflexivity|].
  intros ->. reflexivity.
Qed.

Lemma lstrip_suffix l : exists pre, l = pre ++ lstrip l.
Proof.
  induction l as [|c l [pre IH]]; cbn [lstrip]; [exists []; reflexivity|].
  destruct (is_space c); [|exists []; reflexivity].
  exists (c :: pre). cbn. congruence.
Qed.

Lemma clean_head_prefix l l' : clean_head (l ++ l') -> clean_head l.
Proof. destruct l; cbn; auto. Qed.

Lemma strip_idempotent s : strip (strip s) = strip s.
Proof.
  unfold strip. rewrite chars_of_chars. f_equal.
  set (l1 := lstrip (chars s)).
  set (l2 := rev (lstrip (rev l1))).
  assert (H2 : clean_head l2).
  { destruct (lstrip_suffix (rev l1)) as [pre Hpre].
    apply (clean_head_prefix l2 (rev pre)).
    unfold l2. rewrite <- rev_app_distr, <- Hpre, rev_involutive.
    apply lstrip_clean. }
  rewrite (lstrip_fixed l2 H2).
  unfold l2 at 1. rewrite rev_involutive.
  rewrite (lstrip_fixed _ (lstrip_clean (rev l1))). reflexivity.
Qed.

Lemma parse_of_stripped s :
  parse (new_DiceParser (strip s)) = parse (new_DiceParser s).
Proof.
  unfold new_DiceParser, new_Tokenizer. rewrite strip_idempotent. reflexivity.
Qed.

(** X13: white space around the expression is ignored: stripping the
    input beforehand, which [Tokenizer.__init__] does again, gives the same
    success, and the same failure up to the input text that a failure
    other than a [ParseError] echoes. *)
Theorem surrounding_white_space_is_ignored :
  forall E r expression,
    strip (strip expression) = strip expression
    /\ match roll_dice E r expression with
       | Success final type trace =>
           roll_dice E r (strip expression) = Success final type trace
       | Failure type message position input =>
           roll_dice E r (strip expression)
           = Failure type message position
               (match position with
                | Some _ => input
                | None => strip expression
                end)
       end.
Proof.
  intros E r expression. split; [apply strip_idempotent|].
  unfold roll_dice. rewrite parse_of_stripped.
  assert (Hh : forall e,
             match handle expression e with
             | Success final type trace =>
                 handle (strip expression) e = Success final type trace
             | Failure type message position input =>
                 handle (strip expression) e
                 = Failure type message position
                     (match position with
                      | Some _ => input
                      | None => strip expression
                      end)
             end).
  { intros e. destruct e; reflexivity. }
  destruct (parse (new_DiceParser expression)) as [[tree p]|e]; [|apply Hh].
  destruct (evaluate E r tree) as [[result trs]|e]; [|apply Hh].
  destruct (coerce_final result tt) as [[final u]|e]; [reflexivity | apply Hh].
Qed.

(** ** What keep and drop keep *)

Lemma insert_by_ordered {A} (before : A -> A -> bool) (le : A -> A -> Prop) :
  (forall x y, before x y = true -> le x y) ->
  (forall x y, before x y = false -> le y x) ->
  (forall x y z, le x y -> le y z -> le x z) ->
  forall x l, ordered le l -> ordered le (insert_by before x l).
Proof.
  intros Hyes Hno Htrans x.
  induction l as [|y l IH]; cbn [insert_by ordered]; [auto|].
  intros [Hy Hl]. destruct (before x y) eqn:Hb; cbn [ordered].
  - split; [|auto]. constructor; [auto|].
    eapply Forall_impl; [|exact Hy]. intros z Hz.
    eapply Htrans; [apply Hyes; exact Hb | exact Hz].
  - split; [|auto].
    eapply Permutation_Forall; [symmetry; apply insert_by_perm|].
    constructor; [apply Hno; exact Hb | exact Hy].
Qed.

Lemma sort_by_ordered {A} (before : A -> A -> bool) (le : A -> A -> Prop) :
  (forall x y, before x y = true -> le x y) ->
  (forall x y, before x y = false -> le y x) ->
  (forall x y z, le x y -> le y z -> le x z) ->
  forall l, ordered le (sort_by before l).
Proof.
  intros Hyes Hno Htrans. induction l as [|x l IH]; cbn; [exact I|].
  apply insert_by_ordered; assumption.
Qed.

Lemma sorted_desc_ordered l : ordered Z.ge (sorted_desc l).
Proof.
  unfold sorted_desc. apply sort_by_ordered.
  - intros x y H. apply Z.geb_le in H. lia.
  - intros x y H. rewrite Z.geb_leb in H. apply Z.leb_gt in H. lia.
  - intros x y z. lia.
Qed.

Lemma ordered_split {A} (le : A -> A -> Prop) l i :
  ordered le l ->
  ordered le (firstn i l) /\ ordered le (skipn i l)
  /\ forall a b, In a (firstn i l) -> In b (skipn i l) -> le a b.
Proof.
  revert i. induction l as [|x l IH]; intros i Ho.
  - rewrite firstn_nil, skipn_nil.
    split; [exact I|]. split; [exact I|]. intros a b [].
  - destruct i as [|i]; cbn [firstn skipn].
    + split; [exact I|]. split; [exact Ho|]. intros a b [].
    + cbn [ordered] in Ho. destruct Ho as [Hx Hl].
      destruct (IH i Hl) as (Hf & Hs & Hfs).
      split; [|split; [exact Hs|]].
      * cbn [ordered]. split; [|exact Hf].
        rewrite Forall_forall in *. intros y Hy. apply Hx.
        rewrite <- (firstn_skipn i l). apply in_or_app. left. exact Hy.
      * intros a b [<-|Ha] Hb; [|auto].
        rewrite Forall_forall in Hx. apply Hx.
        rewrite <- (firstn_skipn i l). apply in_or_app. right. exact Hb.
Qed.

(** X14: what keep/drop keeps.  The kept values come in descending order
    and, with the values dropped, make up the totals of the dice.  Keep
    highest and drop lowest keep values at least as large as every value
    they drop, keep lowest and drop highest values at most as large.  Keep
    highest [K] keeps [K] values and drop highest [K] keeps [N - K]; so do
    keep lowest and drop lowest when [K] is not zero. *)
Theorem kept_values_are_the_extreme_totals :
  forall pool spec s kept s',
    0 <= keep_count spec ->
    _apply_keep_drop pool spec s = Ok (kept, s') ->
    keep_count spec <= Z.of_nat (List.length pool)
    /\ ordered Z.ge kept
    /\ exists dropped,
         Permutation (kept ++ dropped) (map die_total pool)
         /\ match keep_mode spec with
            | kh => Z.of_nat (List.length kept) = keep_count spec
                    /\ forall k d, In k kept -> In d dropped -> d <= k
            | dl => (1 <= keep_count spec ->
                     Z.of_nat (List.length kept)
                     = Z.of_nat (List.length pool) - keep_count spec)
                    /\ forall k d, In k kept -> In d dropped -> d <= k
            | kl => (1 <= keep_count spec ->
                     Z.of_nat (List.length kept) = keep_count spec)
                    /\ forall k d, In k kept -> In d dropped -> k <= d
            | dh => Z.of_nat (List.length kept)
                    = Z.of_nat (List.length pool) - keep_count spec
                    /\ forall k d, In k kept -> In d dropped -> k <= d
            end.
Proof.
  intros pool spec s kept s' HK H.
  unfold _apply_keep_drop in H. rewrite length_map in H.
  destruct (Z.gtb_spec (keep_count spec) (Z.of_nat (List.length pool)))
    as [|Hle]; [discriminate|].
  split; [exact Hle|].
  set (sorted := sorted_desc (map die_total pool)) in *.
  assert (Hlen : List.length sorted = List.length pool).
  { unfold sorted, sorted_desc. rewrite sort_by_length, length_map.
    reflexivity. }
  assert (Hperm : Permutation sorted (map die_total pool))
    by apply sort_by_perm.
  pose proof (sorted_desc_ordered (map die_total pool)) as Hord.
  fold sorted in Hord.
  assert (Hcut : forall i,
             ordered Z.ge (firstn i sorted) /\ ordered Z.ge (skipn i sorted)
             /\ Permutation (firstn i sorted ++ skipn i sorted)
                            (map die_total pool)
             /\ Permutation (skipn i sorted ++ firstn i sorted)
                            (map die_total pool)
             /\ (forall a b, In a (firstn i sorted) -> In b (skipn i sorted) ->
                             b <= a)
             /\ List.length (firstn i sorted) = Nat.min i (List.length pool)
             /\ List.length (skipn i sorted) = (List.length pool - i)%nat).
  { intros i. destruct (ordered_split Z.ge sorted i Hord) as (Hf & Hs & Hfs).
    repeat split; try assumption.
    - rewrite firstn_skipn. exact Hperm.
    - rewrite Permutation_app_comm, firstn_skipn. exact Hperm.
    - intros a b Ha Hb. specialize (Hfs a b Ha Hb). lia.
    - rewrite length_firstn, Hlen. reflexivity.
    - rewrite length_skipn, Hlen. reflexivity. }
  injection H as <- _.
  destruct (keep_mode spec); unfold slice_to, slice_from.
  - (* kh *)
    destruct (Hcut (slice_index sorted (keep_count spec)))
      as (Hf & Hs & Hp & Hp' & Hfs & Hlf & Hls).
    split; [exact Hf|]. eexists. split; [exact Hp|].
    split; [|intros k d Hk Hd; apply (Hfs k d Hk Hd)].
    rewrite Hlf, slice_index_nonneg by lia. lia.
  - (* kl *)
    destruct (Hcut (slice_index sorted (- keep_count spec)))
      as (Hf & Hs & Hp & Hp' & Hfs & Hlf & Hls).
    split; [exact Hs|]. eexists. split; [exact Hp'|].
    split; [|intros k d Hk Hd; apply (Hfs d k Hd Hk)].
    intros H1. rewrite Hls, slice_index_neg by lia. lia.
  - (* dh *)
    destruct (Hcut (slice_index sorted (keep_count spec)))
      as (Hf & Hs & Hp & Hp' & Hfs & Hlf & Hls).
    split; [exact Hs|]. eexists. split; [exact Hp'|].
    split; [|intros k d Hk Hd; apply (Hfs d k Hd Hk)].
    rewrite Hls, slice_index_nonneg by lia. lia.
  - (* dl *)
    destruct (Hcut (slice_index sorted (- keep_count spec)))
      as (Hf & Hs & Hp & Hp' & Hfs & Hlf & Hls).
    split; [exact Hf|]. eexists. split; [exact Hp|].
    split; [|intros k d Hk Hd; apply (Hfs k d Hk Hd)].
    intros H1. rewrite Hlf, slice_index_neg by lia. lia.
Qed.

Lemma kept_values_are_the_extreme_totals_kh2 :
  keep_count (mkKeep kh 2)
  <= Z.of_nat (List.length [new_DieRoll 3; new_DieRoll 5; new_DieRoll 1])
  /\ ordered Z.ge [5; 3]
  /\ exists dropped,
       Permutation ([5; 3] ++ dropped)
                   (map die_total [new_DieRoll 3; new_DieRoll 5; new_DieRoll 1])
       /\ (Z.of_nat (List.length [5; 3]) = keep_count (mkKeep kh 2)
           /\ forall k d, In k [5; 3] -> In d dropped -> d <= k).
Proof.
  apply (kept_values_are_the_extreme_totals
           [new_DieRoll 3; new_DieRoll 5; new_DieRoll 1] (mkKeep kh 2)
           (mkEvaluator fresh []) [5; 3] (mkEvaluator fresh [])).
  - cbn. lia.
  - vm_compute. reflexivity.
Defined.

(** ** The sort modifier *)

Lemma keeps_traces_dice_pool E count sides kind modifiers :
  keeps_traces (dice_pool E count sides kind modifiers).
Proof.
  unfold dice_pool.
  apply keeps_traces_bind; [apply keeps_traces_roll_all|]. intros rolls0.
  apply keeps_traces_bind.
  { destruct (reroll modifiers); [|apply keeps_traces_ret].
    apply keeps_traces_for_each. intros d. apply keeps_traces_reroll_one. }
  intros rolls1.
  destruct (explode modifiers); [|apply keeps_traces_ret].
  apply keeps_traces_for_each. intros d. apply keeps_traces_explode_one.
Qed.

Lemma display_sort_ordered order pool :
  in_display_order order (display_sort order pool).
Proof.
  destruct order as [[|]|]; cbn [in_display_order display_sort]; [| |exact I];
    apply sort_by_ordered.
  - intros x y H. apply Z.leb_le in H. exact H.
  - intros x y H. apply Z.leb_gt in H. lia.
  - intros x y z. lia.
  - intros x y H. rewrite Z.geb_leb in H. apply Z.leb_le in H. lia.
  - intros x y H. rewrite Z.geb_leb in H. apply Z.leb_gt in H. lia.
  - intros x y z. lia.
Qed.

Lemma ordered_by_value (le : Z -> Z -> Prop) l l' :
  Forall2 (fun d d' : DieRoll => value d' = value d) l l' ->
  ordered (fun a b => le (value a) (value b)) l ->
  ordered (fun a b => le (value a) (value b)) l'.
Proof.
  induction 1 as [|d d' l l' Hd Hl IH]; cbn [ordered]; [auto|].
  intros [Hx Ho]. split; [|auto].
  rewrite Hd. clear IH Ho. induction Hl as [|e e' l l' He Hl IH];
    [constructor|].
  inversion Hx; subst. constructor; [rewrite He; assumption | auto].
Qed.

Lemma mark_successes_values comparator limit ds i :
  Forall2 (fun d d' : DieRoll => value d' = value d)
          ds (mark_successes comparator limit i ds).
Proof.
  eapply Forall2_impl; [|apply mark_successes_fields].
  cbn. intros a b (H & _). exact H.
Qed.

Lemma mark_successes_map_value comparator limit ds i :
  map value (mark_successes comparator limit i ds) = map value ds.
Proof.
  revert i. induction ds as [|d ds IH]; intros i; cbn [mark_successes map];
    [reflexivity|].
  rewrite IH. f_equal.
  destruct (match limit with None => true | Some n => (i <? n)%nat end);
    reflexivity.
Qed.

Lemma in_display_order_marked order comparator limit ds :
  in_display_order order ds ->
  in_display_order order (mark_successes comparator limit O ds).
Proof.
  destruct order as [[|]|]; cbn [in_display_order]; [| |auto].
  - apply (ordered_by_value Z.le). apply mark_successes_values.
  - apply (ordered_by_value Z.ge). apply mark_successes_values.
Qed.

Lemma term_prefix_sort count sides kind re ex ke so co resolved :
  term_prefix count sides kind (mkModifiers re ex ke so co) resolved
  = term_prefix count sides kind (mkModifiers re ex ke None co) resolved.
Proof. reflexivity. Qed.

Lemma score_pool_sort count sides kind re ex ke so co pool s :
  match score_pool count sides kind (mkModifiers re ex ke so co) pool s,
        score_pool count sides kind (mkModifiers re ex ke None co) pool s with
  | Ok (n, s1), Ok (m, s2) =>
      n = m
      /\ exists t1 t2,
           s1 = mkEvaluator (rng s) (traces s ++ [t1])
           /\ s2 = mkEvaluator (rng s) (traces s ++ [t2])
           /\ term t1 = term t2 /\ keptValues t1 = keptValues t2
           /\ sum t1 = sum t2 /\ successes t1 = successes t2
           /\ threshold t1 = threshold t2
           /\ Permutation (map value (rolls t1)) (map value (rolls t2))
           /\ in_display_order so (rolls t1)
  | Raise e1, Raise e2 => e1 = e2
  | _, _ => False
  end.
Proof.
  unfold score_pool. cbn [keep sort comparator explode reroll].
  rewrite term_prefix_sort.
  set (name := term_prefix count sides kind (mkModifiers re ex ke None co) _).
  assert (Hperm : Permutation (map value (display_sort so pool))
                              (map value pool))
    by apply Permutation_map, display_sort_perm.
  assert (Hfinish : forall kv : option (list Z),
             (match ke with Some _ => kv <> None | None => kv = None end) ->
             match
               (match co with
                | Some comp =>
                    let shown := (string_of_cmp (cond_op comp)
                                  ++ string_of_threshold (cond_value comp))%string in
                    let '(rolls, n) :=
                      _count_successes (display_sort so pool) comp kv in
                    append_trace (mkDiceTrace (name ++ shown) rolls None None
                                              (Some shown) (Some n)) ;;;
                    ret n
                | None =>
                    match kv with
                    | Some kept =>
                        let result := zsum kept in
                        append_trace (mkDiceTrace name (display_sort so pool)
                                        (Some kept) (Some result) None None) ;;;
                        ret result
                    | None =>
                        let values :=
                          map value (display_sort so pool)
                          ++ match kind with
                             | Fate => flat_map explodes (display_sort so pool)
                             | _ => []
                             end in
                        let result := zsum values in
                        append_trace (mkDiceTrace name (display_sort so pool)
                                        None (Some result) None None) ;;;
                        ret result
                    end
                end)%monad s,
               (match co with
                | Some comp =>
                    let shown := (string_of_cmp (cond_op comp)
                                  ++ string_of_threshold (cond_value comp))%string in
                    let '(rolls, n) :=
                      _count_successes (display_sort None pool) comp kv in
                    append_trace (mkDiceTrace (name ++ shown) rolls None None
                                              (Some shown) (Some n)) ;;;
                    ret n
                | None =>
                    match kv with
                    | Some kept =>
                        let result := zsum kept in
                        append_trace (mkDiceTrace name (display_sort None pool)
                                        (Some kept) (Some result) None None) ;;;
                        ret result
                    | None =>
                        let values :=
                          map value (display_sort None pool)
                          ++ match kind with
                             | Fate => flat_map explodes (display_sort None pool)
                             | _ => []
                             end in
                        let result := zsum values in
                        append_trace (mkDiceTrace name (display_sort None pool)
                                        None (Some result) None None) ;;;
                        ret result
                    end
                end)%monad s with
             | Ok (n, s1), Ok (m, s2) =>
                 n = m
                 /\ exists t1 t2,
                      s1 = mkEvaluator (rng s) (traces s ++ [t1])
                      /\ s2 = mkEvaluator (rng s) (traces s ++ [t2])
                      /\ term t1 = term t2 /\ keptValues t1 = keptValues t2
                      /\ sum t1 = sum t2 /\ successes t1 = successes t2
                      /\ threshold t1 = threshold t2
                      /\ Permutation (map value (rolls t1)) (map value (rolls t2))
                      /\ in_display_order so (rolls t1)
             | Raise e1, Raise e2 => e1 = e2
             | _, _ => False
             end).
  { intros kv _. cbn [display_sort]. destruct co as [comp|].
    - unfold _count_successes. cbv zeta. unfold bind, append_trace, ret.
      assert (Hcount :
                Z.of_nat (List.length
                  (filter (fun v => _check_condition v comp)
                          match kv with
                          | Some kept => kept
                          | None => map value (display_sort so pool)
                          end))
                = Z.of_nat (List.length
                  (filter (fun v => _check_condition v comp)
                          match kv with
                          | Some kept => kept
                          | None => map value pool
                          end))).
      { destruct kv; [reflexivity|].
        f_equal. apply filter_length_perm. exact Hperm. }
      split; [exact Hcount|]. eexists _, _.
      split; [reflexivity|]. split; [reflexivity|].
      cbn [term keptValues sum successes threshold rolls].
      rewrite Hcount, !mark_successes_map_value.
      repeat split; try reflexivity; [exact Hperm|].
      apply in_display_order_marked, display_sort_ordered.
    - destruct kv as [kept|]; cbv zeta; unfold bind, append_trace, ret.
      + split; [reflexivity|]. eexists _, _.
        split; [reflexivity|]. split; [reflexivity|].
        cbn [term keptValues sum successes threshold rolls].
        repeat split; try reflexivity; [exact Hperm|].
        apply display_sort_ordered.
      + assert (Hsum :
                  zsum (map value (display_sort so pool)
                        ++ match kind with
                           | Fate => flat_map explodes (display_sort so pool)
                           | _ => []
                           end)
                  = zsum (map value pool
                          ++ match kind with
                             | Fate => flat_map explodes pool
                             | _ => []
                             end)).
        { apply zsum_perm. apply Permutation_app; [exact Hperm|].
          destruct kind; try reflexivity.
          apply Permutation_flat_map, display_sort_perm. }
        split; [exact Hsum|]. eexists _, _.
        split; [reflexivity|]. split; [reflexivity|].
        cbn [term keptValues sum successes threshold rolls].
        rewrite Hsum.
        repeat split; try reflexivity; [exact Hperm|].
        apply display_sort_ordered. }
  set (keeping := match ke with
                  | Some spec => kept <- _apply_keep_drop pool spec ;;
                                 ret (Some kept)
                  | None => ret None
                  end).
  destruct (keeping s) as [[kv s1]|e] eqn:Hk.
  - rewrite !(bind_step _ _ _ _ _ Hk).
    assert (s1 = s /\ match ke with Some _ => kv <> None | None => kv = None end)
      as [-> Hkv].
    { unfold keeping in Hk. destruct ke as [spec|].
      - apply bind_ok in Hk as (kept & s2 & Hk & Hr).
        apply _apply_keep_drop_state in Hk. injection Hr as <- <-.
        split; [assumption | discriminate].
      - injection Hk as <- <-. split; reflexivity. }
    apply (Hfinish kv Hkv).
  - rewrite !(bind_raise _ _ _ _ Hk). reflexivity.
Qed.

(** X15: a sort modifier changes the order of the dice in the trace and
    nothing else: with and without it a term gives the same number or the
    same error and uses the same entropy, and the two traces have the same
    term text, kept values, sum, success count and threshold, and the same
    dice values up to their order, which with the modifier is ascending
    for [sa] and descending for [sd]. *)
Theorem sort_changes_the_order_only :
  forall E count sides kind re ex ke so co s,
    match _eval_dice E count sides kind (mkModifiers re ex ke so co) s,
          _eval_dice E count sides kind (mkModifiers re ex ke None co) s with
    | Ok (n, s1), Ok (m, s2) =>
        n = m /\ rng s1 = rng s2
        /\ exists t1 t2,
             traces s1 = traces s ++ [t1] /\ traces s2 = traces s ++ [t2]
             /\ term t1 = term t2 /\ keptValues t1 = keptValues t2
             /\ sum t1 = sum t2 /\ successes t1 = successes t2
             /\ threshold t1 = threshold t2
             /\ Permutation (map value (rolls t1)) (map value (rolls t2))
             /\ in_display_order so (rolls t1)
    | Raise e1, Raise e2 => e1 = e2
    | _, _ => False
    end.
Proof.
  intros E count sides kind re ex ke so co s. unfold _eval_dice.
  change (dice_pool E count sides kind (mkModifiers re ex ke so co))
    with (dice_pool E count sides kind (mkModifiers re ex ke None co)).
  unfold bind.
  destruct (dice_pool E count sides kind (mkModifiers re ex ke None co) s)
    as [[pool s0]|e] eqn:Hpool; [|reflexivity].
  assert (Htr : traces s0 = traces s).
  { eapply keeps_traces_dice_pool. eassumption. }
  pose proof (score_pool_sort count sides kind re ex ke so co pool s0) as H.
  destruct (score_pool count sides kind (mkModifiers re ex ke so co) pool s0)
    as [[n s1]|e1];
    destruct (score_pool count sides kind (mkModifiers re ex ke None co) pool s0)
      as [[m s2]|e2]; try exact H.
  destruct H as (Hn & t1 & t2 & -> & -> & Hrest).
  split; [exact Hn|]. split; [reflexivity|].
  exists t1, t2. cbn [traces]. rewrite Htr. auto.
Qed.

(** ** Conditions that every face meets *)

Lemma reroll_loop_unavoidable E sides kind spec :
  randbelow_in_range E -> rollable sides kind ->
  once spec = false -> unavoidable sides kind (reroll_condition spec) ->
  forall remaining d s,
    in_domain sides kind (value d) ->
    exists d' s', reroll_loop E sides kind spec remaining d s = Ok ((d', O), s').
Proof.
  intros HE Hk Ho Hall.
  induction remaining as [|n IH]; intros d s Hd; cbn [reroll_loop];
    rewrite (Hall _ Hd).
  - eexists _, _. reflexivity.
  - destruct (fresh_value_total E sides kind s HE Hk) as (v & s1 & Hv).
    rewrite (bind_step _ _ _ _ _ Hv). rewrite Ho.
    apply IH. cbn [value]. eapply fresh_value_domain; eassumption.
Qed.

Lemma explode_loop_unavoidable E sides kind condition :
  randbelow_in_range E -> rollable sides kind ->
  unavoidable sides kind condition ->
  forall remaining d cur s,
    in_domain sides kind cur ->
    exists d' s',
      explode_loop E sides kind false condition remaining d cur s
      = Ok ((d', O), s').
Proof.
  intros HE Hk Hall.
  induction remaining as [|n IH]; intros d cur s Hd; cbn [explode_loop];
    rewrite (Hall _ Hd).
  - eexists _, _. reflexivity.
  - destruct (fresh_value_total E sides kind s HE Hk) as (v & s1 & Hv).
    rewrite (bind_step _ _ _ _ _ Hv). cbn [andb].
    apply IH. eapply fresh_value_domain; eassumption.
Qed.

Lemma roll_all_head E sides kind n s :
  randbelow_in_range E -> rollable sides kind -> (1 <= n)%nat ->
  exists d rest s', roll_all E sides kind n s = Ok (d :: rest, s')
                    /\ in_domain sides kind (value d) /\ rerolls d = [].
Proof.
  intros HE Hk Hn.
  destruct (roll_all_total E sides kind n s HE Hk) as (rolls & s' & Hr).
  pose proof (roll_all_fresh _ _ _ _ _ _ _ HE Hr) as [Hlen Hall].
  destruct rolls as [|d rest]; [cbn in Hlen; lia|].
  inversion Hall as [|? ? (Hd & Hh & _) _]; subst.
  exists d, rest, s'. auto.
Qed.

Lemma reroll_one_unavoidable E sides kind spec d s :
  randbelow_in_range E -> rollable sides kind ->
  once spec = false -> unavoidable sides kind (reroll_condition spec) ->
  in_domain sides kind (value d) ->
  reroll_one E sides kind spec d s = Raise reroll_ceiling.
Proof.
  intros HE Hk Ho Hall Hd.
  destruct (reroll_loop_unavoidable E sides kind spec HE Hk Ho Hall
              MAX_REROLLS d s Hd) as (d' & s' & Hloop).
  exact (reroll_one_ceiling E sides kind spec d s d' s' Hloop).
Qed.

Lemma explode_one_unavoidable E sides kind condition d s :
  randbelow_in_range E -> rollable sides kind ->
  unavoidable sides kind condition ->
  in_domain sides kind (value d) ->
  explode_one E sides kind false condition d s = Raise explosion_ceiling.
Proof.
  intros HE Hk Hall Hd.
  destruct (explode_loop_unavoidable E sides kind condition HE Hk Hall
              MAX_EXPLOSIONS d (value d) s Hd) as (d' & s' & Hloop).
  unfold explode_one. rewrite (bind_step _ _ _ _ _ Hloop). reflexivity.
Qed.

Lemma for_each_head_raises {A B} (body : A -> Ev B) a l s e :
  body a s = Raise e -> for_each body (a :: l) s = Raise e.
Proof. intros H. cbn [for_each]. apply bind_raise. exact H. Qed.

Lemma dice_pool_reroll_unavoidable E count sides kind modifiers s spec :
  randbelow_in_range E -> rollable sides kind -> 1 <= count ->
  reroll modifiers = Some spec -> once spec = false ->
  unavoidable sides kind (reroll_condition spec) ->
  dice_pool E count sides kind modifiers s = Raise reroll_ceiling.
Proof.
  intros HE Hk Hcount Hre Ho Hall.
  destruct (roll_all_head E sides kind (Z.to_nat count) s HE Hk ltac:(lia))
    as (d & rest & s0 & Hroll & Hd & Hh).
  unfold dice_pool. rewrite (bind_step _ _ _ _ _ Hroll), Hre.
  assert (Hraise : _apply_rerolls E (d :: rest) sides kind spec s0
                   = Raise reroll_ceiling).
  { apply for_each_head_raises.
    apply reroll_one_unavoidable; assumption. }
  rewrite (bind_raise _ _ _ _ Hraise). reflexivity.
Qed.

Lemma dice_pool_steps E count sides kind modifiers s rolls0 s0 rolls1 s1 :
  roll_all E sides kind (Z.to_nat count) s = Ok (rolls0, s0) ->
  match reroll modifiers with
  | Some spec => _apply_rerolls E rolls0 sides kind spec
  | None => ret rolls0
  end s0 = Ok (rolls1, s1) ->
  dice_pool E count sides kind modifiers s
  = match explode modifiers with
    | Some spec => _apply_explosions E rolls1 sides kind spec
    | None => ret rolls1
    end s1.
Proof.
  intros H0 H1. unfold dice_pool.
  rewrite (bind_step _ _ _ _ _ H0). rewrite (bind_step _ _ _ _ _ H1).
  reflexivity.
Qed.

Lemma dice_pool_reroll_raises E count sides kind modifiers s rolls0 s0 e :
  roll_all E sides kind (Z.to_nat count) s = Ok (rolls0, s0) ->
  match reroll modifiers with
  | Some spec => _apply_rerolls E rolls0 sides kind spec
  | None => ret rolls0
  end s0 = Raise e ->
  dice_pool E count sides kind modifiers s = Raise e.
Proof.
  intros H0 H1. unfold dice_pool.
  rewrite (bind_step _ _ _ _ _ H0). rewrite (bind_raise _ _ _ _ H1).
  reflexivity.
Qed.

Lemma roll_all_with_head E sides kind n s :
  randbelow_in_range E -> rollable sides kind -> (1 <= n)%nat ->
  exists rolls s',
    roll_all E sides kind n s = Ok (rolls, s')
    /\ exists d rest, rolls = d :: rest
                      /\ in_domain sides kind (value d) /\ rerolls d = [].
Proof.
  intros HE Hk Hn.
  destruct (roll_all_total E sides kind n s HE Hk) as (rolls & s' & Hr).
  pose proof (roll_all_fresh _ _ _ _ _ _ _ HE Hr) as [Hlen Hall].
  exists rolls, s'. split; [exact Hr|].
  destruct rolls as [|d rest]; [cbn in Hlen; lia|].
  inversion Hall as [|? ? (Hd & Hh & _) _]; subst.
  exists d, rest. auto.
Qed.

Lemma _apply_rerolls_head E sides kind rspec l s0 rolls1 s1 d rest :
  randbelow_in_range E -> l = d :: rest ->
  in_domain sides kind (value d) -> rerolls d = [] ->
  _apply_rerolls E l sides kind rspec s0 = Ok (rolls1, s1) ->
  exists d1 rest1, rolls1 = d1 :: rest1 /\ in_domain sides kind (value d1).
Proof.
  intros HE Hl Hd Hh Hre.
  pose proof (for_each_Forall2 (reroll_one E sides kind rspec)
                (fun a b => exists t t',
                     reroll_one E sides kind rspec a t = Ok (b, t'))
                (fun a t b t' H => ex_intro _ t (ex_intro _ t' H))
                l s0 rolls1 s1 Hre) as Hall.
  clear Hre. rewrite Hl in Hall.
  inversion Hall as [|a b l0 l' (t & t' & Hone) _]; subst.
  exists b, l'. split; [reflexivity|].
  exact (proj1 (reroll_one_settles E sides kind rspec d t b t'
                  HE Hd Hh Hone)).
Qed.

Lemma _apply_explosions_unavoidable E sides kind spec l d rest s :
  randbelow_in_range E -> rollable sides kind ->
  penetrating spec = false ->
  unavoidable sides kind (resolve_max sides kind (explode_condition spec)) ->
  l = d :: rest -> in_domain sides kind (value d) ->
  _apply_explosions E l sides kind spec s = Raise explosion_ceiling.
Proof.
  intros HE Hk Hpen Hall Hl Hd. subst l. unfold _apply_explosions.
  apply for_each_head_raises. rewrite Hpen.
  apply explode_one_unavoidable; assumption.
Qed.

Lemma _apply_rerolls_raises E sides kind rspec l s0 e :
  randbelow_in_range E -> rollable sides kind ->
  _apply_rerolls E l sides kind rspec s0 = Raise e ->
  e = reroll_ceiling.
Proof.
  intros HE Hk Hre.
  eapply (for_each_raises_only
            (fun e => e = reroll_ceiling /\ once rspec = false));
    [|exact Hre].
  intros d0 t e' Hd0.
  exact (reroll_one_raises E sides kind rspec d0 t e' HE Hk Hd0).
Qed.

Lemma dice_pool_explode_unavoidable E count sides kind modifiers s spec :
  randbelow_in_range E -> rollable sides kind -> 1 <= count ->
  explode modifiers = Some spec -> penetrating spec = false ->
  unavoidable sides kind (resolve_max sides kind (explode_condition spec)) ->
  dice_pool E count sides kind modifiers s = Raise explosion_ceiling
  \/ dice_pool E count sides kind modifiers s = Raise reroll_ceiling.
Proof.
  intros HE Hk Hcount Hex Hpen Hall.
  destruct (roll_all_with_head E sides kind (Z.to_nat count) s HE Hk
              ltac:(lia))
    as (rolls0 & s0 & Hroll & d & rest & Hl & Hd & Hh).
  destruct (match reroll modifiers with
            | Some rspec => _apply_rerolls E rolls0 sides kind rspec
            | None => ret rolls0
            end s0) as [[rolls1 s1]|e] eqn:Hre.
  - left. rewrite (dice_pool_steps _ _ _ _ _ _ _ _ _ _ Hroll Hre), Hex.
    assert (H1 : exists d1 rest1,
               rolls1 = d1 :: rest1 /\ in_domain sides kind (value d1)).
    { destruct (reroll modifiers) as [rspec|].
      - exact (_apply_rerolls_head E sides kind rspec rolls0 s0 rolls1 s1
                 d rest HE Hl Hd Hh Hre).
      - injection Hre as <- <-. exists d, rest. auto. }
    destruct H1 as (d1 & rest1 & Hl1 & Hd1).
    exact (_apply_explosions_unavoidable E sides kind spec rolls1 d1 rest1 s1
             HE Hk Hpen Hall Hl1 Hd1).
  - right. rewrite (dice_pool_reroll_raises _ _ _ _ _ _ _ _ _ Hroll Hre).
    f_equal. destruct (reroll modifiers) as [rspec|]; [|discriminate].
    exact (_apply_rerolls_raises E sides kind rspec rolls0 s0 e HE Hk Hre).
Qed.

(** X16: a condition that every face of the die meets cannot be
    escaped: a term of at least one die with a standard reroll on such a
    condition always ends in the [LimitError] of the reroll ceiling, and a
    term with an explosion that does not penetrate on such a condition
    always ends in the [LimitError] of the explosion ceiling, unless a
    reroll of the term has hit its own ceiling first. *)
Theorem unavoidable_condition_hits_the_ceiling :
  forall E count sides kind modifiers s,
    randbelow_in_range E -> rollable sides kind -> 1 <= count ->
    (forall spec,
        reroll modifiers = Some spec -> once spec = false ->
        unavoidable sides kind (reroll_condition spec) ->
        _eval_dice E count sides kind modifiers s = Raise reroll_ceiling)
    /\ (forall spec,
           explode modifiers = Some spec -> penetrating spec = false ->
           unavoidable sides kind
             (resolve_max sides kind (explode_condition spec)) ->
           _eval_dice E count sides kind modifiers s = Raise explosion_ceiling
           \/ _eval_dice E count sides kind modifiers s = Raise reroll_ceiling).
Proof.
  intros E count sides kind modifiers s HE Hk Hcount. split.
  - intros spec Hre Ho Hall. unfold _eval_dice.
    apply bind_raise.
    eapply dice_pool_reroll_unavoidable; eassumption.
  - intros spec Hex Hpen Hall. unfold _eval_dice.
    destruct (dice_pool_explode_unavoidable E count sides kind modifiers s spec
                HE Hk Hcount Hex Hpen Hall) as [H|H];
      [left | right]; apply bind_raise; exact H.
Qed.

Lemma unavoidable_condition_hits_the_ceiling_1d1r1 :
  (forall spec,
      reroll (mkModifiers (Some (mkReroll false (mkCondition OpEq (Num 1))))
                          None None None None) = Some spec ->
      once spec = false ->
      unavoidable 1 Standard (reroll_condition spec) ->
      _eval_dice (tape []) 1 1 Standard
        (mkModifiers (Some (mkReroll false (mkCondition OpEq (Num 1))))
                     None None None None) (mkEvaluator fresh [])
      = Raise reroll_ceiling)
  /\ (forall spec,
         explode (mkModifiers (Some (mkReroll false (mkCondition OpEq (Num 1))))
                              None None None None) = Some spec ->
         penetrating spec = false ->
         unavoidable 1 Standard
           (resolve_max 1 Standard (explode_condition spec)) ->
         _eval_dice (tape []) 1 1 Standard
           (mkModifiers (Some (mkReroll false (mkCondition OpEq (Num 1))))
                        None None None None) (mkEvaluator fresh [])
         = Raise explosion_ceiling
         \/ _eval_dice (tape []) 1 1 Standard
              (mkModifiers (Some (mkReroll false (mkCondition OpEq (Num 1))))
                           None None None None) (mkEvaluator fresh [])
            = Raise reroll_ceiling).
Proof.
  apply (unavoidable_condition_hits_the_ceiling (tape []) 1 1 Standard
           (mkModifiers (Some (mkReroll false (mkCondition OpEq (Num 1))))
                        None None None None) (mkEvaluator fresh [])).
  - intros i n Hn. cbn. lia.
  - right. unfold MAX_SIDES. lia.
  - lia.
Defined.

(** ** The position of a parse error *)

(** The parser is run on two token lists at once, that of [T] and any
    other one, to see how far into the tokens an outcome reaches. *)

Section ParserEcho.

Variable T : Tokenizer.

Lemma agree_le k k' l1 l2 :
  (k' <= k)%nat -> agree k l1 l2 -> agree k' l1 l2.
Proof. intros Hk H j Hj. apply H. lia. Qed.

Lemma agree_nth b toks j :
  agree (S b) (tokens T) toks -> (j <= b)%nat ->
  nth_error toks j = nth_error (tokens T) j.
Proof. intros H Hj. symmetry. apply H. lia. Qed.

Lemma agree_at_end b toks j :
  agree (S b) (tokens T) toks -> (j <= b)%nat ->
  (List.length toks <=? j)%nat = (List.length (tokens T) <=? j)%nat.
Proof.
  intros H Hj. pose proof (agree_nth _ _ _ H Hj) as Hn.
  destruct (Nat.leb_spec (List.length toks) j) as [H1|H1],
           (Nat.leb_spec (List.length (tokens T)) j) as [H2|H2];
    try reflexivity; exfalso.
  - apply nth_error_None in H1. rewrite H1 in Hn. symmetry in Hn.
    apply nth_error_None in Hn. lia.
  - apply nth_error_None in H2. rewrite H2 in Hn.
    apply nth_error_None in Hn. lia.
Qed.

Lemma on_position toks p :
  position (tokenizer (on_tokens toks p)) = position (tokenizer p).
Proof. reflexivity. Qed.

Lemma on_depth toks p : recursion_depth (on_tokens toks p) = recursion_depth p.
Proof. reflexivity. Qed.

Lemma on_text toks p : text (tokenizer (on_tokens toks p)) = text (tokenizer p).
Proof. reflexivity. Qed.

Lemma on_left toks p :
  tokens_left (on_tokens toks p)
  = (List.length toks - position (tokenizer p))%nat.
Proof. reflexivity. Qed.

Lemma echoes_ext {A} b (r : outcome (A * DiceParser)) r2 r2' :
  (forall toks, agree (S b) (tokens T) toks -> r2 toks = r2' toks) ->
  echoes T b r r2' -> echoes T b r r2.
Proof.
  intros Heq. destruct r as [[a q]|e]; cbn.
  - intros (Hs & Hb & H). split; [exact Hs|]. split; [exact Hb|].
    intros toks Hag. rewrite Heq; [apply H; exact Hag|].
    eapply agree_le; [|exact Hag]. lia.
  - destruct e as [msg n txt| | | |]; auto.
    intros (i & Hi & Hn & H). exists i. split; [exact Hi|].
    split; [exact Hn|]. intros toks Hag. rewrite Heq; [apply H; exact Hag|].
    eapply agree_le; [|exact Hag]. lia.
Qed.

Lemma echoes_weaken {A} b b' (r : outcome (A * DiceParser)) r2 :
  (b' <= b)%nat -> echoes T b r r2 -> echoes T b' r r2.
Proof.
  intros Hb. destruct r as [[a q]|e]; cbn.
  - intros (Hs & Hq & H). split; [exact Hs|]. split; [lia | exact H].
  - destruct e as [msg n txt| | | |]; auto.
    intros (i & Hi & Hn & H). exists i. split; [lia|]. split; assumption.
Qed.

Lemma echoes_ret {A} b (a : A) p :
  same_input T p -> (b <= position (tokenizer p))%nat ->
  echoes T b (ret a p) (fun toks => ret a (on_tokens toks p)).
Proof. intros Hs Hb. cbn. split; [exact Hs|]. split; [exact Hb|]. reflexivity. Qed.

Lemma echoes_raise {A} b e p r2 :
  not_parse_error e -> echoes T b (@raise _ A e p) r2.
Proof. destruct e; cbn; intros H; [contradiction | exact I ..]. Qed.

Lemma echoes_parse_error {A} b msg w i p :
  same_input T p -> (b <= i)%nat -> w = offset_of T i ->
  echoes T b (@parse_error A msg w p)
             (fun toks => parse_error msg w (on_tokens toks p)).
Proof.
  intros Hs Hb Hw. cbn. exists i. split; [exact Hb|]. split; [exact Hw|].
  reflexivity.
Qed.

Lemma echoes_bind {A B} b (m : P A) (k : A -> P B)
  (m2 : list Token -> P A) (k2 : list Token -> A -> P B) p :
  echoes T b (m p) (fun toks => m2 toks (on_tokens toks p)) ->
  (forall a q, m p = Ok (a, q) -> same_input T q ->
               (b <= position (tokenizer q))%nat ->
               echoes T (position (tokenizer q)) (k a q)
                      (fun toks => k2 toks a (on_tokens toks q))) ->
  echoes T b (bind m k p)
         (fun toks => bind (m2 toks) (k2 toks) (on_tokens toks p)).
Proof.
  intros Hm Hk. unfold bind at 1.
  destruct (m p) as [[a q]|e] eqn:Hmp.
  - destruct Hm as (Hs & Hb & Hm).
    specialize (Hk a q eq_refl Hs Hb).
    eapply echoes_weaken; [exact Hb|].
    eapply echoes_ext; [|exact Hk].
    intros toks Hag. cbv beta. unfold bind. rewrite (Hm toks Hag). reflexivity.
  - destruct e as [msg n txt| | | |]; try exact I.
    destruct Hm as (i & Hi & Hn & Hm). exists i.
    split; [exact Hi|]. split; [exact Hn|].
    intros toks Hag. unfold bind. rewrite (Hm toks Hag). reflexivity.
Qed.

(** The steps that read the state. *)

Lemma echoes_get_then {A} b (k : DiceParser -> P A)
  (k2 : list Token -> DiceParser -> P A) p :
  echoes T b (k p p)
         (fun toks => k2 toks (on_tokens toks p) (on_tokens toks p)) ->
  echoes T b (bind get k p)
         (fun toks => bind get (k2 toks) (on_tokens toks p)).
Proof. intros H. exact H. Qed.

Lemma echoes_peek_then {A} b offset (k : option string -> P A)
  (k2 : list Token -> option string -> P A) p :
  same_input T p -> (position (tokenizer p) + offset <= b)%nat ->
  echoes T b
    (k (option_map tok_text
          (nth_error (tokens T) (position (tokenizer p) + offset))) p)
    (fun toks =>
       k2 toks (option_map tok_text
                  (nth_error (tokens T) (position (tokenizer p) + offset)))
          (on_tokens toks p)) ->
  echoes T b (bind (peek offset) k p)
         (fun toks => bind (peek offset) (k2 toks) (on_tokens toks p)).
Proof.
  intros [_ Hk] Hb H. rewrite bind_peek, Hk.
  eapply echoes_ext; [|exact H].
  intros toks Hag. cbv beta. rewrite bind_peek.
  cbn [on_tokens tokenizer tokens position].
  rewrite (agree_nth _ _ _ Hag Hb). reflexivity.
Qed.

Lemma echoes_at_end_then {A} b (k : bool -> P A)
  (k2 : list Token -> bool -> P A) p :
  same_input T p -> (position (tokenizer p) <= b)%nat ->
  echoes T b
    (k (List.length (tokens T) <=? position (tokenizer p))%nat p)
    (fun toks =>
       k2 toks (List.length (tokens T) <=? position (tokenizer p))%nat
          (on_tokens toks p)) ->
  echoes T b (bind at_end k p)
         (fun toks => bind at_end (k2 toks) (on_tokens toks p)).
Proof.
  intros [_ Hk] Hb H. rewrite bind_at_end, Hk.
  eapply echoes_ext; [|exact H].
  intros toks Hag. cbv beta. rewrite bind_at_end.
  cbn [on_tokens tokenizer tokens position].
  rewrite (agree_at_end _ _ _ Hag Hb). reflexivity.
Qed.

Lemma echoes_text_len_then {A} b (k : nat -> P A)
  (k2 : list Token -> nat -> P A) p :
  same_input T p ->
  echoes T b (k (slen (text T)) p)
         (fun toks => k2 toks (slen (text T)) (on_tokens toks p)) ->
  echoes T b (bind text_len k p)
         (fun toks => bind text_len (k2 toks) (on_tokens toks p)).
Proof.
  intros [Ht _] H. rewrite bind_text_len, Ht.
  eapply echoes_ext; [|exact H].
  intros toks Hag. cbv beta. rewrite bind_text_len.
  cbn [on_tokens tokenizer text]. rewrite Ht. reflexivity.
Qed.

Lemma echoes_token_pos_then {A} b i (i2 : list Token -> nat)
  (k : nat -> P A) (k2 : list Token -> nat -> P A) p :
  same_input T p -> (i <= b)%nat -> (forall toks, i2 toks = i) ->
  (forall t, nth_error (tokens T) i = Some t ->
     echoes T b (k (pos t) p)
            (fun toks => k2 toks (pos t) (on_tokens toks p))) ->
  echoes T b (bind (token_pos i) k p)
         (fun toks => bind (token_pos (i2 toks)) (k2 toks) (on_tokens toks p)).
Proof.
  intros [_ Hk] Hb Hi H. unfold token_pos at 1. unfold bind at 1 2.
  unfold get at 1. rewrite Hk.
  destruct (nth_error (tokens T) i) as [t|] eqn:Hn.
  - eapply echoes_ext; [|exact (H t eq_refl)].
    intros toks Hag. cbv beta. rewrite Hi.
    unfold token_pos, bind, get. cbn [on_tokens tokenizer tokens].
    rewrite (agree_nth _ _ _ Hag Hb), Hn. reflexivity.
  - exact I.
Qed.

Lemma echoes_here_or_end_then {A} b (k : nat -> P A)
  (k2 : list Token -> nat -> P A) p :
  same_input T p -> (position (tokenizer p) <= b)%nat ->
  echoes T b (k (offset_of T (position (tokenizer p))) p)
         (fun toks => k2 toks (offset_of T (position (tokenizer p)))
                         (on_tokens toks p)) ->
  echoes T b (bind here_or_end k p)
         (fun toks => bind here_or_end (k2 toks) (on_tokens toks p)).
Proof.
  intros [Ht Hk] Hb H.
  assert (Hhere : forall (kk : nat -> P A) toks (q : DiceParser),
             tokens (tokenizer q) = toks ->
             text (tokenizer q) = text T ->
             nth_error toks (position (tokenizer q))
             = nth_error (tokens T) (position (tokenizer q)) ->
             bind here_or_end kk q
             = kk (offset_of T (position (tokenizer q))) q).
  { intros kk toks q Hq Htq Hnth. subst toks.
    unfold here_or_end, at_end, text_len, token_pos, bind, get, ret.
    unfold offset_of. rewrite <- Hnth, <- Htq.
    destruct (Nat.leb_spec (List.length (tokens (tokenizer q)))
                           (position (tokenizer q))) as [Hle|Hlt].
    - apply nth_error_None in Hle. rewrite Hle. reflexivity.
    - destruct (nth_error (tokens (tokenizer q)) (position (tokenizer q)))
        as [t|] eqn:Hn; [reflexivity|].
      apply nth_error_None in Hn. lia. }
  rewrite (Hhere k (tokens T) p Hk Ht eq_refl).
  eapply echoes_ext; [|exact H].
  intros toks Hag. cbv beta.
  apply (Hhere (k2 toks) toks (on_tokens toks p) eq_refl Ht).
  apply (agree_nth _ _ _ Hag Hb).
Qed.

Lemma echoes_no_number_next_then {A} b (k : bool -> P A)
  (k2 : list Token -> bool -> P A) p :
  same_input T p -> (position (tokenizer p) <= b)%nat ->
  (forall bad,
     bad = match nth_error (tokens T) (position (tokenizer p)) with
           | Some t => negb (isdigit (tok_text t))
           | None => true
           end ->
     echoes T b (k bad p) (fun toks => k2 toks bad (on_tokens toks p))) ->
  echoes T b (bind no_number_next k p)
         (fun toks => bind no_number_next (k2 toks) (on_tokens toks p)).
Proof.
  intros [_ Hk] Hb H. rewrite bind_no_number_next_eq, Hk.
  eapply echoes_ext; [|exact (H _ eq_refl)].
  intros toks Hag. cbv beta. rewrite bind_no_number_next_eq.
  cbn [on_tokens tokenizer tokens position].
  rewrite (agree_nth _ _ _ Hag Hb). reflexivity.
Qed.

Lemma echoes_int_then {A} b s (k : Z -> P A) (k2 : list Token -> Z -> P A) p :
  (forall v, echoes T b (k v p) (fun toks => k2 toks v (on_tokens toks p))) ->
  echoes T b (bind (int_ s) k p)
         (fun toks => bind (int_ s) (k2 toks) (on_tokens toks p)).
Proof.
  intros H. unfold int_. destruct (py_int s) as [v|]; [apply H | exact I].
Qed.

Lemma echoes_set_depth_then {A} b d (d2 : list Token -> nat)
  (k : unit -> P A) (k2 : list Token -> unit -> P A) p :
  (forall toks, d2 toks = d) ->
  (forall p', same_input T p -> same_input T p' ->
              position (tokenizer p') = position (tokenizer p) ->
              recursion_depth p' = d ->
              echoes T b (k tt p') (fun toks => k2 toks tt (on_tokens toks p'))) ->
  same_input T p ->
  echoes T b (bind (set_depth d) k p)
         (fun toks => bind (set_depth (d2 toks)) (k2 toks) (on_tokens toks p)).
Proof.
  intros Hd H Hs.
  eapply echoes_ext;
    [|apply (H (mkParser (tokenizer p) d) Hs Hs eq_refl eq_refl)].
  intros toks Hag. cbv beta. rewrite Hd. reflexivity.
Qed.

(** [consume] reads the token under the cursor and no other. *)
Lemma echoes_consume_then {A} expected (k : string -> P A)
  (k2 : list Token -> string -> P A) p :
  same_input T p ->
  (forall token p',
      nth_error (tokens T) (position (tokenizer p)) = Some token ->
      same_input T p' ->
      position (tokenizer p') = S (position (tokenizer p)) ->
      recursion_depth p' = recursion_depth p ->
      echoes T (position (tokenizer p)) (k (tok_text token) p')
             (fun toks => k2 toks (tok_text token) (on_tokens toks p'))) ->
  echoes T (position (tokenizer p)) (bind (consume expected) k p)
         (fun toks => bind (consume expected) (k2 toks) (on_tokens toks p)).
Proof.
  intros Hs Hcont. pose proof Hs as [Ht Hk].
  assert (Hsame : forall toks,
             agree (S (position (tokenizer p))) (tokens T) toks ->
             consume expected (on_tokens toks p)
             = match consume expected p with
               | Ok (a, q) => Ok (a, on_tokens toks q)
               | Raise e => Raise e
               end).
  { intros toks Hag.
    pose proof (agree_nth _ _ _ Hag (Nat.le_refl _)) as Hn.
    unfold consume, bind, get, set_position, parse_error, the_text, text_len,
      ret, raise.
    cbn [on_tokens tokenizer tokens position text recursion_depth].
    rewrite Hn, Hk.
    destruct (nth_error (tokens T) (position (tokenizer p))) as [token|].
    - destruct expected as [e|]; [|reflexivity].
      destruct (negb (String.eqb e EmptyString)
                && negb (String.eqb (lower (tok_text token)) (lower e)));
        reflexivity.
    - destruct expected as [e|]; [destruct (String.eqb e EmptyString)|];
        reflexivity. }
  pose proof (consume_cases expected p) as Hc.
  destruct (nth_error (tokens (tokenizer p)) (position (tokenizer p)))
    as [token|] eqn:Hn; rewrite Hk in Hn.
  - destruct Hc as [Hc|(msg & Hc)].
    + unfold bind at 1. rewrite Hc.
      eapply echoes_ext; [|apply (Hcont token _ Hn)].
      * intros toks Hag. cbv beta. unfold bind.
        rewrite (Hsame toks Hag), Hc. reflexivity.
      * split; [exact Ht | exact Hk].
      * reflexivity.
      * reflexivity.
    + unfold bind at 1. rewrite Hc. cbn.
      exists (position (tokenizer p)). split; [lia|].
      split; [unfold offset_of; rewrite Hn; reflexivity|].
      intros toks Hag. unfold bind. rewrite (Hsame toks Hag), Hc. reflexivity.
  - destruct Hc as (msg & Hc). unfold bind at 1. rewrite Hc. cbn.
    exists (position (tokenizer p)). split; [lia|].
    split; [unfold offset_of; rewrite Hn, Ht; reflexivity|].
    intros toks Hag. unfold bind. rewrite (Hsame toks Hag), Hc. reflexivity.
Qed.


Ltac echo_step :=
  match goal with
  | |- echoes _ _ (bind (peek _) _ _) _ =>
      apply echoes_peek_then; [assumption | lia | cbv beta]
  | |- echoes _ _ (bind at_end _ _) _ =>
      apply echoes_at_end_then; [assumption | lia | cbv beta]
  | |- echoes _ _ (bind get _ _) _ => apply echoes_get_then; cbv beta
  | |- echoes _ _ (bind text_len _ _) _ =>
      apply echoes_text_len_then; [assumption | cbv beta]
  | |- echoes _ _ (bind no_number_next _ _) _ =>
      apply echoes_no_number_next_then;
      [assumption | lia | intros ?bad ?Hbad; cbv beta]
  | |- echoes _ _ (bind (int_ _) _ _) _ =>
      apply echoes_int_then; intros ?; cbv beta
  | |- echoes _ _ (bind here_or_end _ _) _ =>
      apply echoes_here_or_end_then; [assumption | lia | cbv beta]
  | |- echoes _ _ (ret _ _) _ => apply echoes_ret; [assumption | lia]
  | |- echoes _ _ (raise _ _) _ => apply echoes_raise; exact I
  | |- echoes _ _ ((if ?b then _ else _) _) _ => destruct b eqn:?
  | |- echoes _ _ ((match ?o with _ => _ end) _) _ => destruct o eqn:?
  end.

(** Consume a token and go on from the state after it. *)
Ltac echo_consume :=
  apply echoes_consume_then; [assumption|];
  let p' := fresh "p" in
  let Hn := fresh "Hn" in let Hs := fresh "Hs" in
  let Hp := fresh "Hp" in let Hd := fresh "Hd" in
  intros ? p' Hn Hs Hp Hd; cbv beta;
  apply (echoes_weaken (position (tokenizer p'))); [lia|].

Ltac echo_error_here :=
  match goal with
  | |- echoes _ _ (parse_error _ _ ?p) _ =>
      apply echoes_parse_error with (i := position (tokenizer p));
      [assumption | lia | reflexivity]
  end.

Lemma echoes_parse_condition op v p :
  same_input T p ->
  echoes T (position (tokenizer p)) (parse_condition op v p)
         (fun toks => parse_condition op v (on_tokens toks p)).
Proof.
  intros Hs. unfold parse_condition.
  repeat echo_step.
  - echo_consume. repeat echo_step; [echo_error_here|].
    echo_consume. repeat echo_step.
  - echo_consume. repeat echo_step.
Qed.


Lemma modifiers_loop_at_end n mods q :
  (List.length (tokens (tokenizer q)) <=? position (tokenizer q))%nat = true ->
  modifiers_loop n mods q = Ok (mods, q).
Proof.
  intros H. destruct n; cbn [modifiers_loop]; rewrite bind_at_end, H;
    reflexivity.
Qed.

(** Under the agreement a loop that is not at the end has fuel. *)
Lemma fuel_left b toks p (n2 : list Token -> nat) :
  same_input T p -> (position (tokenizer p) <= b)%nat ->
  (List.length (tokens T) <=? position (tokenizer p))%nat = false ->
  (forall l, (List.length l - position (tokenizer p) <= n2 l)%nat) ->
  agree (S b) (tokens T) toks ->
  n2 toks = S (Nat.pred (n2 toks)).
Proof.
  intros Hs Hb He Hn Hag.
  pose proof (agree_at_end _ _ _ Hag Hb) as H. rewrite He in H.
  apply Nat.leb_gt in H. specialize (Hn toks). lia.
Qed.

Lemma echoes_at_end {A} (a : A) p r2 :
  same_input T p ->
  (List.length (tokens T) <=? position (tokenizer p))%nat = true ->
  (forall toks,
      (List.length toks <=? position (tokenizer p))%nat = true ->
      r2 toks = Ok (a, on_tokens toks p)) ->
  echoes T (position (tokenizer p)) (Ok (a, p)) r2.
Proof.
  intros Hs He H. cbn. split; [exact Hs|]. split; [lia|].
  intros toks Hag. apply H.
  rewrite (agree_at_end _ _ _ Hag (Nat.le_refl _)). exact He.
Qed.

Lemma echoes_modifiers_loop : forall n (n2 : list Token -> nat) mods p,
  same_input T p -> (tokens_left p <= n)%nat ->
  (forall toks, (List.length toks - position (tokenizer p) <= n2 toks)%nat) ->
  echoes T (position (tokenizer p)) (modifiers_loop n mods p)
         (fun toks => modifiers_loop (n2 toks) mods (on_tokens toks p)).
Proof.
  induction n as [|n IH]; intros n2 mods p Hs Hleft Hn2;
    destruct (List.length (tokens T) <=? position (tokenizer p))%nat eqn:He.
  - rewrite modifiers_loop_at_end by (rewrite (proj2 Hs); exact He).
    apply echoes_at_end; [assumption | exact He|].
    intros toks Ht. apply modifiers_loop_at_end. exact Ht.
  - exfalso. apply Nat.leb_gt in He. unfold tokens_left in Hleft.
    rewrite (proj2 Hs) in Hleft. lia.
  - rewrite modifiers_loop_at_end by (rewrite (proj2 Hs); exact He).
    apply echoes_at_end; [assumption | exact He|].
    intros toks Ht. apply modifiers_loop_at_end. exact Ht.
  - apply (echoes_ext _ _ _
             (fun toks => modifiers_loop (S (Nat.pred (n2 toks))) mods
                            (on_tokens toks p))).
    { intros toks Hag.
      rewrite <- (fuel_left _ toks p n2 Hs (Nat.le_refl _) He Hn2 Hag).
      reflexivity. }
    assert (Hnext : forall mods' q,
               same_input T q ->
               (S (position (tokenizer p)) <= position (tokenizer q))%nat ->
               echoes T (position (tokenizer q)) (modifiers_loop n mods' q)
                 (fun toks => modifiers_loop (Nat.pred (n2 toks)) mods'
                                (on_tokens toks q))).
    { intros mods' q Hsq Hq. apply IH; [assumption| |].
      - unfold tokens_left in *. rewrite (proj2 Hs) in Hleft.
        rewrite (proj2 Hsq). lia.
      - intros toks. specialize (Hn2 toks). lia. }
    cbn [modifiers_loop]. repeat echo_step.
    + echo_consume.
      apply echoes_bind; [apply echoes_parse_condition; assumption|].
      intros c q _ Hsq Hq. cbv beta. apply Hnext; [assumption | lia].
    + echo_consume.
      apply echoes_bind; [apply echoes_parse_condition; assumption|].
      intros c q _ Hsq Hq. cbv beta. apply Hnext; [assumption | lia].
    + echo_consume. repeat echo_step; [echo_error_here|].
      echo_consume. repeat echo_step. apply Hnext; [assumption | lia].
    + echo_consume. apply Hnext; [assumption | lia].
    + echo_consume. repeat echo_step; [echo_error_here|].
      echo_consume. repeat echo_step.
Qed.

Lemma echoes_parse_dice_modifiers p :
  same_input T p ->
  echoes T (position (tokenizer p)) (parse_dice_modifiers p)
         (fun toks => parse_dice_modifiers (on_tokens toks p)).
Proof.
  intros Hs. unfold parse_dice_modifiers. echo_step.
  apply (echoes_modifiers_loop _
           (fun toks => tokens_left (on_tokens toks p))); [assumption | lia|].
  intros toks. rewrite on_left. lia.
Qed.


Lemma echoes_ret_then {A B} b (a : A) (k : A -> P B)
  (k2 : list Token -> A -> P B) p :
  echoes T b (k a p) (fun toks => k2 toks a (on_tokens toks p)) ->
  echoes T b (bind (ret a) k p)
         (fun toks => bind (ret a) (k2 toks) (on_tokens toks p)).
Proof. intros H. exact H. Qed.

Lemma echoes_assoc {A B C} b (m : P A) (f : A -> P B) (g : B -> P C)
  (m2 : list Token -> P A) (f2 : list Token -> A -> P B)
  (g2 : list Token -> B -> P C) p :
  echoes T b (bind m (fun a => bind (f a) g) p)
         (fun toks => bind (m2 toks) (fun a => bind (f2 toks a) (g2 toks))
                           (on_tokens toks p)) ->
  echoes T b (bind (bind m f) g p)
         (fun toks => bind (bind (m2 toks) (f2 toks)) (g2 toks)
                           (on_tokens toks p)).
Proof.
  intros H. rewrite bind_assoc. eapply echoes_ext; [|exact H].
  intros toks _. apply bind_assoc.
Qed.

Lemma echoes_parse_error_then {A B} b msg w i (k : A -> P B)
  (k2 : list Token -> A -> P B) p :
  same_input T p -> (b <= i)%nat -> w = offset_of T i ->
  echoes T b (bind (parse_error msg w) k p)
         (fun toks => bind (parse_error msg w) (k2 toks) (on_tokens toks p)).
Proof.
  intros Hs Hb Hw. cbn. exists i. split; [exact Hb|]. split; [exact Hw|].
  reflexivity.
Qed.

Lemma offset_of_end i :
  (List.length (tokens T) <= i)%nat -> offset_of T i = slen (text T).
Proof.
  intros H. unfold offset_of. apply nth_error_None in H. rewrite H.
  reflexivity.
Qed.

(** [consume()] on a token that is there does not fail. *)
Lemma echoes_consume_token_then {A} b token (k : string -> P A)
  (k2 : list Token -> string -> P A) p :
  same_input T p -> (position (tokenizer p) <= b)%nat ->
  nth_error (tokens T) (position (tokenizer p)) = Some token ->
  (forall p',
      same_input T p' ->
      position (tokenizer p') = S (position (tokenizer p)) ->
      recursion_depth p' = recursion_depth p ->
      echoes T b (k (tok_text token) p')
             (fun toks => k2 toks (tok_text token) (on_tokens toks p'))) ->
  echoes T b (bind (consume None) k p)
         (fun toks => bind (consume None) (k2 toks) (on_tokens toks p)).
Proof.
  intros Hs Hb Hn Hcont. pose proof Hs as [Ht Hk].
  assert (Hc : forall q, text (tokenizer q) = text (tokenizer p) ->
                 position (tokenizer q) = position (tokenizer p) ->
                 recursion_depth q = recursion_depth p ->
                 nth_error (tokens (tokenizer q)) (position (tokenizer p))
                 = Some token ->
                 consume None q
                 = Ok (tok_text token,
                       mkParser (mkTokenizer (text (tokenizer p))
                                   (tokens (tokenizer q))
                                   (S (position (tokenizer p))))
                                (recursion_depth p))).
  { intros q Hq1 Hq2 Hq3 Hq4.
    unfold consume, bind, get, set_position, ret.
    rewrite Hq2, Hq4, Hq1, Hq3. reflexivity. }
  unfold bind at 1.
  rewrite (Hc p eq_refl eq_refl eq_refl) by (rewrite Hk; exact Hn).
  eapply echoes_ext; [|apply Hcont].
  - intros toks Hag. cbv beta. unfold bind.
    rewrite (Hc (on_tokens toks p) eq_refl eq_refl eq_refl);
      [reflexivity|].
    cbn [on_tokens tokenizer tokens]. rewrite (agree_nth _ _ _ Hag Hb).
    exact Hn.
  - split; [exact Ht | exact Hk].
  - reflexivity.
  - reflexivity.
Qed.

Ltac echo_more :=
  match goal with
  | |- echoes _ _ (bind (ret _) _ _) _ =>
      apply echoes_ret_then; cbv beta iota
  | |- echoes _ _ (bind (bind _ _) _ _) _ => apply echoes_assoc; cbv beta
  | |- echoes _ _ (bind (if ?b then _ else _) _ _) _ => destruct b eqn:?
  | |- echoes _ _ (bind (match ?o with _ => _ end) _ _) _ => destruct o eqn:?
  | |- echoes _ _ (bind (token_pos _) _ _) _ =>
      eapply echoes_token_pos_then;
      [assumption | lia | intros; reflexivity
      | let t := fresh "t" in let Ht := fresh "Ht" in
        intros t Ht; cbv beta]
  | Ht : nth_error (tokens T) ?j = Some ?t
    |- echoes _ _ (parse_error _ (pos ?t) _) _ =>
      apply (echoes_parse_error _ _ _ j);
      [assumption | lia | unfold offset_of; rewrite Ht; reflexivity]
  | Ht : nth_error (tokens T) ?j = Some ?t
    |- echoes _ _ (bind (parse_error _ (pos ?t)) _ _) _ =>
      apply (echoes_parse_error_then _ _ _ j);
      [assumption | lia | unfold offset_of; rewrite Ht; reflexivity]
  | |- _ => echo_step
  end.

Ltac echo_token :=
  match goal with
  | Hn : nth_error (tokens T) (position (tokenizer ?p)) = Some ?token
    |- echoes _ _ (bind (consume None) _ ?p) _ =>
      apply (echoes_consume_token_then _ token); [assumption | lia | exact Hn|];
      let p' := fresh "p" in
      let Hs := fresh "Hs" in let Hp := fresh "Hp" in let Hd := fresh "Hd" in
      intros p' Hs Hp Hd; cbv beta
  end.

(** The dice term after its count. *)
Lemma echoes_parse_dice_rest (count : Z) p :
  same_input T p ->
  echoes T (position (tokenizer p))
    ((die_token <- consume None ;;
      p0 <- get ;;
      if negb (startswith "d" (lower die_token)) then
        w <- token_pos (position (tokenizer p0) - 1) ;;
        parse_error ("Expected dice notation, got '"
                     ++ die_token ++ "'")%string w
      else
        let sides_str := lower (tail_str die_token) in
        ' (sides, kind) <-
          (if String.eqb sides_str "%" || String.eqb sides_str "00"
           then ret (100, Percentile)
           else if String.eqb sides_str "f" || String.eqb sides_str "f.2"
           then ret (3, Fate)
           else match py_int sides_str with
                | Some n => ret (n, Standard)
                | None =>
                    w <- token_pos (position (tokenizer p0) - 1) ;;
                    parse_error ("Invalid dice sides '"
                                 ++ sides_str ++ "'")%string w
                end) ;;
        if count >? MAX_DICE then
          raise (LimitError ("Cannot roll more than " ++ str MAX_DICE
                             ++ " dice per term")%string)
        else if sides >? MAX_SIDES then
          raise (LimitError ("Die cannot have more than "
                             ++ str MAX_SIDES ++ " sides")%string)
        else if count <? 1 then
          raise (SemanticError "Must roll at least 1 die")
        else if sides <? 1 then
          raise (SemanticError "Die must have at least 1 side")
        else
          modifiers <- parse_dice_modifiers ;;
          ret (Dice count sides kind modifiers)) p)
    (fun toks =>
     (die_token <- consume None ;;
      p0 <- get ;;
      if negb (startswith "d" (lower die_token)) then
        w <- token_pos (position (tokenizer p0) - 1) ;;
        parse_error ("Expected dice notation, got '"
                     ++ die_token ++ "'")%string w
      else
        let sides_str := lower (tail_str die_token) in
        ' (sides, kind) <-
          (if String.eqb sides_str "%" || String.eqb sides_str "00"
           then ret (100, Percentile)
           else if String.eqb sides_str "f" || String.eqb sides_str "f.2"
           then ret (3, Fate)
           else match py_int sides_str with
                | Some n => ret (n, Standard)
                | None =>
                    w <- token_pos (position (tokenizer p0) - 1) ;;
                    parse_error ("Invalid dice sides '"
                                 ++ sides_str ++ "'")%string w
                end) ;;
        if count >? MAX_DICE then
          raise (LimitError ("Cannot roll more than " ++ str MAX_DICE
                             ++ " dice per term")%string)
        else if sides >? MAX_SIDES then
          raise (LimitError ("Die cannot have more than "
                             ++ str MAX_SIDES ++ " sides")%string)
        else if count <? 1 then
          raise (SemanticError "Must roll at least 1 die")
        else if sides <? 1 then
          raise (SemanticError "Die must have at least 1 side")
        else
          modifiers <- parse_dice_modifiers ;;
          ret (Dice count sides kind modifiers)) (on_tokens toks p)).
Proof.
  intros Hs.
  apply echoes_consume_then; [assumption|].
  intros token p1 Hn Hs1 Hp1 Hd1. cbv beta.
  echo_more. cbv zeta.
  assert (Htail : forall sides kind,
             echoes T (position (tokenizer p))
               ((if count >? MAX_DICE then
                   raise (LimitError ("Cannot roll more than " ++ str MAX_DICE
                                      ++ " dice per term")%string)
                 else if sides >? MAX_SIDES then
                   raise (LimitError ("Die cannot have more than "
                                      ++ str MAX_SIDES ++ " sides")%string)
                 else if count <? 1 then
                   raise (SemanticError "Must roll at least 1 die")
                 else if sides <? 1 then
                   raise (SemanticError "Die must have at least 1 side")
                 else
                   modifiers <- parse_dice_modifiers ;;
                   ret (Dice count sides kind modifiers)) p1)
               (fun toks =>
                (if count >? MAX_DICE then
                   raise (LimitError ("Cannot roll more than " ++ str MAX_DICE
                                      ++ " dice per term")%string)
                 else if sides >? MAX_SIDES then
                   raise (LimitError ("Die cannot have more than "
                                      ++ str MAX_SIDES ++ " sides")%string)
                 else if count <? 1 then
                   raise (SemanticError "Must roll at least 1 die")
                 else if sides <? 1 then
                   raise (SemanticError "Die must have at least 1 side")
                 else
                   modifiers <- parse_dice_modifiers ;;
                   ret (Dice count sides kind modifiers))
                  (on_tokens toks p1))).
  { intros sides kind. repeat echo_step.
    apply (echoes_weaken (position (tokenizer p1))); [lia|].
    apply echoes_bind; [apply echoes_parse_dice_modifiers; assumption|].
    intros m q _ Hsq Hq. cbv beta. echo_step. }
  destruct (negb (startswith "d" (lower (tok_text token)))).
  - repeat echo_more.
  - destruct (String.eqb (lower (tail_str (tok_text token))) "%"
              || String.eqb (lower (tail_str (tok_text token))) "00");
      [apply (Htail 100 Percentile)|].
    destruct (String.eqb (lower (tail_str (tok_text token))) "f"
              || String.eqb (lower (tail_str (tok_text token))) "f.2");
      [apply (Htail 3 Fate)|].
    destruct (py_int (lower (tail_str (tok_text token)))) as [n|];
      [apply (Htail n Standard)|].
    repeat echo_more.
Qed.


(** A dice term that starts with its count is decided after the count. *)
Lemma echoes_parse_dice_counted t p :
  same_input T p ->
  nth_error (tokens T) (position (tokenizer p)) = Some t ->
  isdigit (tok_text t) = true ->
  echoes T (S (position (tokenizer p))) (parse_dice p)
         (fun toks => parse_dice (on_tokens toks p)).
Proof.
  intros Hs Hn Hd. unfold parse_dice.
  apply echoes_peek_then; [assumption | lia|]. cbv beta.
  rewrite Nat.add_0_r, Hn. cbn [option_map]. rewrite Hd.
  apply echoes_assoc. cbv beta.
  echo_token. echo_more.
  apply (echoes_weaken (position (tokenizer p0))); [lia|].
  apply echoes_parse_dice_rest. assumption.
Qed.

Lemma echoes_parse_dice p :
  same_input T p ->
  echoes T (position (tokenizer p)) (parse_dice p)
         (fun toks => parse_dice (on_tokens toks p)).
Proof.
  intros Hs.
  destruct (nth_error (tokens T) (position (tokenizer p))) as [t|] eqn:Hn.
  - destruct (isdigit (tok_text t)) eqn:Hd.
    + apply (echoes_weaken (S (position (tokenizer p)))); [lia|].
      apply (echoes_parse_dice_counted t); assumption.
    + unfold parse_dice.
      apply echoes_peek_then; [assumption | lia|]. cbv beta.
      rewrite Nat.add_0_r, Hn. cbn [option_map]. rewrite Hd.
      apply echoes_ret_then. apply echoes_parse_dice_rest. assumption.
  - unfold parse_dice.
    apply echoes_peek_then; [assumption | lia|]. cbv beta.
    rewrite Nat.add_0_r, Hn. cbn [option_map].
    apply echoes_ret_then. apply echoes_parse_dice_rest. assumption.
Qed.

Lemma echoes_peek_skip {A} b offset (m : P A) (m2 : list Token -> P A) p :
  echoes T b (m p) (fun toks => m2 toks (on_tokens toks p)) ->
  echoes T b (bind (peek offset) (fun _ => m) p)
         (fun toks => bind (peek offset) (fun _ => m2 toks) (on_tokens toks p)).
Proof. intros H. exact H. Qed.

Lemma echoes_parse_primary p :
  same_input T p ->
  echoes T (position (tokenizer p)) (parse_primary p)
         (fun toks => parse_primary (on_tokens toks p)).
Proof.
  intros Hs. unfold parse_primary.
  apply echoes_peek_then; [assumption | lia|]. cbv beta.
  rewrite Nat.add_0_r.
  destruct (nth_error (tokens T) (position (tokenizer p))) as [t|] eqn:Hn;
    cbn [option_map].
  2:{ echo_step.
      apply (echoes_parse_error _ _ _ (position (tokenizer p)));
        [assumption | lia|].
      unfold offset_of. rewrite Hn. reflexivity. }
  destruct (String.eqb (tok_text t) EmptyString).
  { echo_step.
    apply (echoes_parse_error _ _ _
             (Nat.max (position (tokenizer p)) (List.length (tokens T))));
      [assumption | lia|].
    symmetry. apply offset_of_end. lia. }
  destruct (startswith "d" (lower (tok_text t))) eqn:Hd.
  { cbn [orb]. apply echoes_parse_dice. assumption. }
  destruct (isdigit (tok_text t)) eqn:Hi; cbn [orb andb].
  - apply (echoes_weaken (S (position (tokenizer p)))); [lia|].
    apply echoes_peek_then; [assumption | lia|]. cbv beta.
    destruct (match option_map tok_text
                      (nth_error (tokens T) (position (tokenizer p) + 1)) with
              | Some t0 =>
                  negb (String.eqb t0 EmptyString)
                  && startswith "d" (lower t0)
              | None => false
              end).
    + apply (echoes_parse_dice_counted t); assumption.
    + echo_token. repeat echo_more.
  - destruct (startswith "-" (tok_text t) && isdigit (tail_str (tok_text t)));
      apply echoes_peek_skip.
    + echo_token. repeat echo_more.
    + echo_more.
      apply (echoes_token_pos_then _ (position (tokenizer p)));
        [assumption | lia | intros; reflexivity|].
      intros t' Ht'. cbv beta.
      apply (echoes_parse_error _ _ _ (position (tokenizer p)));
        [assumption | lia|].
      unfold offset_of. rewrite Ht'. reflexivity.
Qed.


Lemma term_loop_at_end factor n left q :
  (List.length (tokens (tokenizer q)) <=? position (tokenizer q))%nat = true ->
  term_loop factor n left q = Ok (left, q).
Proof.
  intros H. destruct n; cbn [term_loop]; rewrite bind_at_end, H; reflexivity.
Qed.

Lemma expression_loop_at_end factor n left q :
  (List.length (tokens (tokenizer q)) <=? position (tokenizer q))%nat = true ->
  expression_loop factor n left q = Ok (left, q).
Proof.
  intros H. destruct n; cbn [expression_loop]; rewrite bind_at_end, H;
    reflexivity.
Qed.

Section Factor.

Variable factor : P ast.
Variable factor2 : list Token -> P ast.
Variable c0 : nat.
Hypothesis factor_echoes :
  forall q, same_input T q -> (c0 <= position (tokenizer q))%nat ->
    echoes T (position (tokenizer q)) (factor q)
           (fun toks => factor2 toks (on_tokens toks q)).

Lemma echoes_term_loop : forall n (n2 : list Token -> nat) left p,
  same_input T p -> (c0 <= position (tokenizer p))%nat ->
  (tokens_left p <= n)%nat ->
  (forall toks, (List.length toks - position (tokenizer p) <= n2 toks)%nat) ->
  echoes T (position (tokenizer p)) (term_loop factor n left p)
         (fun toks => term_loop (factor2 toks) (n2 toks) left
                                (on_tokens toks p)).
Proof.
  induction n as [|n IH]; intros n2 left p Hs Hc Hleft Hn2;
    destruct (List.length (tokens T) <=? position (tokenizer p))%nat eqn:He.
  - rewrite term_loop_at_end by (rewrite (proj2 Hs); exact He).
    apply echoes_at_end; [assumption | exact He|].
    intros toks Ht. apply term_loop_at_end. exact Ht.
  - exfalso. apply Nat.leb_gt in He. unfold tokens_left in Hleft.
    rewrite (proj2 Hs) in Hleft. lia.
  - rewrite term_loop_at_end by (rewrite (proj2 Hs); exact He).
    apply echoes_at_end; [assumption | exact He|].
    intros toks Ht. apply term_loop_at_end. exact Ht.
  - apply (echoes_ext _ _ _
             (fun toks => term_loop (factor2 toks) (S (Nat.pred (n2 toks)))
                                    left (on_tokens toks p))).
    { intros toks Hag.
      rewrite <- (fuel_left _ toks p n2 Hs (Nat.le_refl _) He Hn2 Hag).
      reflexivity. }
    cbn [term_loop]. repeat echo_step.
    echo_consume.
    apply echoes_bind; [apply factor_echoes; [assumption | lia]|].
    intros right q _ Hsq Hq. cbv beta.
    apply IH; [assumption | lia | |].
    + unfold tokens_left in *. rewrite (proj2 Hs) in Hleft.
      rewrite (proj2 Hsq). lia.
    + intros toks. specialize (Hn2 toks). lia.
Qed.

Lemma echoes_parse_term p :
  same_input T p -> (c0 <= position (tokenizer p))%nat ->
  echoes T (position (tokenizer p)) (parse_term factor p)
         (fun toks => parse_term (factor2 toks) (on_tokens toks p)).
Proof.
  intros Hs Hc. unfold parse_term.
  apply echoes_bind; [apply factor_echoes; assumption|].
  intros left q _ Hsq Hq. cbv beta. echo_step.
  apply (echoes_term_loop _ (fun toks => tokens_left (on_tokens toks q)));
    [assumption | lia | lia|].
  intros toks. rewrite on_left. lia.
Qed.

Lemma echoes_expression_loop : forall n (n2 : list Token -> nat) left p,
  same_input T p -> (c0 <= position (tokenizer p))%nat ->
  (tokens_left p <= n)%nat ->
  (forall toks, (List.length toks - position (tokenizer p) <= n2 toks)%nat) ->
  echoes T (position (tokenizer p)) (expression_loop factor n left p)
         (fun toks => expression_loop (factor2 toks) (n2 toks) left
                                      (on_tokens toks p)).
Proof.
  induction n as [|n IH]; intros n2 left p Hs Hc Hleft Hn2;
    destruct (List.length (tokens T) <=? position (tokenizer p))%nat eqn:He.
  - rewrite expression_loop_at_end by (rewrite (proj2 Hs); exact He).
    apply echoes_at_end; [assumption | exact He|].
    intros toks Ht. apply expression_loop_at_end. exact Ht.
  - exfalso. apply Nat.leb_gt in He. unfold tokens_left in Hleft.
    rewrite (proj2 Hs) in Hleft. lia.
  - rewrite expression_loop_at_end by (rewrite (proj2 Hs); exact He).
    apply echoes_at_end; [assumption | exact He|].
    intros toks Ht. apply expression_loop_at_end. exact Ht.
  - apply (echoes_ext _ _ _
             (fun toks => expression_loop (factor2 toks)
                            (S (Nat.pred (n2 toks))) left (on_tokens toks p))).
    { intros toks Hag.
      rewrite <- (fuel_left _ toks p n2 Hs (Nat.le_refl _) He Hn2 Hag).
      reflexivity. }
    cbn [expression_loop]. repeat echo_step.
    echo_consume.
    apply echoes_bind; [apply echoes_parse_term; [assumption | lia]|].
    intros right q _ Hsq Hq. cbv beta.
    apply IH; [assumption | lia | |].
    + unfold tokens_left in *. rewrite (proj2 Hs) in Hleft.
      rewrite (proj2 Hsq). lia.
    + intros toks. specialize (Hn2 toks). lia.
Qed.

Lemma echoes_parse_expression_with p :
  same_input T p -> (c0 <= position (tokenizer p))%nat ->
  echoes T (position (tokenizer p)) (parse_expression_with factor p)
         (fun toks => parse_expression_with (factor2 toks) (on_tokens toks p)).
Proof.
  intros Hs Hc. unfold parse_expression_with.
  apply echoes_bind; [apply echoes_parse_term; assumption|].
  intros left q _ Hsq Hq. cbv beta. echo_step.
  apply (echoes_expression_loop _
           (fun toks => tokens_left (on_tokens toks q)));
    [assumption | lia | lia|].
  intros toks. rewrite on_left. lia.
Qed.

End Factor.

Lemma parse_factor_primary n q :
  token_is (option_map tok_text
              (nth_error (tokens (tokenizer q)) (position (tokenizer q))))
           "-" = false ->
  token_is (option_map tok_text
              (nth_error (tokens (tokenizer q)) (position (tokenizer q))))
           "(" = false ->
  parse_factor n q = parse_primary q.
Proof.
  intros Hm Hp. destruct n; cbn [parse_factor];
    rewrite bind_peek, Nat.add_0_r, Hm, Hp; reflexivity.
Qed.

Lemma echoes_parse_factor : forall fuel (f2 : list Token -> nat) c0,
  (List.length (tokens T) - c0 <= fuel)%nat ->
  (forall toks, (List.length toks - c0 <= f2 toks)%nat) ->
  forall p, same_input T p -> (c0 <= position (tokenizer p))%nat ->
    echoes T (position (tokenizer p)) (parse_factor fuel p)
           (fun toks => parse_factor (f2 toks) (on_tokens toks p)).
Proof.
  induction fuel as [|fuel IH]; intros f2 c0 Hfuel Hf2 p Hs Hc.
  all: pose proof Hs as [Ht Hk].
  all: destruct (token_is (option_map tok_text
                   (nth_error (tokens T) (position (tokenizer p)))) "-")
         eqn:Hminus;
       [|destruct (token_is (option_map tok_text
                     (nth_error (tokens T) (position (tokenizer p)))) "(")
           eqn:Hparen].
  all: try (rewrite parse_factor_primary by (rewrite Hk; assumption);
            eapply echoes_ext; [|apply echoes_parse_primary; assumption];
            intros toks Hag; cbv beta;
            apply parse_factor_primary;
            cbn [on_tokens tokenizer tokens position];
            rewrite (agree_nth _ _ _ Hag (Nat.le_refl _)); assumption).
  all: assert (He : (List.length (tokens T) <=? position (tokenizer p))%nat
                    = false)
         by (apply Nat.leb_gt; apply nth_error_Some;
             destruct (nth_error (tokens T) (position (tokenizer p)));
             [discriminate | cbn in *; discriminate]).
  1, 2: exfalso; apply Nat.leb_gt in He; lia.
  all: apply (echoes_ext _ _ _
                (fun toks => parse_factor (S (Nat.pred (f2 toks)))
                               (on_tokens toks p)));
       [ intros toks Hag;
         rewrite <- (fuel_left _ toks p
                       (fun l => f2 l) Hs (Nat.le_refl _) He
                       ltac:(intros l; specialize (Hf2 l); lia) Hag);
         reflexivity |].
  all: assert (Hin : forall q, same_input T q ->
                 (S c0 <= position (tokenizer q))%nat ->
                 echoes T (position (tokenizer q)) (parse_factor fuel q)
                   (fun toks => parse_factor (Nat.pred (f2 toks))
                                             (on_tokens toks q)))
         by (intros q Hsq Hq;
             apply (IH (fun toks => Nat.pred (f2 toks)) (S c0));
             [lia | intros toks; specialize (Hf2 toks); lia
             | assumption | assumption]).
  all: cbn [parse_factor]; echo_step; rewrite Nat.add_0_r, Hminus.
  - echo_consume.
    apply echoes_bind; [apply Hin; [assumption | lia]|].
    intros operand q _ Hsq Hq. cbv beta. echo_step.
  - rewrite Hparen. echo_step.
    eapply echoes_set_depth_then; [intros; reflexivity | | assumption].
    intros p1 _ Hs1 Hp1 Hd1. cbv beta.
    apply (echoes_ext _ _ _
             (fun toks =>
                (if (MAX_RECURSION <? S (recursion_depth p))%nat
                 then raise (LimitError
                               ("Exceeded maximum recursion depth of "
                                ++ str (Z.of_nat MAX_RECURSION))%string)
                 else
                   consume (Some "(") ;;;
                   expr <- parse_expression_with
                             (parse_factor (Nat.pred (f2 toks))) ;;
                   consume (Some ")") ;;;
                   p' <- get ;;
                   set_depth (recursion_depth p' - 1) ;;;
                   ret expr) (on_tokens toks p1)));
      [intros toks _; reflexivity|].
    destruct (MAX_RECURSION <? S (recursion_depth p))%nat;
      [echo_step|].
    rewrite <- Hp1.
    echo_consume.
    apply echoes_bind.
    { apply (echoes_parse_expression_with _ _ (S c0) Hin);
        [assumption | lia]. }
    intros expr q _ Hsq Hq. cbv beta.
    echo_consume. echo_step.
    eapply echoes_set_depth_then; [intros; reflexivity | | assumption].
    intros p3 _ Hs3 Hp3 Hd3. cbv beta.
    apply echoes_ret; [assumption | lia].
Qed.

(** [parse] past its check for an empty expression. *)
Lemma echoes_parse p :
  same_input T p ->
  (List.length (tokens T) <=? position (tokenizer p))%nat = false ->
  echoes T (position (tokenizer p)) (parse p)
         (fun toks => parse (on_tokens toks p)).
Proof.
  intros Hs He. unfold parse. echo_step. rewrite He.
  apply echoes_bind.
  - unfold parse_expression. echo_step.
    apply (echoes_parse_expression_with _ _ (position (tokenizer p))).
    + intros q Hsq Hq.
      apply (echoes_parse_factor _
               (fun toks => List.length (tokens (tokenizer (on_tokens toks p))))
               (position (tokenizer p)));
        [rewrite (proj2 Hs); lia | intros toks; cbn; lia
        | assumption | assumption].
    + assumption.
    + lia.
  - intros result q _ Hsq Hq. cbv beta.
    echo_step. destruct (List.length (tokens T) <=? position (tokenizer q))%nat;
      cbn [negb]; [echo_step|].
    echo_step. echo_step.
    apply (echoes_token_pos_then _ (position (tokenizer q)));
      [assumption | lia | intros; reflexivity|].
    intros t Ht. cbv beta.
    apply (echoes_parse_error _ _ _ (position (tokenizer q)));
      [assumption | lia|].
    unfold offset_of. rewrite Ht. reflexivity.
Qed.

End ParserEcho.

Lemma agree_all l toks :
  agree (S (List.length l)) l toks -> forall k, agree k l toks.
Proof.
  intros H k j _.
  destruct (Nat.le_gt_cases j (List.length l)) as [Hj|Hj]; [apply H; lia|].
  assert (Hend : nth_error toks (List.length l) = None).
  { rewrite <- (H (List.length l)) by lia. apply nth_error_None. lia. }
  apply nth_error_None in Hend.
  assert (H1 : nth_error l j = None) by (apply nth_error_None; lia).
  assert (H2 : nth_error toks j = None) by (apply nth_error_None; lia).
  congruence.
Qed.

Lemma agree_firstn i l k : (k <= i)%nat -> agree k (firstn i l) l.
Proof.
  intros Hk j Hj. rewrite nth_error_firstn.
  destruct (Nat.ltb_spec j i); [reflexivity | lia].
Qed.

(** The tokens stand in the text one after the other. *)
Lemma slices_offsets text : forall toks from,
  slices_in_order text from toks ->
  forall j t, nth_error toks j = Some t ->
    (from <= pos t < List.length text)%nat
    /\ forall i t', (j < i)%nat -> nth_error toks i = Some t' ->
                    (pos t < pos t')%nat.
Proof.
  induction toks as [|a toks IH]; intros from H j t Hj.
  - destruct j; discriminate.
  - cbn [slices_in_order] in H. destruct H as (Hfrom & Hlen & _ & Hin & Hrest).
    destruct j as [|j]; cbn [nth_error] in Hj.
    + injection Hj as <-. split; [lia|].
      intros i t' Hi Ht'. destruct i as [|i]; [lia|]. cbn [nth_error] in Ht'.
      destruct (IH _ Hrest i t' Ht') as [Hpos _]. lia.
    + destruct (IH _ Hrest j t Hj) as [Hpos Hlater]. split; [lia|].
      intros i t' Hi Ht'. destruct i as [|i]; [lia|]. cbn [nth_error] in Ht'.
      apply (Hlater i t'); [lia | exact Ht'].
Qed.

Lemma offset_of_increasing expression j i t :
  nth_error (tokens (new_Tokenizer expression)) j = Some t ->
  (j < i)%nat ->
  (pos t < offset_of (new_Tokenizer expression) i)%nat.
Proof.
  intros Hj Hi.
  pose proof (finditer_slices (chars (strip expression)) [] O ltac:(lia))
    as Hsl.
  cbn [app List.length Nat.add] in Hsl.
  change (finditer (chars (strip expression)) 0 0)
    with (tokens (new_Tokenizer expression)) in Hsl.
  destruct (slices_offsets _ _ _ Hsl j t Hj) as [Hpos Hlater].
  unfold offset_of.
  destruct (nth_error (tokens (new_Tokenizer expression)) i) as [t'|] eqn:Ht'.
  - apply (Hlater i t'); assumption.
  - change (text (new_Tokenizer expression)) with (strip expression).
    rewrite slen_chars. lia.
Qed.

Lemma parse_empty p :
  (List.length (tokens (tokenizer p)) <=? position (tokenizer p))%nat = true ->
  parse p = Raise (ParseError "Empty expression" O (text (tokenizer p))).
Proof. intros H. unfold parse. rewrite bind_at_end, H. reflexivity. Qed.

(** The parser on a junk token. *)

Section Junk.

Variable T : Tokenizer.
Variable L : nat.
Variable J : Token.
Hypothesis junk_there : nth_error (tokens T) L = Some J.
Hypothesis junk_text : tok_text J = "@".
Hypothesis no_empty :
  Forall (fun t => tok_text t <> EmptyString) (tokens T).

(** Up to the junk token there is a token under the cursor. *)
Lemma cursor_token p :
  same_input T p -> (position (tokenizer p) <= L)%nat ->
  exists t,
    nth_error (tokens T) (position (tokenizer p)) = Some t
    /\ tok_text t <> EmptyString
    /\ (tok_text t <> "@" -> (position (tokenizer p) < L)%nat).
Proof.
  intros Hs Hp.
  assert (HL : (L < List.length (tokens T))%nat)
    by (apply nth_error_Some; congruence).
  destruct (nth_error (tokens T) (position (tokenizer p))) as [t|] eqn:Ht.
  - exists t. split; [reflexivity|]. split.
    + rewrite Forall_forall in no_empty. apply no_empty.
      eapply nth_error_In. eassumption.
    + intros Hne.
      destruct (Nat.eq_dec (position (tokenizer p)) L) as [Heq|Hneq]; [|lia].
      rewrite Heq, junk_there in Ht. injection Ht as <-. contradiction.
  - apply nth_error_None in Ht. lia.
Qed.

Lemma not_at_end_before p :
  same_input T p -> (position (tokenizer p) <= L)%nat ->
  (List.length (tokens (tokenizer p)) <=? position (tokenizer p))%nat = false.
Proof.
  intros [_ Hk] Hp. rewrite Hk. apply Nat.leb_gt.
  assert (HL : (L < List.length (tokens T))%nat)
    by (apply nth_error_Some; congruence).
  lia.
Qed.

Lemma stopped_ret {A} (a : A) p :
  same_input T p -> (position (tokenizer p) <= L)%nat ->
  stopped T L (ret a p).
Proof. intros Hs Hp. cbn. split; assumption. Qed.

Lemma stopped_bind {A B} (m : P A) (k : A -> P B) p :
  stopped T L (m p) ->
  (forall a q, m p = Ok (a, q) -> same_input T q ->
               (position (tokenizer q) <= L)%nat -> stopped T L (k a q)) ->
  stopped T L (bind m k p).
Proof.
  intros Hm Hk. unfold bind. destruct (m p) as [[a q]|e] eqn:Hmp.
  - destruct Hm as [Hs Hq]. apply Hk; auto.
  - exact Hm.
Qed.

Lemma stopped_parse_error {A} msg w i p :
  (i <= L)%nat -> w = offset_of T i ->
  stopped T L (@parse_error A msg w p).
Proof. intros Hi Hw. cbn. exists i. split; assumption. Qed.

Lemma stopped_parse_error_then {A B} msg w i (k : A -> P B) p :
  (i <= L)%nat -> w = offset_of T i ->
  stopped T L (bind (parse_error msg w) k p).
Proof. intros Hi Hw. cbn. exists i. split; assumption. Qed.

Lemma stopped_int_then {A} s (k : Z -> P A) p :
  (forall v, stopped T L (k v p)) -> stopped T L (bind (int_ s) k p).
Proof.
  intros H. unfold int_. destruct (py_int s) as [v|]; [apply H | exact I].
Qed.

Lemma stopped_token_pos_then {A} i (k : nat -> P A) p :
  same_input T p -> (i <= L)%nat ->
  (forall w, w = offset_of T i -> stopped T L (k w p)) ->
  stopped T L (bind (token_pos i) k p).
Proof.
  intros [_ Hk] Hi H. unfold token_pos, bind, get. rewrite Hk.
  destruct (nth_error (tokens T) i) as [t|] eqn:Ht; [|exact I].
  apply H. unfold offset_of. rewrite Ht. reflexivity.
Qed.

Lemma stopped_here_or_end_then {A} (k : nat -> P A) p :
  same_input T p -> (position (tokenizer p) <= L)%nat ->
  (forall w, w = offset_of T (position (tokenizer p)) ->
             stopped T L (k w p)) ->
  stopped T L (bind here_or_end k p).
Proof.
  intros Hs Hp H. unfold here_or_end.
  rewrite bind_assoc, bind_at_end, (not_at_end_before p Hs Hp).
  rewrite bind_assoc, bind_get.
  apply stopped_token_pos_then; assumption.
Qed.

Lemma stopped_set_depth_then {A} d (k : unit -> P A) p :
  same_input T p ->
  (forall p', same_input T p' ->
              position (tokenizer p') = position (tokenizer p) ->
              stopped T L (k tt p')) ->
  stopped T L (bind (set_depth d) k p).
Proof. intros Hs H. apply (H (mkParser (tokenizer p) d) Hs eq_refl). Qed.

(** [consume()] takes the token under the cursor. *)
Lemma stopped_consume_then {A} t (k : string -> P A) p :
  same_input T p ->
  nth_error (tokens T) (position (tokenizer p)) = Some t ->
  (forall p', same_input T p' ->
              position (tokenizer p') = S (position (tokenizer p)) ->
              stopped T L (k (tok_text t) p')) ->
  stopped T L (bind (consume None) k p).
Proof.
  intros Hs Ht H. pose proof Hs as [Htx Hk].
  unfold consume, bind, get, set_position, ret. rewrite Hk, Ht.
  apply H; [split; [exact Htx | exact Hk] | reflexivity].
Qed.

(** [consume(expected)] takes it when it is the expected one, which the
    junk token is not. *)
Lemma stopped_consume_expected_then {A} e t (k : string -> P A) p :
  same_input T p -> (position (tokenizer p) <= L)%nat ->
  nth_error (tokens T) (position (tokenizer p)) = Some t ->
  String.eqb e EmptyString = false ->
  String.eqb (lower "@") (lower e) = false ->
  (forall p', same_input T p' ->
              position (tokenizer p') = S (position (tokenizer p)) ->
              (position (tokenizer p') <= L)%nat ->
              stopped T L (k (tok_text t) p')) ->
  stopped T L (bind (consume (Some e)) k p).
Proof.
  intros Hs Hp Ht He Hj H. pose proof Hs as [Htx Hk].
  unfold consume, bind, get, set_position, parse_error, the_text, ret, raise.
  rewrite Hk, Ht, He. cbn [negb andb].
  destruct (String.eqb (lower (tok_text t)) (lower e)) eqn:Hm; cbn [negb].
  - apply H; [split; [exact Htx | exact Hk] | reflexivity|].
    cbn [tokenizer position].
    destruct (cursor_token p Hs Hp) as (t' & Ht' & _ & Hlt).
    rewrite Ht in Ht'. injection Ht' as <-.
    assert (Hne : tok_text t <> "@").
    { intros Heq. rewrite Heq in Hm. congruence. }
    specialize (Hlt Hne). lia.
  - exists (position (tokenizer p)). split; [exact Hp|].
    unfold offset_of. rewrite Ht. reflexivity.
Qed.


Lemma bind_of_ret {A B} (a : A) (k : A -> P B) p : bind (ret a) k p = k a p.
Proof. reflexivity. Qed.

Lemma peek_known {A} (k : option string -> P A) p t :
  same_input T p ->
  nth_error (tokens T) (position (tokenizer p)) = Some t ->
  bind (peek 0) k p = k (Some (tok_text t)) p.
Proof.
  intros [_ Hk] Ht. rewrite bind_peek, Nat.add_0_r, Hk, Ht. reflexivity.
Qed.

Lemma no_number_next_known {A} (k : bool -> P A) p t :
  same_input T p ->
  nth_error (tokens T) (position (tokenizer p)) = Some t ->
  bind no_number_next k p = k (negb (isdigit (tok_text t))) p.
Proof.
  intros [_ Hk] Ht. rewrite bind_no_number_next_eq, Hk, Ht. reflexivity.
Qed.

Ltac not_junk :=
  let Hj := fresh "Hj" in
  intros Hj; rewrite Hj in *;
  match goal with
  | H : _ = _ |- _ => solve [vm_compute in H; discriminate H]
  end.

Ltac at_cursor p :=
  let t := fresh "t" in
  let Ht := fresh "Ht" in let Hne := fresh "Hne" in let Hlt := fresh "Hlt" in
  destruct (cursor_token p ltac:(assumption) ltac:(lia))
    as (t & Ht & Hne & Hlt).

Ltac stop_step :=
  match goal with
  | Ht : nth_error (tokens T) (position (tokenizer ?p)) = Some ?t
    |- stopped _ _ (bind (peek 0) ?k ?p) =>
      rewrite (peek_known k p t); [|assumption | exact Ht]
  | Ht : nth_error (tokens T) (position (tokenizer ?p)) = Some ?t
    |- stopped _ _ (bind no_number_next ?k ?p) =>
      rewrite (no_number_next_known k p t); [|assumption | exact Ht]
  | |- stopped _ _ (bind (peek _) _ _) => rewrite bind_peek
  | |- stopped _ _ (bind at_end _ ?p) =>
      rewrite bind_at_end, (not_at_end_before p) by (assumption || lia)
  | |- stopped _ _ (bind get _ _) => rewrite bind_get
  | |- stopped _ _ (bind text_len _ _) => rewrite bind_text_len
  | |- stopped _ _ (bind (int_ _) _ _) => apply stopped_int_then; intros ?
  | |- stopped _ _ (bind here_or_end _ _) =>
      apply stopped_here_or_end_then; [assumption | lia | intros ? ?]
  | |- stopped _ _ (bind (token_pos _) _ _) =>
      apply stopped_token_pos_then; [assumption | lia | intros ? ?]
  | H : ?w = offset_of T ?j |- stopped _ _ (parse_error _ ?w _) =>
      apply (stopped_parse_error _ _ j); [lia | exact H]
  | H : ?w = offset_of T ?j |- stopped _ _ (bind (parse_error _ ?w) _ _) =>
      apply (stopped_parse_error_then _ _ j); [lia | exact H]
  | |- stopped _ _ (ret _ _) => apply stopped_ret; [assumption | lia]
  | |- stopped _ _ (raise _ _) => exact I
  | |- stopped _ _ (recursion_error _) => exact I
  | |- stopped _ _ (bind recursion_error _ _) => exact I
  | |- stopped _ _ (bind (ret _) _ _) =>
      rewrite bind_of_ret; cbv beta iota
  | |- stopped _ _ (bind (bind _ _) _ _) => rewrite bind_assoc
  | |- stopped _ _ ((if ?b then _ else _) _) => destruct b eqn:?
  | |- stopped _ _ ((match ?o with _ => _ end) _) => destruct o eqn:?
  | |- stopped _ _ (bind (if ?b then _ else _) _ _) => destruct b eqn:?
  | |- stopped _ _ (bind (match ?o with _ => _ end) _ _) => destruct o eqn:?
  end.

(** Consume the token under the cursor, which is not the junk token. *)
Ltac stop_consume :=
  match goal with
  | Ht : nth_error (tokens T) (position (tokenizer ?p)) = Some ?t,
    Hlt : tok_text ?t <> "@" -> _
    |- stopped _ _ (bind (consume None) _ ?p) =>
      let p' := fresh "p" in
      let Hs := fresh "Hs" in let Hp := fresh "Hp" in
      let Hle := fresh "Hle" in
      apply (stopped_consume_then t); [assumption | exact Ht|];
      intros p' Hs Hp;
      assert (Hle : (position (tokenizer p') <= L)%nat)
        by (specialize (Hlt ltac:(not_junk)); lia);
      cbv beta
  end.

Lemma stopped_parse_condition op v p :
  same_input T p -> (position (tokenizer p) <= L)%nat ->
  stopped T L (parse_condition op v p).
Proof.
  intros Hs Hp. at_cursor p. unfold parse_condition.
  repeat stop_step.
  - stop_consume. at_cursor p0. repeat stop_step.
    stop_consume. repeat stop_step.
  - stop_consume. repeat stop_step.
Qed.


Lemma stopped_modifiers_loop : forall n mods p,
  same_input T p -> (position (tokenizer p) <= L)%nat ->
  stopped T L (modifiers_loop n mods p).
Proof.
  induction n as [|n IH]; intros mods p Hs Hp; at_cursor p;
    cbn [modifiers_loop]; repeat stop_step.
  - stop_consume.
    apply stopped_bind; [apply stopped_parse_condition; assumption|].
    intros c q _ Hsq Hq. apply IH; assumption.
  - stop_consume.
    apply stopped_bind; [apply stopped_parse_condition; assumption|].
    intros c q _ Hsq Hq. apply IH; assumption.
  - stop_consume. at_cursor p0. repeat stop_step.
    stop_consume. repeat stop_step. apply IH; assumption.
  - stop_consume. apply IH; assumption.
  - stop_consume. at_cursor p0. repeat stop_step.
    stop_consume. repeat stop_step.
Qed.

Lemma stopped_parse_dice_modifiers p :
  same_input T p -> (position (tokenizer p) <= L)%nat ->
  stopped T L (parse_dice_modifiers p).
Proof.
  intros Hs Hp. unfold parse_dice_modifiers. rewrite bind_get.
  apply stopped_modifiers_loop; assumption.
Qed.

Lemma stopped_parse_dice p :
  same_input T p -> (position (tokenizer p) <= L)%nat ->
  stopped T L (parse_dice p).
Proof.
  intros Hs Hp. at_cursor p. unfold parse_dice. stop_step.
  assert (Hrest : forall count p1,
             same_input T p1 -> (position (tokenizer p1) <= L)%nat ->
             stopped T L
               ((die_token <- consume None ;;
                 p0 <- get ;;
                 if negb (startswith "d" (lower die_token)) then
                   w <- token_pos (position (tokenizer p0) - 1) ;;
                   parse_error ("Expected dice notation, got '"
                                ++ die_token ++ "'")%string w
                 else
                   let sides_str := lower (tail_str die_token) in
                   ' (sides, kind) <-
                     (if String.eqb sides_str "%" || String.eqb sides_str "00"
                      then ret (100, Percentile)
                      else if String.eqb sides_str "f"
                              || String.eqb sides_str "f.2"
                      then ret (3, Fate)
                      else match py_int sides_str with
                           | Some n => ret (n, Standard)
                           | None =>
                               w <- token_pos (position (tokenizer p0) - 1) ;;
                               parse_error ("Invalid dice sides '"
                                            ++ sides_str ++ "'")%string w
                           end) ;;
                   if count >? MAX_DICE then
                     raise (LimitError ("Cannot roll more than "
                                        ++ str MAX_DICE
                                        ++ " dice per term")%string)
                   else if sides >? MAX_SIDES then
                     raise (LimitError ("Die cannot have more than "
                                        ++ str MAX_SIDES ++ " sides")%string)
                   else if count <? 1 then
                     raise (SemanticError "Must roll at least 1 die")
                   else if sides <? 1 then
                     raise (SemanticError "Die must have at least 1 side")
                   else
                     modifiers <- parse_dice_modifiers ;;
                     ret (Dice count sides kind modifiers)) p1)).
  { intros count p1 Hs1 Hp1. at_cursor p1.
    apply (stopped_consume_then t0); [assumption | assumption|].
    intros p2 Hs2 Hp2. cbv beta. stop_step.
    destruct (negb (startswith "d" (lower (tok_text t0)))) eqn:Hd.
    - repeat stop_step.
    - assert (Hle : (position (tokenizer p2) <= L)%nat)
        by (specialize (Hlt0 ltac:(not_junk)); lia).
      cbv zeta. repeat stop_step.
      all: apply stopped_bind;
        [apply stopped_parse_dice_modifiers; assumption|];
        intros m q _ Hsq Hq; stop_step. }
  destruct (isdigit (tok_text t)) eqn:Hd.
  - rewrite bind_assoc. stop_consume. stop_step. apply Hrest; assumption.
  - rewrite bind_of_ret. apply Hrest; assumption.
Qed.

Lemma stopped_parse_primary p :
  same_input T p -> (position (tokenizer p) <= L)%nat ->
  stopped T L (parse_primary p).
Proof.
  intros Hs Hp. at_cursor p. unfold parse_primary. stop_step.
  destruct (String.eqb (tok_text t) EmptyString) eqn:He.
  { apply String.eqb_eq in He. contradiction. }
  repeat stop_step.
  - apply stopped_parse_dice; assumption.
  - stop_consume. repeat stop_step.
Qed.

Section Factor.

Variable factor : P ast.
Hypothesis factor_stopped :
  forall q, same_input T q -> (position (tokenizer q) <= L)%nat ->
            stopped T L (factor q).

Lemma stopped_term_loop : forall n left p,
  same_input T p -> (position (tokenizer p) <= L)%nat ->
  stopped T L (term_loop factor n left p).
Proof.
  induction n as [|n IH]; intros left p Hs Hp; at_cursor p;
    cbn [term_loop]; repeat stop_step.
  stop_consume.
  apply stopped_bind; [apply factor_stopped; assumption|].
  intros right q _ Hsq Hq. apply IH; assumption.
Qed.

Lemma stopped_parse_term p :
  same_input T p -> (position (tokenizer p) <= L)%nat ->
  stopped T L (parse_term factor p).
Proof.
  intros Hs Hp. unfold parse_term.
  apply stopped_bind; [apply factor_stopped; assumption|].
  intros left q _ Hsq Hq. rewrite bind_get.
  apply stopped_term_loop; assumption.
Qed.

Lemma stopped_expression_loop : forall n left p,
  same_input T p -> (position (tokenizer p) <= L)%nat ->
  stopped T L (expression_loop factor n left p).
Proof.
  induction n as [|n IH]; intros left p Hs Hp; at_cursor p;
    cbn [expression_loop]; repeat stop_step.
  stop_consume.
  apply stopped_bind; [apply stopped_parse_term; assumption|].
  intros right q _ Hsq Hq. apply IH; assumption.
Qed.

Lemma stopped_parse_expression_with p :
  same_input T p -> (position (tokenizer p) <= L)%nat ->
  stopped T L (parse_expression_with factor p).
Proof.
  intros Hs Hp. unfold parse_expression_with.
  apply stopped_bind; [apply stopped_parse_term; assumption|].
  intros left q _ Hsq Hq. rewrite bind_get.
  apply stopped_expression_loop; assumption.
Qed.

End Factor.

Lemma stopped_parse_factor : forall fuel p,
  same_input T p -> (position (tokenizer p) <= L)%nat ->
  stopped T L (parse_factor fuel p).
Proof.
  induction fuel as [|fuel IH]; intros p Hs Hp; at_cursor p;
    cbn [parse_factor]; stop_step.
  - destruct (token_is (Some (tok_text t)) "-") eqn:Hm.
    { stop_consume. stop_step. }
    destruct (token_is (Some (tok_text t)) "(") eqn:Hpar;
      [|apply stopped_parse_primary; assumption].
    rewrite bind_get. apply stopped_set_depth_then; [assumption|].
    intros p1 Hs1 Hp1. repeat stop_step.
    apply (stopped_consume_expected_then _ t);
      [assumption | lia | rewrite Hp1; assumption
      | reflexivity | reflexivity|].
    intros p2 Hs2 Hp2 Hle2. stop_step.
  - destruct (token_is (Some (tok_text t)) "-") eqn:Hm.
    { stop_consume.
      apply stopped_bind; [apply IH; assumption|].
      intros operand q _ Hsq Hq. stop_step. }
    destruct (token_is (Some (tok_text t)) "(") eqn:Hpar;
      [|apply stopped_parse_primary; assumption].
    rewrite bind_get. apply stopped_set_depth_then; [assumption|].
    intros p1 Hs1 Hp1. repeat stop_step.
    apply (stopped_consume_expected_then _ t);
      [assumption | lia | rewrite Hp1; assumption
      | reflexivity | reflexivity|].
    intros p2 Hs2 Hp2 Hle2.
    apply stopped_bind.
    { apply stopped_parse_expression_with; [exact IH | assumption | assumption]. }
    intros expr q _ Hsq Hq. at_cursor q.
    apply (stopped_consume_expected_then _ t0);
      [assumption | lia | assumption | reflexivity | reflexivity|].
    intros p3 Hs3 Hp3 Hle3. rewrite bind_get.
    apply stopped_set_depth_then; [assumption|].
    intros p4 Hs4 Hp4. apply stopped_ret; [assumption | lia].
Qed.

(** With a junk token among them, the tokens do not parse: [parse] raises
    a [ParseError] at a token up to the junk one, or an error of another
    kind. *)
Lemma stopped_parse p :
  same_input T p -> (position (tokenizer p) <= L)%nat ->
  match parse p with
  | Ok _ => False
  | Raise (ParseError _ n _) => exists i, (i <= L)%nat /\ n = offset_of T i
  | Raise _ => True
  end.
Proof.
  intros Hs Hp. unfold parse.
  rewrite bind_at_end, (not_at_end_before p Hs Hp).
  assert (Hexpr : stopped T L (parse_expression p)).
  { unfold parse_expression. rewrite bind_get.
    apply stopped_parse_expression_with;
      [intros q; apply stopped_parse_factor | assumption | assumption]. }
  unfold bind at 1.
  destruct (parse_expression p) as [[result q]|e]; [|exact Hexpr].
  destruct Hexpr as [Hsq Hq].
  rewrite bind_at_end, (not_at_end_before q Hsq Hq). cbn [negb].
  destruct (cursor_token q Hsq Hq) as (t & Ht & _ & _).
  rewrite bind_peek, bind_get.
  cbv [bind get ret token_pos parse_error the_text raise].
  rewrite (proj2 Hsq), Ht.
  exists (position (tokenizer q)). split; [exact Hq|].
  unfold offset_of. rewrite Ht. reflexivity.
Qed.

End Junk.

Lemma parse_one txt :
  parse (mkParser (mkTokenizer txt [mkToken "1" O] O) O)
  = Ok (Number 1, mkParser (mkTokenizer txt [mkToken "1" O] 1) O).
Proof. reflexivity. Qed.

Lemma lexeme_not_empty s : lexeme s = true -> s <> EmptyString.
Proof. intros H He. rewrite He in H. discriminate. Qed.

(** One token at most settles an error. *)
Lemma offending_unique T i i' e :
  offending T i e -> offending T i' e -> i = i'.
Proof.
  assert (H : forall a b, offending T a e -> offending T b e ->
                          ~ (a < b)%nat).
  { intros a b [Ha _] [_ (toks & Hag & Hne)] Hlt.
    apply Hne. apply Ha. eapply agree_le; [|exact Hag]. lia. }
  intros Hi Hi'.
  destruct (Nat.lt_trichotomy i i') as [Hlt|[Heq|Hgt]]; [|exact Heq|].
  - exfalso. exact (H i i' Hi Hi' Hlt).
  - exfalso. exact (H i' i Hi' Hi Hgt).
Qed.

(** A [ParseError] of [parse] names the offending token: its position is
    0 when there is no token at all, and otherwise the offset of the
    token that settles the error, or the length of the text when the
    parse fails for want of a token. *)
Lemma parse_error_at_offending_token expression msg n txt :
  parse (new_DiceParser expression) = Raise (ParseError msg n txt) ->
  (tokens (new_Tokenizer expression) = [] /\ n = O)
  \/ exists i,
       (i <= List.length (tokens (new_Tokenizer expression)))%nat
       /\ n = offset_of (new_Tokenizer expression) i
       /\ offending (new_Tokenizer expression) i (ParseError msg n txt).
Proof.
  intros Hparse.
  set (T := new_Tokenizer expression).
  set (p0 := new_DiceParser expression).
  assert (Hs0 : same_input T p0) by (split; reflexivity).
  assert (Hon : forall toks, on_tokens toks p0 = parser_on T toks)
    by reflexivity.
  destruct (List.length (tokens T) <=? position (tokenizer p0))%nat eqn:He0.
  { left. pose proof (parse_empty p0 He0) as Hempty.
    fold p0 in Hparse. rewrite Hempty in Hparse. injection Hparse as _ <- _.
    split; [|reflexivity].
    apply Nat.leb_le in He0. change (position (tokenizer p0)) with O in He0.
    destruct (tokens T); [reflexivity | cbn in He0; lia]. }
  right.
  assert (Hsome : (0 < List.length (tokens T))%nat).
  { apply Nat.leb_gt in He0. exact He0. }
  pose proof (echoes_parse T p0 Hs0 He0) as Hecho.
  fold p0 in Hparse. rewrite Hparse in Hecho.
  destruct Hecho as (i0 & _ & Hn & Hsame).
  set (i := Nat.min i0 (List.length (tokens T))).
  exists i.
  assert (Hoff : n = offset_of T i).
  { unfold i.
    destruct (Nat.le_gt_cases i0 (List.length (tokens T))) as [Hle|Hgt].
    - rewrite Nat.min_l by exact Hle. exact Hn.
    - rewrite Nat.min_r by lia. rewrite Hn.
      rewrite !(offset_of_end T) by lia. reflexivity. }
  split; [unfold i; lia|]. split; [exact Hoff|]. split.
  { intros toks Hag. rewrite <- Hon. apply Hsame. unfold i in Hag.
    destruct (Nat.le_gt_cases i0 (List.length (tokens T))) as [Hle|Hgt].
    - rewrite Nat.min_l in Hag by exact Hle. exact Hag.
    - rewrite Nat.min_r in Hag by lia. apply agree_all. exact Hag. }
  assert (Hi : (i <= List.length (tokens T))%nat) by (unfold i; lia).
  clearbody i. clear i0 Hn Hsame.
  destruct (Nat.eq_dec i O) as [Hzero|Hpos].
  { (* the first token: a parse that succeeds *)
    exists [mkToken "1" O]. split; [intros j Hj; lia|].
    unfold parser_on. rewrite parse_one. discriminate. }
  destruct (Nat.eq_dec i (List.length (tokens T))) as [Hend|Hmid].
  - (* for want of a token: a junk token in its place stops the parser
       short of the end *)
    set (J := junk (S (slen (text T)))).
    exists (tokens T ++ [J]). split.
    { intros j Hj. rewrite nth_error_app1 by lia. reflexivity. }
    set (T' := mkTokenizer (text T) (tokens T ++ [J]) O).
    assert (Hthere : nth_error (tokens T') (List.length (tokens T)) = Some J).
    { cbn [T' tokens]. rewrite nth_error_app2 by lia.
      rewrite Nat.sub_diag. reflexivity. }
    assert (Hfull : Forall (fun t => tok_text t <> EmptyString) (tokens T')).
    { cbn [T' tokens]. apply Forall_app. split.
      - eapply Forall_impl;
          [|apply (finditer_lexemes (chars (strip expression)) O O)].
        intros t. apply lexeme_not_empty.
      - constructor; [discriminate | constructor]. }
    pose proof (stopped_parse T' (List.length (tokens T)) J Hthere eq_refl
                  Hfull (parser_on T (tokens T ++ [J]))
                  ltac:(split; reflexivity) ltac:(cbn; lia)) as Hstop.
    intros Hsame. rewrite Hsame in Hstop.
    destruct Hstop as (j & Hj & Hnj).
    assert (Hn : n = slen (text T)).
    { rewrite Hoff, Hend. apply offset_of_end. lia. }
    unfold offset_of in Hnj. cbn [T' tokens text] in Hnj.
    destruct (Nat.eq_dec j (List.length (tokens T))) as [Hjl|Hjl].
    + rewrite Hjl, nth_error_app2, Nat.sub_diag in Hnj by lia.
      unfold J, junk in Hnj. cbn [nth_error pos] in Hnj. lia.
    + rewrite nth_error_app1 in Hnj by lia.
      destruct (nth_error (tokens T) j) as [t|] eqn:Ht.
      * pose proof (offset_of_increasing expression j
                      (List.length (tokens T)) t Ht ltac:(lia)) as Hlt.
        fold T in Hlt. rewrite (offset_of_end T) in Hlt by lia. lia.
      * apply nth_error_None in Ht. lia.
  - (* a token in the middle: the tokens before it alone fail at the end
       of the text, if at all *)
    exists (firstn i (tokens T)). split.
    { intros j Hj. rewrite nth_error_firstn.
      destruct (Nat.ltb_spec j i); [reflexivity | lia]. }
    intros Hcut.
    set (T' := mkTokenizer (text T) (firstn i (tokens T)) O).
    assert (Hs' : same_input T' (parser_on T (firstn i (tokens T))))
      by (split; reflexivity).
    assert (He' : (List.length (tokens T')
                   <=? position (tokenizer
                                   (parser_on T (firstn i (tokens T)))))%nat
                  = false).
    { apply Nat.leb_gt. cbn [T' tokens parser_on tokenizer position].
      rewrite length_firstn. lia. }
    pose proof (echoes_parse T' _ Hs' He') as Hecho.
    rewrite Hcut in Hecho. destruct Hecho as (j & _ & Hn' & Hsame').
    assert (Hti : exists t, nth_error (tokens T) i = Some t).
    { destruct (nth_error (tokens T) i) as [t|] eqn:Ht; [eauto|].
      apply nth_error_None in Ht. lia. }
    destruct Hti as (ti & Hti).
    assert (Hni : n = pos ti)
      by (rewrite Hoff; unfold offset_of; rewrite Hti; reflexivity).
    destruct (Nat.le_gt_cases i j) as [Hij|Hji].
    + (* the cut fails at the end of the text, the input before it *)
      unfold offset_of in Hn'. cbn [T' tokens text] in Hn'.
      rewrite nth_error_firstn in Hn'.
      destruct (Nat.ltb_spec j i); [lia|].
      pose proof (offset_of_increasing expression i
                    (List.length (tokens T)) ti Hti ltac:(lia)) as Hlt.
      fold T in Hlt. rewrite (offset_of_end T) in Hlt by lia. lia.
    + (* the cut fails at a token before: so would the input *)
      unfold offset_of in Hn'. cbn [T' tokens text] in Hn'.
      rewrite nth_error_firstn in Hn'.
      destruct (Nat.ltb_spec j i); [|lia].
      destruct (nth_error (tokens T) j) as [t|] eqn:Hj.
      * pose proof (offset_of_increasing expression j i t Hj Hji) as Hlt.
        fold T in Hlt. lia.
      * apply nth_error_None in Hj. lia.
Qed.



